(** * Unwrapped for Plex: a verification development

    A shallow embedding of the parts of the repository that its
    specification speaks about, and the facts proved of them:

    - [Orchestrator]: the background job [generateWrappedStats] of
      [backend/src/routes/admin.routes.ts] and the route that starts it,
      over the tables of the schema ([wrapped_generations],
      [user_wrapped_stats], [access_tokens]);
    - [Js]: the JavaScript values and operators the other modules need;
    - [I18n]: the translation service of the backend ([I18nService]);
    - [Locale]: the choice of the locale of the wrapped page;
    - [Emails]: the route [POST /api/admin/emails/send] and its job;
    - [FunFacts]: the fun-fact slide of the wrapped page;
    - [Engine]: the aggregation engine, which is not among the sources and
      is modelled from the specification.
    - [Text]: the string functions of JavaScript the modules below need;
    - [Users]: the model of the users table ([backend/src/models/User.ts])
      and the routes that write it (the sync from Tautulli, the language of
      a user);
    - [Login], [SendEmail], [Logs]: the login of the administrator, the
      route that sends the email of one user, the application log route
      and the email figures of the dashboard;
    - [Server]: the start of the backend ([backend/src/index.ts]);
    - [Switcher], [ApiClient], [Page]: the language switcher and the locale
      provider of the frontend, its API client ([frontend/lib/api.ts]) and
      the two formats of the wrapped page.

    Every asynchronous call of the source is an operation of a small
    state-and-exception monad; whether a call is rejected is decided by an
    explicit environment, so that every combination of failures the source
    can meet is a value the theorems quantify over. *)

From stdpp Require Import base list strings gmap sorting pretty countable.
From Stdlib Require Import ZArith Lia Ascii.

Local Open Scope Z_scope.

(** ** Results of calls that may throw *)

Inductive result (A : Type) : Type :=
| Ok (a : A)
| Err (message : string).
Arguments Ok {A} a.
Arguments Err {A} message.

Definition is_ok {A} (r : result A) : bool :=
  match r with Ok _ => true | Err _ => false end.

(** ** State and exceptions

    A computation reads and writes a state and either returns or throws;
    a thrown exception keeps the state reached so far. *)

Section StateAndExceptions.

Context {S : Type}.

Definition StExc (A : Type) : Type := S → result A * S.

Definition ret {A} (a : A) : StExc A := λ w, (Ok a, w).

Definition bind {A B} (m : StExc A) (k : A → StExc B) : StExc B :=
  λ w, match m w with
       | (Ok a, w') => k a w'
       | (Err e, w') => (Err e, w')
       end.

Definition throw {A} (e : string) : StExc A := λ w, (Err e, w).

(** [try { body } catch (error) { handler(error) }] *)
Definition try_catch {A} (body : StExc A) (handler : string → StExc A)
    : StExc A :=
  λ w, match body w with
       | (Ok a, w') => (Ok a, w')
       | (Err e, w') => handler e w'
       end.

Definition modify (f : S → S) : StExc unit := λ w, (Ok tt, f w).

Definition gets {A} (f : S → A) : StExc A := λ w, (Ok (f w), w).

Definition lift {A} (r : result A) : StExc A := λ w, (r, w).

(** A call the surroundings may reject. *)
Definition may_fail (fault : option string) : StExc unit :=
  match fault with
  | Some e => throw e
  | None => ret tt
  end.

End StateAndExceptions.

Arguments StExc S A : clear implicits.

#[global] Instance M_ret {S} : MRet (StExc S) := @ret S.
#[global] Instance M_bind {S} : MBind (StExc S) := λ A B k m, bind m k.

(** ** The generation orchestrator *)

Module Orchestrator.

(** The [status] column of [wrapped_generations]; the schema's CHECK lists
    exactly these five values. *)
Inductive GenStatus : Type :=
| pending | processing | completed | failed | cancelled.

Global Instance GenStatus_eq_dec : EqDecision GenStatus.
Proof. solve_decision. Defined.

(** The columns of [users] that the job reads. *)
Record User : Type := mkUser {
  user_id : Z;
  plex_user_id : Z;
  username : string
}.

(** A row of [wrapped_generations]. *)
Record Generation : Type := mkGeneration {
  g_id : Z;
  g_year : Z;
  g_status : GenStatus;
  g_started_at : option Z;
  g_completed_at : option Z;
  g_total_users : Z;
  g_processed_users : Z;
  g_successful_users : Z;
  g_failed_users : Z;
  g_error_log : option string;
  g_triggered_by : string
}.

(** The object handed to [WrappedGenerationModel.update]: the columns to
    set; an absent key leaves its column alone. *)
Record GenUpdate : Type := mkGenUpdate {
  u_status : option GenStatus;
  u_started_at : option Z;
  u_completed_at : option Z;
  u_total_users : option Z;
  u_successful_users : option Z;
  u_failed_users : option Z;
  u_error_log : option string
}.

Definition no_update : GenUpdate :=
  mkGenUpdate None None None None None None None.

Definition apply_update (u : GenUpdate) (g : Generation) : Generation :=
  {| g_id := g_id g;
     g_year := g_year g;
     g_status := default (g_status g) (u_status u);
     g_started_at := from_option Some (g_started_at g) (u_started_at u);
     g_completed_at := from_option Some (g_completed_at g) (u_completed_at u);
     g_total_users := default (g_total_users g) (u_total_users u);
     g_processed_users := g_processed_users g;
     g_successful_users := default (g_successful_users g) (u_successful_users u);
     g_failed_users := default (g_failed_users g) (u_failed_users u);
     g_error_log := from_option Some (g_error_log g) (u_error_log u);
     g_triggered_by := g_triggered_by g |}.

(** Modelled from the spec: [WrappedGenerationModel.incrementProcessed] is
    not in the sources; going by its name, its boolean argument and the
    counter columns of the schema it bumps [processed_users] and the
    counter of the outcome. It never touches [status]. *)
Definition bump_processed (success : bool) (g : Generation) : Generation :=
  {| g_id := g_id g;
     g_year := g_year g;
     g_status := g_status g;
     g_started_at := g_started_at g;
     g_completed_at := g_completed_at g;
     g_total_users := g_total_users g;
     g_processed_users := g_processed_users g + 1;
     g_successful_users :=
       if success then g_successful_users g + 1 else g_successful_users g;
     g_failed_users :=
       if success then g_failed_users g else g_failed_users g + 1;
     g_error_log := g_error_log g;
     g_triggered_by := g_triggered_by g |}.

(** Lines written through [logger]. *)
Inductive LogLine : Type :=
| LogProcessing (uid : Z)
| LogProcessed (uid : Z)
| LogFailedUser (uid : Z) (message : string)
| LogCompleted (gid successful failed : Z)
| LogGenerationFailed (gid : Z) (message : string).

Section Job.

(** The statistics object computed for one user; the job only passes it on. *)
Context {Stats : Type}.

(** A row of [user_wrapped_stats], as far as the job fills it. *)
Record StatsRow : Type := mkStatsRow {
  sr_id : Z;
  sr_user_id : Z;
  sr_generation_id : Z;
  sr_year : Z;
  sr_stats : Stats;
  sr_processing_time_seconds : Z
}.

(** A row of [access_tokens]. *)
Record TokenRow : Type := mkTokenRow {
  tk_token : string;
  tk_stats_id : Z;
  tk_user_id : Z;
  tk_year : Z;
  tk_created_by : string
}.

(** The persisted store, the application log, and the two counters that
    are local variables of the job (they live in the state because the
    source updates them before a call that may throw and reads them in the
    handler and after the loop). [w_history] is a ghost column: every
    write of a [status] value, in order, with the row it went to. *)
Record World : Type := mkWorld {
  w_users : list User;
  w_generations : gmap Z Generation;
  w_next_generation_id : Z;
  w_stats : list StatsRow;
  w_next_stats_id : Z;
  w_tokens : list TokenRow;
  w_history : list (Z * GenStatus);
  w_log : list LogLine;
  w_successful : Z;
  w_failed : Z
}.

Definition set_generations (f : gmap Z Generation → gmap Z Generation)
    (w : World) : World :=
  mkWorld (w_users w) (f (w_generations w)) (w_next_generation_id w)
    (w_stats w) (w_next_stats_id w)
    (w_tokens w) (w_history w) (w_log w) (w_successful w) (w_failed w).

Definition set_next_generation_id (n : Z) (w : World) : World :=
  mkWorld (w_users w) (w_generations w) n (w_stats w) (w_next_stats_id w)
    (w_tokens w) (w_history w) (w_log w) (w_successful w) (w_failed w).

Definition set_stats (t : list StatsRow) (next : Z) (w : World) : World :=
  mkWorld (w_users w) (w_generations w) (w_next_generation_id w) t next
    (w_tokens w) (w_history w) (w_log w) (w_successful w) (w_failed w).

Definition set_tokens (t : list TokenRow) (w : World) : World :=
  mkWorld (w_users w) (w_generations w) (w_next_generation_id w)
    (w_stats w) (w_next_stats_id w)
    t (w_history w) (w_log w) (w_successful w) (w_failed w).

Definition set_history (h : list (Z * GenStatus)) (w : World) : World :=
  mkWorld (w_users w) (w_generations w) (w_next_generation_id w)
    (w_stats w) (w_next_stats_id w)
    (w_tokens w) h (w_log w) (w_successful w) (w_failed w).

Definition set_log (l : list LogLine) (w : World) : World :=
  mkWorld (w_users w) (w_generations w) (w_next_generation_id w)
    (w_stats w) (w_next_stats_id w)
    (w_tokens w) (w_history w) l (w_successful w) (w_failed w).

Definition set_counters (s f : Z) (w : World) : World :=
  mkWorld (w_users w) (w_generations w) (w_next_generation_id w)
    (w_stats w) (w_next_stats_id w)
    (w_tokens w) (w_history w) (w_log w) s f.

Local Abbreviation M := (StExc World).

Definition logger (l : LogLine) : M unit :=
  modify (λ w, set_log (w_log w ++ [l]) w).

(** *** What the surroundings of the job decide *)

(** The four [WrappedGenerationModel.update] calls of the job. *)
Inductive Phase : Type :=
| MarkProcessing | SetTotal | MarkCompleted | MarkFailed.

(** One value of [Env] fixes which calls of a run are rejected and what the
    external services answer; the natural number is the position of the
    user in the loop. *)
Record Env : Type := mkEnv {
  create_fault : option string;
  TARGET_YEAR : Z;
  update_fault : Phase → option string;
  fetch_fault : option string;
  calculateUserStats : nat → Z → Z → result Stats;
  stats_fault : nat → option string;
  token_fault : nat → option string;
  increment_fault : nat → bool → option string;
  elapsed_seconds : nat → Z;
  new_token : nat → string;
  started_now : Z;
  finished_now : Z
}.

(** *** The models *)

(** Modelled from the spec: [WrappedGenerationModel.create] is not in the
    sources; the new row takes the next value of the SERIAL [id] and the
    DEFAULTs of the schema, [status] 'pending' among them. *)
Definition WrappedGenerationModel_create (fault : option string)
    (year : Z) (triggered_by : string) : M Generation :=
  may_fail fault ;;
  id ← gets w_next_generation_id;
  let g := mkGeneration id year pending None None 0 0 0 0 None triggered_by in
  modify (λ w, set_history (w_history w ++ [(id, pending)])
                 (set_next_generation_id (id + 1)
                    (set_generations (insert id g) w))) ;;
  ret g.

(** Modelled from the spec: [WrappedGenerationModel.update(id, data)] is
    not in the sources; it is the ordinary UPDATE of the given columns of
    the row [id]. A write of [status] is noted in the history. *)
Definition record_update (id : Z) (u : GenUpdate) (w : World) : World :=
  let w' := set_generations (alter (apply_update u) id) w in
  match u_status u with
  | Some s => set_history (w_history w ++ [(id, s)]) w'
  | None => w'
  end.

Definition WrappedGenerationModel_update (fault : option string)
    (id : Z) (u : GenUpdate) : M unit :=
  may_fail fault ;;
  modify (record_update id u).

(** [WrappedGenerationModel.incrementProcessed(id, success)]. *)
Definition WrappedGenerationModel_incrementProcessed (fault : option string)
    (id : Z) (success : bool) : M unit :=
  may_fail fault ;;
  modify (set_generations (alter (bump_processed success) id)).

(** The constraints of [user_wrapped_stats] that bear on a write of the
    job: UNIQUE(user_id, year) and CHECK (year >= 2000 AND year <= 2100). *)
Definition user_year (r : StatsRow) : Z * Z := (sr_user_id r, sr_year r).

Definition unique_user_year (t : list StatsRow) : Prop :=
  NoDup (user_year <$> t).

Definition year_in_range (t : list StatsRow) : Prop :=
  Forall (λ r, 2000 ≤ sr_year r ∧ sr_year r ≤ 2100) t.

Definition constraints_ok (t : list StatsRow) : bool :=
  bool_decide (unique_user_year t) && bool_decide (year_in_range t).

(** Modelled from the spec: [UserWrappedStatsModel.create] is not in the
    sources, so the SQL statement it issues is kept abstract: [stmt] maps
    the table and the new row to the table the statement asks for. The
    store then enforces the constraints of the schema: a result that breaks
    one is refused, the table stays as it was and the call throws. *)
Variable stmt : list StatsRow → StatsRow → list StatsRow.

Definition UserWrappedStatsModel_create (fault : option string)
    (user generation year : Z) (stats : Stats) (processing_time : Z)
    : M StatsRow :=
  may_fail fault ;;
  id ← gets w_next_stats_id;
  t ← gets w_stats;
  let row := mkStatsRow id user generation year stats processing_time in
  let t' := stmt t row in
  if constraints_ok t'
  then modify (set_stats t' (id + 1)) ;; ret row
  else modify (set_stats t (id + 1)) ;;
       throw "new row violates a constraint of user_wrapped_stats".

(** Modelled from the spec: [AccessTokenModel.create] is not in the
    sources; it adds one row to [access_tokens]. *)
Definition AccessTokenModel_create (fault : option string) (token : string)
    (stats_id user year : Z) (created_by : string) : M unit :=
  may_fail fault ;;
  modify (λ w, set_tokens
    (w_tokens w ++ [mkTokenRow token stats_id user year created_by]) w).

(** [UserModel.findById] and [UserModel.findAll] ([models/User.ts]).
    [findAll] orders by username under the collation of the database:
    [w_users] lists the users in that order. *)
Definition UserModel_findById (w : World) (id : Z) : option User :=
  List.find (λ u, bool_decide (user_id u = id)) (w_users w).

(** [userIds ? Promise.all(userIds.map(id => UserModel.findById(id)))
             : UserModel.findAll()], with the [null]s filtered out. *)
Definition select_users (w : World) (userIds : option (list Z)) : list User :=
  match userIds with
  | Some ids => omap (UserModel_findById w) ids
  | None => w_users w
  end.

Definition fetch_users (fault : option string) (userIds : option (list Z))
    : M (list User) :=
  may_fail fault ;;
  w ← gets id;
  ret (select_users w userIds).

(** *** [generateWrappedStats]

    [new StatsCalculator()] has no counterpart of its own: the engine is
    the function [calculateUserStats env]. *)

Variable env : Env.

(** The body of the [for (const user of users)] loop. *)
Definition process_user (generationId year : Z) (i : nat) (user : User)
    : M unit :=
  try_catch
    (logger (LogProcessing (user_id user)) ;;
     stats ← lift (calculateUserStats env i (plex_user_id user) year);
     savedStats ← UserWrappedStatsModel_create (stats_fault env i)
                    (user_id user) generationId year stats
                    (elapsed_seconds env i);
     AccessTokenModel_create (token_fault env i) (new_token env i)
       (sr_id savedStats) (user_id user) year "generation" ;;
     modify (λ w, set_counters (w_successful w + 1) (w_failed w) w) ;;
     WrappedGenerationModel_incrementProcessed (increment_fault env i true)
       generationId true ;;
     logger (LogProcessed (user_id user)))
    (λ error,
     logger (LogFailedUser (user_id user) error) ;;
     modify (λ w, set_counters (w_successful w) (w_failed w + 1) w) ;;
     WrappedGenerationModel_incrementProcessed (increment_fault env i false)
       generationId false).

Fixpoint for_users (generationId year : Z) (i : nat) (users : list User)
    : M unit :=
  match users with
  | [] => ret tt
  | user :: rest =>
      process_user generationId year i user ;;
      for_users generationId year (S i) rest
  end.

Definition generateWrappedStats (generationId year : Z)
    (userIds : option (list Z)) : M unit :=
  try_catch
    (WrappedGenerationModel_update (update_fault env MarkProcessing)
       generationId
       (mkGenUpdate (Some processing) (Some (started_now env))
          None None None None None) ;;
     users ← fetch_users (fetch_fault env) userIds;
     WrappedGenerationModel_update (update_fault env SetTotal) generationId
       (mkGenUpdate None None None (Some (Z.of_nat (length users)))
          None None None) ;;
     modify (set_counters 0 0) ;;
     for_users generationId year 0 users ;;
     n_successful ← gets w_successful;
     n_failed ← gets w_failed;
     WrappedGenerationModel_update (update_fault env MarkCompleted)
       generationId
       (mkGenUpdate (Some completed) None (Some (finished_now env)) None
          (Some n_successful) (Some n_failed) None) ;;
     logger (LogCompleted generationId n_successful n_failed))
    (λ error,
     logger (LogGenerationFailed generationId error) ;;
     WrappedGenerationModel_update (update_fault env MarkFailed) generationId
       (mkGenUpdate (Some failed) None (Some (finished_now env)) None
          None None (Some error))).

(** [POST /api/admin/generate]: the record is created, the job is started
    and the response does not wait for it; a rejection of the job is only
    logged. The state returned is the one the job leaves behind. *)
Record GenerateResponse : Type := mkGenerateResponse {
  resp_success : bool;
  resp_message : string;
  resp_generation : Generation
}.

(** [year || parseInt(process.env.TARGET_YEAR || '2025', 10)] *)
Definition target_year (year : option Z) : Z :=
  match year with
  | Some y => if bool_decide (y = 0) then TARGET_YEAR env else y
  | None => TARGET_YEAR env
  end.

Definition post_generate (year : option Z) (userIds : option (list Z))
    (admin : string) : M GenerateResponse :=
  let targetYear := target_year year in
  generation ← WrappedGenerationModel_create (create_fault env)
                 targetYear admin;
  try_catch (generateWrappedStats (g_id generation) targetYear userIds)
    (λ _, ret tt) ;;
  ret (mkGenerateResponse true "Generation started" generation).

End Job.

End Orchestrator.

(** ** JavaScript values *)

Module Js.

(** The values the modelled code meets: what [JSON.parse] returns,
    [undefined], and what a lookup finds on the prototype chain of an
    object or array (built-in functions, and the two prototype objects,
    which [__proto__] reaches). Numbers are the integers. *)
#[warnings="-register-all"] Inductive JsVal : Type :=
| JUndefined
| JNull
| JBool (b : bool)
| JNum (n : Z)
| JStr (s : string)
| JArr (items : list JsVal)
| JObj (fields : list (string * JsVal))
| JFunction (name : string)
| JObjectPrototype
| JArrayPrototype.

(** The names the prototypes define depend on the engine; the model takes
    them, and the source text [String] gives for a built-in function, as
    given. *)
Record Builtins : Type := mkBuiltins {
  object_members : list string;
  array_members : list string;
  function_source : string → string
}.

(** [typeof v] *)
Definition js_typeof (v : JsVal) : string :=
  match v with
  | JUndefined => "undefined"
  | JNull => "object"
  | JBool _ => "boolean"
  | JNum _ => "number"
  | JStr _ => "string"
  | JArr _ | JObj _ | JObjectPrototype | JArrayPrototype => "object"
  | JFunction _ => "function"
  end.

(** Truthiness, as [if (v)], [v && _] and [v || _] see it. *)
Definition truthy (v : JsVal) : bool :=
  match v with
  | JUndefined | JNull => false
  | JBool b => b
  | JNum n => negb (bool_decide (n = 0))
  | JStr s => negb (bool_decide (s = ""))
  | _ => true
  end.

Definition own_property (fields : list (string * JsVal)) (k : string)
    : option JsVal :=
  snd <$> List.find (λ kv, bool_decide (kv.1 = k)) fields.

(** The array index a property name denotes, if it is the canonical decimal
    form of an index below [len]. *)
Definition array_index (len : nat) (k : string) : option nat :=
  List.find (λ i, bool_decide (pretty i = k)) (seq 0 len).

Section Properties.

Variable B : Builtins.

Definition is_member (names : list string) (k : string) : bool :=
  bool_decide (k ∈ names).

(** [k in v]; a TypeError when [v] is not an object. *)
Definition has_property (k : string) (v : JsVal) : result bool :=
  match v with
  | JObj fields =>
      Ok (bool_decide (is_Some (own_property fields k))
          || is_member (object_members B) k)
  | JArr items =>
      Ok (bool_decide (k = "length")
          || bool_decide (is_Some (array_index (length items) k))
          || is_member (array_members B) k
          || is_member (object_members B) k)
  | JObjectPrototype => Ok (is_member (object_members B) k)
  | JArrayPrototype =>
      Ok (bool_decide (k = "length")
          || is_member (array_members B) k
          || is_member (object_members B) k)
  | JFunction _ =>
      Ok (bool_decide (k = "length") || bool_decide (k = "name")
          || is_member (object_members B) k)
  | _ => Err "TypeError: Cannot use 'in' operator"
  end.

(** What the prototype chain of a plain object gives for [k]. *)
Definition inherited_from_object (k : string) : JsVal :=
  if is_member (object_members B) k
  then if bool_decide (k = "__proto__") then JObjectPrototype else JFunction k
  else JUndefined.

Definition inherited_from_array (k : string) : JsVal :=
  if bool_decide (k = "__proto__") && is_member (object_members B) k
  then JArrayPrototype
  else if is_member (array_members B) k || is_member (object_members B) k
  then JFunction k
  else JUndefined.

(** [fields[k]] for the own properties [fields] of a plain object. *)
Definition object_get (fields : list (string * JsVal)) (k : string) : JsVal :=
  match own_property fields k with
  | Some v => v
  | None => inherited_from_object k
  end.

(** [v[k]]; a TypeError on [null] and [undefined]. The members of the
    wrappers of the other primitives are not modelled beyond [undefined]:
    the code never reads them. *)
Definition get_property (v : JsVal) (k : string) : result JsVal :=
  match v with
  | JUndefined | JNull => Err "TypeError: Cannot read properties"
  | JObj fields => Ok (object_get fields k)
  | JArr items =>
      if bool_decide (k = "length") then Ok (JNum (Z.of_nat (length items)))
      else match array_index (length items) k with
           | Some i => Ok (default JUndefined (items !! i))
           | None => Ok (inherited_from_array k)
           end
  | JObjectPrototype =>
      if is_member (object_members B) k
      then Ok (if bool_decide (k = "__proto__") then JNull else JFunction k)
      else Ok JUndefined
  | JArrayPrototype =>
      if bool_decide (k = "length") then Ok (JNum 0)
      else if bool_decide (k = "__proto__") && is_member (object_members B) k
      then Ok JObjectPrototype
      else Ok (inherited_from_array k)
  | JFunction name =>
      if bool_decide (k = "name") then Ok (JStr name)
      else if bool_decide (k = "length") then Ok (JNum 0)
      else Ok (inherited_from_object k)
  | JBool _ | JNum _ | JStr _ => Ok JUndefined
  end.

End Properties.

(** The primitive values: what the callers of the translation service
    interpolate (numbers and strings read from the database, possibly
    [null] or missing). *)
Inductive Prim : Type :=
| PUndefined
| PNull
| PBool (b : bool)
| PNum (n : Z)
| PStr (s : string).

Definition prim_val (p : Prim) : JsVal :=
  match p with
  | PUndefined => JUndefined
  | PNull => JNull
  | PBool b => JBool b
  | PNum n => JNum n
  | PStr s => JStr s
  end.

(** [String(v)] for a primitive, a built-in function or a prototype, the
    values a placeholder can be filled with; the text of an array or of a
    plain object, which no caller interpolates, is not spelled out. *)
Definition js_String (B : Builtins) (v : JsVal) : string :=
  match v with
  | JUndefined => "undefined"
  | JNull => "null"
  | JBool true => "true"
  | JBool false => "false"
  | JNum n => pretty n
  | JStr s => s
  | JFunction name => function_source B name
  | JArrayPrototype => ""
  | JObjectPrototype | JObj _ => "[object Object]"
  | JArr _ => ""
  end.

End Js.

(** ** The translation service (backend [I18nService]) *)

Module I18n.

Import Js.

Definition defaultLocale : string := "en".

Definition supportedLocales : list string := ["en"; "es"; "fr"; "de"; "sl"].

(** [key.split('.')]: never empty. *)
Fixpoint split_dots (s : string) : list string :=
  match s with
  | EmptyString => [""]
  | String c rest =>
      if bool_decide (c = "."%char) then "" :: split_dots rest
      else match split_dots rest with
           | h :: t => String c h :: t
           | [] => [String c ""]
           end
  end.

(** [\w] *)
Definition is_word_char (c : ascii) : bool :=
  let n := Ascii.nat_of_ascii c in
  ((48 <=? n) && (n <=? 57) || (65 <=? n) && (n <=? 90)
   || (97 <=? n) && (n <=? 122) || (n =? 95))%nat.

(** *** The values of a parameter map

    A parameter map is a [Record<string, any>]. The model takes the values
    [undefined] and those JSON can express: the primitives, arrays and
    plain objects. *)
#[warnings="-register-all"] Inductive Param : Type :=
| ParamUndefined
| ParamNull
| ParamBool (b : bool)
| ParamNum (n : Z)
| ParamStr (s : string)
| ParamArr (items : list Param)
| ParamObj (fields : list (string * Param)).

Definition of_prim (p : Prim) : Param :=
  match p with
  | PUndefined => ParamUndefined
  | PNull => ParamNull
  | PBool b => ParamBool b
  | PNum n => ParamNum n
  | PStr s => ParamStr s
  end.

Definition has_own (fields : list (string * Param)) (k : string) : bool :=
  bool_decide (is_Some (List.find (λ kv, bool_decide (kv.1 = k)) fields)).

(** [String(v)]. An array is joined with commas, its [null] and
    [undefined] elements giving the empty text. A plain object gives
    '[object Object]' through the [toString] it inherits, unless it has a
    property [toString] of its own: a value of JSON is not callable, the
    [valueOf] that is tried next, its own or the inherited one, gives no
    primitive, and the conversion throws a TypeError. *)
Fixpoint js_String_any (v : Param) : result string :=
  match v with
  | ParamUndefined => Ok "undefined"
  | ParamNull => Ok "null"
  | ParamBool true => Ok "true"
  | ParamBool false => Ok "false"
  | ParamNum n => Ok (pretty n)
  | ParamStr s => Ok s
  | ParamArr items =>
      (fix join (items : list Param) : result string :=
         match items with
         | [] => Ok ""
         | item :: rest =>
             match match item with
                   | ParamUndefined | ParamNull => Ok ""
                   | _ => js_String_any item
                   end with
             | Err e => Err e
             | Ok text =>
                 match rest with
                 | [] => Ok text
                 | _ :: _ =>
                     match join rest with
                     | Err e => Err e
                     | Ok texts => Ok (text +:+ String "," texts)
                     end
                 end
             end
         end) items
  | ParamObj fields =>
      if has_own fields "toString"
      then Err "TypeError: Cannot convert object to primitive value"
      else Ok "[object Object]"
  end.

Section Service.

Variable B : Builtins.

(** The placeholder callback of [interpolate]:
    [params[key] !== undefined ? String(params[key]) : match], on a
    parameter map of primitives, the values the callers in the repository
    pass; [String] of a primitive does not throw. [replacement_any] below
    is the callback on any parameter map. *)
Definition replacement (params : list (string * Prim)) (key : string) : string :=
  match object_get B (prod_map id prim_val <$> params) key with
  | JUndefined => "{" +:+ key +:+ "}"
  | v => js_String B v
  end.

(** [template.replace(/\{(\w+)\}/g, ...)] as one pass over the template:
    [pending] holds the word characters read since an opening brace that
    may still start a placeholder. *)
Fixpoint replace_placeholders (params : list (string * Prim))
    (pending : option string) (template : string) : string :=
  match template with
  | EmptyString =>
      match pending with
      | Some name => "{" +:+ name
      | None => ""
      end
  | String c rest =>
      match pending with
      | None =>
          if bool_decide (c = "{"%char)
          then replace_placeholders params (Some "") rest
          else String c (replace_placeholders params None rest)
      | Some name =>
          if is_word_char c
          then replace_placeholders params (Some (name +:+ String c "")) rest
          else if bool_decide (c = "}"%char) && negb (bool_decide (name = ""))
          then replacement params name
               +:+ replace_placeholders params None rest
          else "{" +:+ name
               +:+ (if bool_decide (c = "{"%char)
                    then replace_placeholders params (Some "") rest
                    else String c (replace_placeholders params None rest))
      end
  end.

Definition interpolate (template : string) (params : list (string * Prim))
    : string :=
  replace_placeholders params None template.

(** The loop of [translate] over the segments of the key: [None] is the
    early [return key]. Every operation that can throw is written as the
    source evaluates it, behind the guards of the source. *)
Fixpoint navigate (keys : list string) (value : JsVal)
    : result (option JsVal) :=
  match keys with
  | [] => Ok (Some value)
  | k :: rest =>
      if truthy value && bool_decide (js_typeof value = "object")
      then match has_property B k value with
           | Err e => Err e
           | Ok true =>
               match get_property B value k with
               | Err e => Err e
               | Ok v => navigate rest v
               end
           | Ok false => Ok None
           end
      else Ok None
  end.

(** The service: the tables loaded at construction, by locale. *)
Variable translations : gmap string JsVal.

(** [this.translations.get(locale) || this.translations.get(defaultLocale)] *)
Definition table_for (locale : string) : option JsVal :=
  match translations !! locale with
  | Some t => if truthy t then Some t else translations !! defaultLocale
  | None => translations !! defaultLocale
  end.

(** [translate(key, locale = defaultLocale, params?)]; [locale] and
    [params] are [None] when the caller leaves them out. *)
Definition translate (key : string) (locale : option string)
    (params : option (list (string * Prim))) : result string :=
  let locale := default defaultLocale locale in
  match table_for locale with
  | None => Ok key
  | Some table =>
      if negb (truthy table) then Ok key
      else
        match navigate (split_dots key) table with
        | Err e => Err e
        | Ok None => Ok key
        | Ok (Some value) =>
            match value with
            | JStr template =>
                match params with
                | Some p => Ok (interpolate template p)
                | None => Ok template
                end
            | _ => Ok key
            end
        end
  end.

(** [t(key, locale, params)] *)
Definition t := translate.

(** *** The service on any parameter map

    The same three functions with the values of [Param] in the map:
    [String(params[key])] may then throw, and the exception leaves
    [replace], [interpolate] and [translate], none of which catches it. *)

(** [params[key] !== undefined ? String(params[key]) : match]; a key the
    map does not have is looked up on the prototype chain. *)
Definition replacement_any (params : list (string * Param)) (key : string)
    : result string :=
  match List.find (λ kv, bool_decide (kv.1 = key)) params with
  | Some (_, ParamUndefined) => Ok ("{" +:+ key +:+ "}")
  | Some (_, v) => js_String_any v
  | None =>
      match inherited_from_object B key with
      | JUndefined => Ok ("{" +:+ key +:+ "}")
      | v => Ok (js_String B v)
      end
  end.

(** The pass of [replace] over the template; the callback runs match by
    match, from left to right, and the first exception ends the pass. *)
Fixpoint replace_placeholders_any (params : list (string * Param))
    (pending : option string) (template : string) : result string :=
  match template with
  | EmptyString =>
      match pending with
      | Some name => Ok ("{" +:+ name)
      | None => Ok ""
      end
  | String c rest =>
      match pending with
      | None =>
          if bool_decide (c = "{"%char)
          then replace_placeholders_any params (Some "") rest
          else match replace_placeholders_any params None rest with
               | Err e => Err e
               | Ok text => Ok (String c text)
               end
      | Some name =>
          if is_word_char c
          then replace_placeholders_any params (Some (name +:+ String c ""))
                 rest
          else if bool_decide (c = "}"%char) && negb (bool_decide (name = ""))
          then match replacement_any params name with
               | Err e => Err e
               | Ok value =>
                   match replace_placeholders_any params None rest with
                   | Err e => Err e
                   | Ok text => Ok (value +:+ text)
                   end
               end
          else match (if bool_decide (c = "{"%char)
                      then replace_placeholders_any params (Some "") rest
                      else match replace_placeholders_any params None rest with
                           | Err e => Err e
                           | Ok text => Ok (String c text)
                           end) with
               | Err e => Err e
               | Ok text => Ok ("{" +:+ name +:+ text)
               end
      end
  end.

Definition interpolate_any (template : string)
    (params : list (string * Param)) : result string :=
  replace_placeholders_any params None template.

(** [translate(key, locale = defaultLocale, params?)] *)
Definition translate_any (key : string) (locale : option string)
    (params : option (list (string * Param))) : result string :=
  let locale := default defaultLocale locale in
  match table_for locale with
  | None => Ok key
  | Some table =>
      if negb (truthy table) then Ok key
      else
        match navigate (split_dots key) table with
        | Err e => Err e
        | Ok None => Ok key
        | Ok (Some value) =>
            match value with
            | JStr template =>
                match params with
                | Some p => interpolate_any template p
                | None => Ok template
                end
            | _ => Ok key
            end
        end
  end.

End Service.

(** [isLocaleSupported] and [getValidLocale]. *)
Definition isLocaleSupported (locale : string) : bool :=
  bool_decide (locale ∈ supportedLocales).

Definition getValidLocale (locale : option string) : string :=
  match locale with
  | Some l =>
      if negb (bool_decide (l = "")) && isLocaleSupported l then l
      else defaultLocale
  | None => defaultLocale
  end.

(** [loadTranslations]: for each supported locale whose file exists and
    parses, the parsed table is stored. [read_file locale] is the file's
    content, if the file exists; [parse] is [JSON.parse]. *)
Definition loadTranslations (read_file : string → option string)
    (parse : string → result JsVal) : gmap string JsVal :=
  foldl (λ m locale,
           match read_file locale with
           | Some content =>
               match parse content with
               | Ok table => <[locale := table]> m
               | Err _ => m
               end
           | None => m
           end)
        ∅ supportedLocales.

(** The path that the segments of a key describe through a table, read
    off the words "the dot-separated key path resolves to a value": each
    segment names a property of the object reached so far. *)
Inductive resolves (B : Builtins) : list string → JsVal → JsVal → Prop :=
| resolves_here v : resolves B [] v v
| resolves_step k rest v v' r :
    truthy v = true → js_typeof v = "object" →
    has_property B k v = Ok true → get_property B v k = Ok v' →
    resolves B rest v' r →
    resolves B (k :: rest) v r.

End I18n.

(** ** The locale of the wrapped page (frontend [lib/locale]) *)

Module Locale.

(** What the browser offers; [window] is absent on the server. *)
Record Window : Type := mkWindow {
  preferredLanguage : option string;   (* localStorage.getItem('preferredLanguage') *)
  navigator_language : string
}.

(** [URLSearchParams.get]: the first value of the name, if any. *)
Definition searchParams_get (searchParams : list (string * string))
    (name : string) : option string :=
  snd <$> List.find (λ kv, bool_decide (kv.1 = name)) searchParams.

(** [s.split('-')[0]] *)
Fixpoint before_dash (s : string) : string :=
  match s with
  | EmptyString => ""
  | String c rest =>
      if bool_decide (c = "-"%char) then "" else String c (before_dash rest)
  end.

(** [a || b] on values that are a string or [null]. *)
Definition or_else (a : option string) (b : option string) : option string :=
  match a with
  | Some s => if bool_decide (s = "") then b else a
  | None => b
  end.

Section Determine.

(** [locales] and [defaultLocale] are imported from [lib/i18n], which is
    not among the sources: they are taken as given. *)
Variable locales : list string.
Variable defaultLocale : string.

(** [locales.includes(l)] *)
Definition includes (l : string) : bool := bool_decide (l ∈ locales).

Definition getLocaleFromURL (searchParams : list (string * string))
    : option string :=
  match searchParams_get searchParams "lang" with
  | Some langParam =>
      if negb (bool_decide (langParam = "")) && includes langParam
      then Some langParam else None
  | None => None
  end.

Definition getLocaleFromStorage (window : option Window) : option string :=
  match window with
  | None => None
  | Some win =>
      match preferredLanguage win with
      | Some stored =>
          if negb (bool_decide (stored = "")) && includes stored
          then Some stored else None
      | None => None
      end
  end.

Definition getLocaleFromBrowser (window : option Window) : string :=
  match window with
  | None => defaultLocale
  | Some win =>
      let browserLang := before_dash (navigator_language win) in
      if includes browserLang then browserLang else defaultLocale
  end.

Definition determineLocale (window : option Window)
    (searchParams : list (string * string)) : string :=
  default defaultLocale
    (or_else (getLocaleFromURL searchParams)
       (or_else (getLocaleFromStorage window)
          (or_else (Some (getLocaleFromBrowser window))
             (Some defaultLocale)))).

(** A value a source offers counts when it is a non-empty member of the
    supported list. *)
Definition supported (l : option string) : Prop :=
  ∃ s, l = Some s ∧ s ≠ "" ∧ s ∈ locales.

(** The three sources, in the order of the comment "URL > localStorage >
    Browser > Default". *)
Definition from_url (searchParams : list (string * string)) : option string :=
  searchParams_get searchParams "lang".

Definition from_storage (window : option Window) : option string :=
  win ← window; preferredLanguage win.

Definition from_browser (window : option Window) : option string :=
  win ← window; Some (before_dash (navigator_language win)).

End Determine.

End Locale.

(** ** Sending the emails ([POST /api/admin/emails/send]) *)

Module Emails.

Import Js.

(** The columns of [users] the endpoint reads. *)
Record User : Type := mkUser {
  user_id : Z;
  username : string;
  friendly_name : option string;
  email : option string;
  preferred_language : option string
}.

(** The columns of [user_wrapped_stats] the endpoint and the templates
    read. *)
Record StatsRow : Type := mkStatsRow {
  stats_id : Z;
  stats_user_id : Z;
  stats_generation_id : option Z;
  stats_year : Z;
  total_watch_time_minutes : Z;
  total_plays : Z;
  days_active : Z
}.

Record TokenRow : Type := mkTokenRow {
  tk_token : string;
  tk_stats_id : Z
}.

(** The [status] column of [email_logs], by the schema's CHECK. *)
Inductive EmailStatus : Type :=
| email_pending | email_sent | email_failed | email_bounced
| email_opened | email_clicked.

Record EmailLog : Type := mkEmailLog {
  el_id : Z;
  el_user_id : Z;
  el_generation_id : Z;
  el_email_to : string;
  el_email_subject : string;
  el_status : EmailStatus;
  el_message_id : option string;
  el_smtp_response : option string
}.

(** A message handed to the SMTP transporter. *)
Record Mail : Type := mkMail {
  mail_to : string;
  mail_subject : string;
  mail_html : string;
  mail_text : string
}.

Inductive LogLine : Type :=
| LogTestMode
| LogStarting (generationId : Z)
| LogNoEmail (uid : Z)
| LogNoToken (statsId : Z)
| LogEmailSent (to : string)
| LogSendFailed (message : string)
| LogSendingFailed (message : string)
| LogSendingCompleted.

(** The tables, the messages accepted by the SMTP server, and the
    application log. *)
Record World : Type := mkWorld {
  w_users : list User;
  w_generations : list Z;
  w_stats : list StatsRow;
  w_tokens : list TokenRow;
  w_email_logs : list EmailLog;
  w_next_email_log_id : Z;
  w_outbox : list Mail;
  w_log : list LogLine
}.

Definition set_email_logs (l : list EmailLog) (next : Z) (w : World) : World :=
  mkWorld (w_users w) (w_generations w) (w_stats w) (w_tokens w) l next
    (w_outbox w) (w_log w).

Definition set_outbox (o : list Mail) (w : World) : World :=
  mkWorld (w_users w) (w_generations w) (w_stats w) (w_tokens w)
    (w_email_logs w) (w_next_email_log_id w) o (w_log w).

Definition set_log (l : list LogLine) (w : World) : World :=
  mkWorld (w_users w) (w_generations w) (w_stats w) (w_tokens w)
    (w_email_logs w) (w_next_email_log_id w) (w_outbox w) l.

Local Abbreviation M := (StExc World).

Definition logger (l : LogLine) : M unit :=
  modify (λ w, set_log (w_log w ++ [l]) w).

(** The JSON the endpoint answers with. *)
Record Response : Type := mkResponse {
  resp_success : bool;
  resp_message : string;
  resp_testMode : option bool;
  resp_count : option Z
}.

(** The environment variables, the answers of the SMTP server, the calls
    that are rejected (by position in the list of recipients), and the two
    templates [generateEmailHTML] and [generateEmailText], whose long
    string literals are not spelled out. *)
Record Env : Type := mkEnv {
  TEST_MODE : option string;
  APP_URL : string;
  builtins : Builtins;
  translations : gmap string JsVal;
  find_generation_fault : option string;
  find_stats_fault : option string;
  find_user_fault : nat → option string;
  find_token_fault : nat → option string;
  create_log_fault : nat → option string;
  sendMail : nat → Mail → result (string * string);
  mark_sent_fault : nat → option string;
  generateEmailHTML : User → StatsRow → string → string → string;
  generateEmailText : User → StatsRow → string → string → string
}.

Section Endpoint.

Variable env : Env.

(** [a || 'en'] on a nullable string. *)
Definition or_en (a : option string) : string :=
  match a with
  | Some s => if bool_decide (s = "") then "en" else s
  | None => "en"
  end.

(** Modelled from the spec: [EmailLogModel.create] and
    [EmailLogModel.markSent] are not in the sources; a new row takes the
    next SERIAL id and the DEFAULT status 'pending', and [markSent] notes
    the answer of the server on it. *)
Definition EmailLogModel_create (fault : option string)
    (user generation : Z) (to subject : string) : M EmailLog :=
  may_fail fault ;;
  id ← gets w_next_email_log_id;
  let row := mkEmailLog id user generation to subject email_pending None None in
  modify (λ w, set_email_logs (w_email_logs w ++ [row]) (id + 1) w) ;;
  ret row.

Definition mark_sent (id : Z) (message_id response : string) (l : EmailLog)
    : EmailLog :=
  if bool_decide (el_id l = id)
  then mkEmailLog (el_id l) (el_user_id l) (el_generation_id l)
         (el_email_to l) (el_email_subject l) email_sent
         (Some message_id) (Some response)
  else l.

Definition EmailLogModel_markSent (fault : option string)
    (id : Z) (message_id response : string) : M unit :=
  may_fail fault ;;
  modify (λ w, set_email_logs (mark_sent id message_id response <$> w_email_logs w)
                 (w_next_email_log_id w) w).

(** [transporter.sendMail]: the server accepts the message or the call
    throws. *)
Definition transporter_sendMail (i : nat) (mail : Mail) : M (string * string) :=
  match sendMail env i mail with
  | Ok info => modify (λ w, set_outbox (w_outbox w ++ [mail]) w) ;; ret info
  | Err e => throw e
  end.

(** The body of the loop of [sendEmails] for the recipient at position
    [i]; the two [continue]s are the early [ret tt]. *)
Definition send_one (generationId : Z) (i : nat) (stats : StatsRow) : M unit :=
  try_catch
    (may_fail (find_user_fault env i) ;;
     users ← gets w_users;
     match List.find (λ u, bool_decide (user_id u = stats_user_id stats)) users with
     | None => logger (LogNoEmail (stats_user_id stats))
     | Some user =>
         match email user with
         | None => logger (LogNoEmail (stats_user_id stats))
         | Some to =>
             if bool_decide (to = "")
             then logger (LogNoEmail (stats_user_id stats))
             else
               may_fail (find_token_fault env i) ;;
               tokens ← gets w_tokens;
               match List.find (λ t, bool_decide (tk_stats_id t = stats_id stats))
                       tokens with
               | None => logger (LogNoToken (stats_id stats))
               | Some tokenRecord =>
                   let locale := or_en (preferred_language user) in
                   let wrappedUrl :=
                     APP_URL env +:+ "/wrapped/" +:+ tk_token tokenRecord
                     +:+ "?lang=" +:+ locale in
                   emailSubject ← lift
                     (I18n.t (builtins env) (translations env) "email.subject"
                        (Some locale) (Some [("year", PNum (stats_year stats))]));
                   emailLog ← EmailLogModel_create (create_log_fault env i)
                                (user_id user) generationId to emailSubject;
                   info ← transporter_sendMail i
                            (mkMail to emailSubject
                               (generateEmailHTML env user stats wrappedUrl locale)
                               (generateEmailText env user stats wrappedUrl locale));
                   EmailLogModel_markSent (mark_sent_fault env i)
                     (el_id emailLog) info.1 info.2 ;;
                   logger (LogEmailSent to)
               end
         end
     end)
    (λ error, logger (LogSendFailed error)).

Fixpoint send_all (generationId : Z) (i : nat) (statsList : list StatsRow)
    : M unit :=
  match statsList with
  | [] => ret tt
  | stats :: rest =>
      send_one generationId i stats ;; send_all generationId (S i) rest
  end.

(** [sendEmails(statsList, generationId)] *)
Definition sendEmails (statsList : list StatsRow) (generationId : Z) : M unit :=
  send_all generationId 0 statsList ;;
  logger LogSendingCompleted.

(** [testMode !== undefined ? testMode : process.env.TEST_MODE === 'true'],
    as the [if] sees it. *)
Definition isTestMode (testMode : option JsVal) : bool :=
  match testMode with
  | Some v => truthy v
  | None => bool_decide (TEST_MODE env = Some "true")
  end.

(** The handler; [testMode] and [userIds] are [None] when the body leaves
    them out. The job [sendEmails] is started without being awaited; the
    state returned is the one it leaves behind. *)
Definition post_emails_send (generationId : Z) (userIds : option (list Z))
    (testMode : option JsVal) : M Response :=
  if isTestMode testMode
  then
    logger LogTestMode ;;
    ret (mkResponse true "TEST_MODE enabled - no emails sent" (Some true) None)
  else
    logger (LogStarting generationId) ;;
    may_fail (find_generation_fault env) ;;
    generations ← gets w_generations;
    if negb (bool_decide (generationId ∈ generations))
    then throw "Generation not found"
    else
      may_fail (find_stats_fault env) ;;
      all ← gets w_stats;
      let ofGeneration :=
        filter (λ s, stats_generation_id s = Some generationId) all in
      let stats :=
        match userIds with
        | Some (_ :: _ as ids) =>
            filter (λ s, stats_user_id s ∈ ids) ofGeneration
        | _ => ofGeneration
        end in
      try_catch (sendEmails stats generationId)
        (λ error, logger (LogSendingFailed error)) ;;
      ret (mkResponse true
             ("Started sending emails to " +:+ pretty (length stats) +:+ " users")
             None (Some (Z.of_nat (length stats)))).

End Endpoint.

End Emails.

(** ** The fun facts of the wrapped page ([app/wrapped/[token]/page.tsx]) *)

Module FunFacts.

Import Js.

Record Show : Type := mkShow {
  show_title : string;
  show_plays : Z;
  show_episodes : Z
}.

Record Device : Type := mkDevice {
  device : string;
  device_platform : string;
  device_plays : Z;
  device_minutes : Z
}.

Record QualityStats : Type := mkQualityStats {
  transcode : Z;
  directPlay : Z;
  directStream : Z
}.

(** The fields of [WrappedData.stats] that the fun-fact slide reads; an
    absent or [null] field is [None]. *)
Record Stats : Type := mkStats {
  funFacts : option (list string);
  mostActiveDayOfWeek : option string;
  topShows : list Show;
  qualityStats : option QualityStats;
  totalPlays : Z;
  totalMovies : Z;
  totalTvEpisodes : Z;
  daysActive : Z;
  topDevices : list Device
}.

Section Page.

(** [t] is the translator of next-intl for the namespace 'wrapped';
    [percent a b] is [Math.round((a / b) * 100)], a floating-point
    computation that is not spelled out. *)
Variable t : string → list (string * Prim) → string.
Variable percent : Z → Z → Prim.

(** [if (c) generatedFacts.push(x)] *)
Definition push_if (c : bool) (x : string) (facts : list string) : list string :=
  if c then facts ++ [x] else facts.

(** The statements of the slide, in the order of the source. *)
Definition generatedFacts (stats : Stats) : list string :=
  let facts := [] in
  let facts :=
    match funFacts stats with
    | Some original => facts ++ original
    | None => facts
    end in
  let facts :=
    match mostActiveDayOfWeek stats with
    | Some day =>
        push_if (negb (bool_decide (day = "")))
          (t "funFacts.dayOfWeek" [("day", PStr day)]) facts
    | None => facts
    end in
  let facts :=
    match topShows stats with
    | show :: _ =>
        push_if (bool_decide (show_episodes show > 20))
          (t "funFacts.crushedEpisodes"
             [("count", PNum (show_episodes show));
              ("title", PStr (show_title show))]) facts
    | [] => facts
    end in
  let facts :=
    match qualityStats stats with
    | Some q =>
        push_if (bool_decide (directPlay q > transcode q))
          (t "funFacts.originalQuality"
             [("percentage", percent (directPlay q) (totalPlays stats))]) facts
    | None => facts
    end in
  let moviesVsShows :=
    if bool_decide (totalMovies stats > totalTvEpisodes stats)
    then t "contentTypes.movies" [] else t "contentTypes.tvShows" [] in
  let facts := facts ++ [t "funFacts.preference" [("type", PStr moviesVsShows)]] in
  let facts :=
    push_if (bool_decide (daysActive stats < 200))
      (t "funFacts.watchedPercentage"
         [("percentage", percent (daysActive stats) 365)]) facts in
  let facts :=
    match topDevices stats with
    | d :: _ =>
        facts ++ [t "funFacts.favoriteDevice" [("device", PStr (device d))]]
    | [] => facts
    end in
  facts.

(** [generatedFacts.slice(0, 6)]: the facts the slide shows. *)
Definition shownFacts (stats : Stats) : list string :=
  take 6 (generatedFacts stats).

(** The same statements read as a table of rules: each rule looks at the
    stats and either gives its fact or does not fire. *)
Definition rule_dayOfWeek (stats : Stats) : option string :=
  day ← mostActiveDayOfWeek stats;
  if bool_decide (day = "") then None
  else Some (t "funFacts.dayOfWeek" [("day", PStr day)]).

Definition rule_crushedEpisodes (stats : Stats) : option string :=
  show ← head (topShows stats);
  if bool_decide (show_episodes show > 20)
  then Some (t "funFacts.crushedEpisodes"
               [("count", PNum (show_episodes show));
                ("title", PStr (show_title show))])
  else None.

Definition rule_originalQuality (stats : Stats) : option string :=
  q ← qualityStats stats;
  if bool_decide (directPlay q > transcode q)
  then Some (t "funFacts.originalQuality"
               [("percentage", percent (directPlay q) (totalPlays stats))])
  else None.

Definition rule_preference (stats : Stats) : option string :=
  Some (t "funFacts.preference"
          [("type", PStr (if bool_decide (totalMovies stats > totalTvEpisodes stats)
                          then t "contentTypes.movies" []
                          else t "contentTypes.tvShows" []))]).

Definition rule_watchedPercentage (stats : Stats) : option string :=
  if bool_decide (daysActive stats < 200)
  then Some (t "funFacts.watchedPercentage"
               [("percentage", percent (daysActive stats) 365)])
  else None.

Definition rule_favoriteDevice (stats : Stats) : option string :=
  d ← head (topDevices stats);
  Some (t "funFacts.favoriteDevice" [("device", PStr (device d))]).

Definition rule_table : list (Stats → option string) :=
  [rule_dayOfWeek; rule_crushedEpisodes; rule_originalQuality;
   rule_preference; rule_watchedPercentage; rule_favoriteDevice].

(** The facts of the rules that fire, in the order of the table. *)
Definition fired (stats : Stats) : list string :=
  omap (λ rule, rule stats) rule_table.

End Page.

End FunFacts.

(** ** The aggregation engine

    The engine ([StatsCalculator], imported by [admin.routes.ts] from
    [../processors/stats-calculator]) is not among the sources. This module
    models it from sections 3, 4, 6 and 7 of the specification. *)

Module Engine.

Inductive MediaKind : Type := Movie | Episode.

Inductive PlayDecision : Type := DirectPlay | DirectStream | Transcode.

(** Modelled from the spec: the [WatchEvent] of section 3. [startedAt] is
    in seconds since 1970-01-01 00:00:00 UTC, [durationWatchedMinutes] in
    minutes; the three sets of tags are lists in which repetitions do not
    count. *)
Record WatchEvent : Type := mkWatchEvent {
  mediaKind : MediaKind;
  ratingKey : Z;
  title : string;
  showTitle : option string;
  seasonNumber : option Z;
  episodeNumber : option Z;
  releaseYear : option Z;
  startedAt : Z;
  durationWatchedMinutes : Z;
  device : string;
  platform : string;
  playDecision : PlayDecision;
  resolution : string;
  genres : list string;
  actors : list string;
  directors : list string
}.

Global Instance MediaKind_eq_dec : EqDecision MediaKind.
Proof. solve_decision. Defined.

Global Instance PlayDecision_eq_dec : EqDecision PlayDecision.
Proof. solve_decision. Defined.

Global Instance WatchEvent_eq_dec : EqDecision WatchEvent.
Proof. solve_decision. Defined.

Global Instance MediaKind_countable : Countable MediaKind.
Proof.
  refine (inj_countable'
            (λ k, match k with Movie => false | Episode => true end)
            (λ b : bool, if b then Episode else Movie) _).
  by intros [].
Defined.

Global Instance PlayDecision_countable : Countable PlayDecision.
Proof.
  refine (inj_countable'
            (λ d, match d with
                  | DirectPlay => 0%nat | DirectStream => 1%nat
                  | Transcode => 2%nat
                  end)
            (λ n : nat, match n with
                        | O => DirectPlay | S O => DirectStream
                        | _ => Transcode
                        end) _).
  by intros [].
Defined.

(** Events are coded by numbers, through a balanced nesting of pairs of
    their fields. *)
Global Instance WatchEvent_countable : Countable WatchEvent.
Proof.
  refine (inj_countable'
            (λ e, ((((mediaKind e, ratingKey e), (title e, showTitle e)),
                    ((seasonNumber e, episodeNumber e),
                     (releaseYear e, startedAt e))),
                   (((durationWatchedMinutes e, device e),
                     (platform e, playDecision e)),
                    ((resolution e, genres e), (actors e, directors e)))))
            (λ t, let '((((a, b), (c, d)), ((e, f), (g, h))),
                        (((i, j), (k, l)), ((m, n), (o, q)))) := t in
                  mkWatchEvent a b c d e f g h i j k l m n o q) _).
  by intros [].
Defined.

(** Modelled from the spec: the configuration value of section 9 (the gap
    of a binge, the caps of the ranked lists and of the fun facts, the
    number of episodes the episode fact asks for). *)
Record Config : Type := mkConfig {
  bingeGapSeconds : Z;
  capTitles : nat;
  capTags : nat;
  capFunFacts : nat;
  episodesForFact : Z
}.

Definition defaultConfig : Config := mkConfig (4 * 3600) 10 5 6 20.

(** Modelled from the spec: the supplementary input of section 6; the
    source as a whole, and each count in it, may be absent. *)
Record Metadata : Type := mkMetadata {
  libraryMovieCount : option Z;
  libraryShowCount : option Z;
  requestCountsByTitle : list (string * Z)
}.

(** *** Calendar arithmetic (proleptic Gregorian calendar, UTC) *)

(** The number of days from 1970-01-01 to the given date. *)
Definition days_from_civil (y m d : Z) : Z :=
  let y' := if m <=? 2 then y - 1 else y in
  let era := y' / 400 in
  let yoe := y' - era * 400 in
  let doy := (153 * (if m >? 2 then m - 3 else m + 9) + 2) / 5 + d - 1 in
  let doe := yoe * 365 + yoe / 4 - yoe / 100 + doy in
  era * 146097 + doe - 719468.

(** The month (1 to 12) of the day with the given number. *)
Definition month_of_day (day : Z) : Z :=
  let z := day + 719468 in
  let era := z / 146097 in
  let doe := z - era * 146097 in
  let yoe := (doe - doe / 1460 + doe / 36524 - doe / 146096) / 365 in
  let doy := doe - (365 * yoe + yoe / 4 - yoe / 100) in
  let mp := (5 * doy + 2) / 153 in
  if mp <? 10 then mp + 3 else mp - 9.

(** The day of the week of a day number, 0 for Sunday. *)
Definition weekday_of_day (day : Z) : Z := (day + 4) `mod` 7.

Definition day_of (e : WatchEvent) : Z := startedAt e / 86400.

Definition hour_of (e : WatchEvent) : Z := (startedAt e `mod` 86400) / 3600.

Definition year_start (year : Z) : Z := days_from_civil year 1 1 * 86400.

Definition days_in_year (year : Z) : Z :=
  days_from_civil (year + 1) 1 1 - days_from_civil year 1 1.

(** *** 4.1 Normalization and bucketing *)

(** An event qualifies when it was watched for more than zero minutes and
    started within the target year. *)
Definition qualifies (year : Z) (e : WatchEvent) : Prop :=
  0 < durationWatchedMinutes e
  ∧ year_start year ≤ startedAt e ∧ startedAt e < year_start (year + 1).

Global Instance qualifies_dec year e : Decision (qualifies year e).
Proof. unfold qualifies. apply _. Defined.

(** The key of de-duplication (section 6). *)
Definition event_key (e : WatchEvent) : Z * Z := (ratingKey e, startedAt e).

(** The internal order of the engine: by start time, then by rating key.
    Records that agree on both are residual duplicates; where such records
    still differ elsewhere the specification does not say which one
    survives, and the order is completed by the code of the record, so
    that the survivor does not depend on the order of the input. *)
Definition chronological (a b : WatchEvent) : Prop :=
  startedAt a < startedAt b
  ∨ (startedAt a = startedAt b
     ∧ (ratingKey a < ratingKey b
        ∨ (ratingKey a = ratingKey b ∧ (encode a ≤ encode b)%positive))).

(** The test of the order; the codes are compared only when the keys
    agree. *)
Definition chronological_b (a b : WatchEvent) : bool :=
  if startedAt a <? startedAt b then true
  else if startedAt a =? startedAt b then
    if ratingKey a <? ratingKey b then true
    else if ratingKey a =? ratingKey b then (encode a <=? encode b)%positive
    else false
  else false.

Global Instance chronological_dec a b : Decision (chronological a b).
Proof.
  refine (cast_if (decide (chronological_b a b = true)));
    unfold chronological_b, chronological in *;
    destruct (Z.ltb_spec (startedAt a) (startedAt b));
    destruct (Z.eqb_spec (startedAt a) (startedAt b));
    destruct (Z.ltb_spec (ratingKey a) (ratingKey b));
    destruct (Z.eqb_spec (ratingKey a) (ratingKey b));
    rewrite ?Pos.leb_le in *; try lia; try done; intuition lia.
Defined.

(** Of a run of records with one key, the first is kept. *)
Fixpoint dedupe_from (previous : option (Z * Z)) (events : list WatchEvent)
    : list WatchEvent :=
  match events with
  | [] => []
  | e :: rest =>
      if decide (previous = Some (event_key e))
      then dedupe_from previous rest
      else e :: dedupe_from (Some (event_key e)) rest
  end.

(** Modelled from the spec: the input of the engine (not in the sources)
    is a list of records of the history source, each of which either reads
    as an event or is malformed ([None], section 7); the malformed ones are
    skipped and counted. *)
Definition skipped_malformed (input : list (option WatchEvent)) : Z :=
  Z.of_nat (length (filter (λ r, r = None) input)).

(** Modelled from the spec: the normalization of sections 4.1 and 6 of
    the engine (not in the sources): the events that qualify, in the
    internal order, one per key. *)
Definition normalize (year : Z) (input : list (option WatchEvent))
    : list WatchEvent :=
  dedupe_from None
    (merge_sort chronological (filter (qualifies year) (omap id input))).

(** A bucket: a play count and a sum of minutes per key, in the order in
    which the keys were first met. *)
Fixpoint bump {K} `{EqDecision K} (k : K) (minutes : Z)
    (buckets : list (K * (Z * Z))) : list (K * (Z * Z)) :=
  match buckets with
  | [] => [(k, (1, minutes))]
  | (k', (plays, total)) :: rest =>
      if decide (k = k') then (k', (plays + 1, total + minutes)) :: rest
      else (k', (plays, total)) :: bump k minutes rest
  end.

Definition bucket_by {K} `{EqDecision K} (f : WatchEvent → K)
    (events : list WatchEvent) : list (K * (Z * Z)) :=
  foldl (λ b e, bump (f e) (durationWatchedMinutes e) b) [] events.

Record Buckets : Type := mkBuckets {
  byDay : list (Z * (Z * Z));
  byMonth : list (Z * (Z * Z));
  byWeekday : list (Z * (Z * Z));
  byHour : list (Z * (Z * Z));
  byDevice : list (string * (Z * Z));
  byPlatform : list (string * (Z * Z));
  byDecision : list (PlayDecision * (Z * Z));
  byResolution : list (string * (Z * Z))
}.

Definition build_buckets (events : list WatchEvent) : Buckets :=
  mkBuckets
    (bucket_by day_of events)
    (bucket_by (λ e, month_of_day (day_of e)) events)
    (bucket_by (λ e, weekday_of_day (day_of e)) events)
    (bucket_by hour_of events)
    (bucket_by device events)
    (bucket_by platform events)
    (bucket_by playDecision events)
    (bucket_by resolution events).

Definition minutes_of {K} `{EqDecision K} (buckets : list (K * (Z * Z)))
    (k : K) : Z :=
  match List.find (λ b, bool_decide (b.1 = k)) buckets with
  | Some (_, (_, minutes)) => minutes
  | None => 0
  end.

(** *** 4.2 Top-N ranking *)

(** What is known of one group of a dimension: its key, the title shown
    for it, its plays, its minutes and the start of its earliest event. *)
Record Group (K : Type) : Type := mkGroup {
  group_key : K;
  group_label : string;
  group_plays : Z;
  group_minutes : Z;
  group_first : Z
}.
Arguments mkGroup {K} _ _ _ _ _.
Arguments group_key {K} _.
Arguments group_label {K} _.
Arguments group_plays {K} _.
Arguments group_minutes {K} _.
Arguments group_first {K} _.

Fixpoint add_to_group {K} `{EqDecision K} (k : K) (label : string)
    (minutes start : Z) (groups : list (Group K)) : list (Group K) :=
  match groups with
  | [] => [mkGroup k label 1 minutes start]
  | g :: rest =>
      if decide (group_key g = k)
      then mkGroup k (group_label g) (group_plays g + 1)
             (group_minutes g + minutes) (Z.min (group_first g) start) :: rest
      else g :: add_to_group k label minutes start rest
  end.

Definition group_events {K} `{EqDecision K} (key : WatchEvent → K)
    (label : WatchEvent → string) (events : list WatchEvent)
    : list (Group K) :=
  foldl (λ groups e,
           add_to_group (key e) (label e) (durationWatchedMinutes e)
             (startedAt e) groups)
        [] events.

(** A multi-valued tag fans one event out into one contribution per tag. *)
Definition group_tags (tags : WatchEvent → list string)
    (events : list WatchEvent) : list (Group string) :=
  foldl (λ groups e,
           foldl (λ groups tag,
                    add_to_group tag tag (durationWatchedMinutes e)
                      (startedAt e) groups)
                 groups (remove_dups (tags e)))
        [] events.

(** More plays first; then more minutes; then the earlier first event. *)
Definition ranks_before {K} (a b : Group K) : Prop :=
  group_plays b < group_plays a
  ∨ (group_plays a = group_plays b
     ∧ (group_minutes b < group_minutes a
        ∨ (group_minutes a = group_minutes b
           ∧ group_first a ≤ group_first b))).

Global Instance ranks_before_dec {K} (a b : Group K) : Decision (ranks_before a b).
Proof. unfold ranks_before. apply _. Defined.

Definition rank {K} (cap : nat) (groups : list (Group K)) : list (Group K) :=
  take cap (merge_sort ranks_before groups).

Definition is_movie (e : WatchEvent) : Prop := mediaKind e = Movie.
Definition is_episode (e : WatchEvent) : Prop := mediaKind e = Episode.

(** The identity of the show of an episode. *)
Definition show_of (e : WatchEvent) : string := default "" (showTitle e).

(** The episode numbers seen of a season of a show, and the seasons that
    count as completed: by the words of section 4.2, those of which every
    episode number seen appears at least once. *)
Definition seen_episode_numbers (season : Z) (events : list WatchEvent)
    : list Z :=
  omap episodeNumber (filter (λ e, seasonNumber e = Some season) events).

Definition season_completed (season : Z) (events : list WatchEvent) : bool :=
  forallb (λ n, bool_decide (n ∈ seen_episode_numbers season events))
    (seen_episode_numbers season events).

Definition seasons_completed (events : list WatchEvent) : Z :=
  Z.of_nat (length (filter (λ season, season_completed season events = true)
                      (remove_dups (omap seasonNumber events)))).

Record ShowEntry : Type := mkShowEntry {
  show_group : Group string;
  distinctEpisodes : Z;
  seasonsCompleted : Z
}.

Definition show_entry (events : list WatchEvent) (g : Group string)
    : ShowEntry :=
  let own := filter (λ e, is_episode e ∧ show_of e = group_key g) events in
  mkShowEntry g
    (Z.of_nat (length (remove_dups (ratingKey <$> own))))
    (seasons_completed own).

(** *** 4.3 Temporal patterns *)

(** The longest run of consecutive days in an ascending list of days. *)
Fixpoint longest_run (previous run best : Z) (days : list Z) : Z :=
  match days with
  | [] => Z.max run best
  | d :: rest =>
      if decide (d = previous + 1)
      then longest_run d (run + 1) best rest
      else longest_run d 1 (Z.max run best) rest
  end.

Definition longest_streak (days : list Z) : Z :=
  match merge_sort Z.le days with
  | [] => 0
  | d :: rest => longest_run d 1 0 rest
  end.

(** The key with the most minutes; of several, the one met first. *)
Definition best_bucket {K} (buckets : list (K * (Z * Z))) : option (K * Z) :=
  foldl (λ best b,
           match best with
           | Some (_, most) => if most <? b.2.2 then Some (b.1, b.2.2) else best
           | None => Some (b.1, b.2.2)
           end)
        None buckets.

(** The key with the most minutes among [keys], taken in calendar order,
    so that the earliest key wins a tie; none when nothing was watched. *)
Definition most_active (keys : list Z) (buckets : list (Z * (Z * Z)))
    : option Z :=
  foldl (λ best k,
           let m := minutes_of buckets k in
           match best with
           | Some b => if minutes_of buckets b <? m then Some k else best
           | None => if 0 <? m then Some k else None
           end)
        None keys.

(** A viewing session under construction: the start of its last event,
    its minutes, and the minutes of each show in it. *)
Record Session : Type := mkSession {
  session_last_start : Z;
  session_minutes : Z;
  session_shows : list (string * (Z * Z))
}.

Record Binge : Type := mkBinge {
  binge_minutes : Z;
  binge_show : option string
}.

Definition show_minutes (e : WatchEvent) (shows : list (string * (Z * Z)))
    : list (string * (Z * Z)) :=
  match mediaKind e, showTitle e with
  | Episode, Some s => bump s (durationWatchedMinutes e) shows
  | _, _ => shows
  end.

Definition close_session (s : Session) (best : option Binge) : option Binge :=
  let candidate := mkBinge (session_minutes s) (fst <$> best_bucket (session_shows s)) in
  match best with
  | Some b => if binge_minutes b <? session_minutes s then Some candidate else best
  | None => Some candidate
  end.

Fixpoint binge_scan (gap : Z) (current : option Session) (best : option Binge)
    (events : list WatchEvent) : option Binge :=
  match events with
  | [] =>
      match current with
      | Some s => close_session s best
      | None => best
      end
  | e :: rest =>
      match current with
      | Some s =>
          if startedAt e - session_last_start s <=? gap
          then binge_scan gap
                 (Some (mkSession (startedAt e)
                          (session_minutes s + durationWatchedMinutes e)
                          (show_minutes e (session_shows s))))
                 best rest
          else binge_scan gap
                 (Some (mkSession (startedAt e) (durationWatchedMinutes e)
                          (show_minutes e [])))
                 (close_session s best) rest
      | None =>
          binge_scan gap
            (Some (mkSession (startedAt e) (durationWatchedMinutes e)
                     (show_minutes e [])))
            best rest
      end
  end.

Definition longest_binge (gap : Z) (events : list WatchEvent) : option Binge :=
  binge_scan gap None None events.

(** First and last watch; on equal start times the larger rating key is
    preferred. *)
Definition prefer_as_first (a b : WatchEvent) : bool :=
  bool_decide (startedAt a < startedAt b
               ∨ (startedAt a = startedAt b ∧ ratingKey b < ratingKey a)).

Definition prefer_as_last (a b : WatchEvent) : bool :=
  bool_decide (startedAt b < startedAt a
               ∨ (startedAt a = startedAt b ∧ ratingKey b < ratingKey a)).

Definition pick (prefer : WatchEvent → WatchEvent → bool)
    (events : list WatchEvent) : option WatchEvent :=
  foldl (λ best e,
           match best with
           | Some b => if prefer e b then Some e else best
           | None => Some e
           end)
        None events.

Definition boundary (e : WatchEvent) : string * Z := (title e, startedAt e).

(** *** 4.4 Derived facts *)

(** [part] in percent of [whole], rounded to the nearest integer. *)
Definition round_percent (part whole : Z) : Z :=
  if whole <=? 0 then 0 else (200 * part + whole) / (2 * whole).

Definition clamp_percent (p : Z) : Z := Z.max 0 (Z.min 100 p).

Record QualityMix : Type := mkQualityMix {
  directPlayPercent : Z;
  directStreamPercent : Z;
  transcodePercent : Z
}.

Definition quality_mix (byDecision : list (PlayDecision * (Z * Z)))
    (totalMinutes : Z) : QualityMix :=
  mkQualityMix
    (clamp_percent (round_percent (minutes_of byDecision DirectPlay) totalMinutes))
    (clamp_percent (round_percent (minutes_of byDecision DirectStream) totalMinutes))
    (clamp_percent (round_percent (minutes_of byDecision Transcode) totalMinutes)).

(** Modelled from the spec: the library percentage of section 4.4 of the
    engine (not in the sources): the share of the library watched, in
    hundredths of a percent, or the marker that it cannot be known. *)
Inductive LibraryPercentage : Type :=
| Unavailable
| Percent (hundredths : Z).

Definition library_size (meta : option Metadata) : option Z :=
  m ← meta; movies ← libraryMovieCount m; shows ← libraryShowCount m;
  Some (movies + shows).

Definition library_percentage (uniqueTitles : Z) (meta : option Metadata)
    : LibraryPercentage :=
  match library_size meta with
  | Some size =>
      if 0 <? size
      then Percent (Z.max 0 (Z.min 10000 (10000 * uniqueTitles / size)))
      else Unavailable
  | None => Unavailable
  end.

(** *** 4.5 Output assembly *)

(** The fun facts of the rule table of section 4.4 and their badges. *)
Inductive Fact : Type :=
| FactWeekday (weekday : Z)
| FactEpisodes (show : string) (episodes : Z)
| FactDirectPlay (percent : Z).

Inductive Badge : Type := BadgeWeekday | BadgeEpisodes | BadgeDirectPlay.

Definition badge_of (f : Fact) : Badge :=
  match f with
  | FactWeekday _ => BadgeWeekday
  | FactEpisodes _ _ => BadgeEpisodes
  | FactDirectPlay _ => BadgeDirectPlay
  end.

(** Modelled from the spec: the [UserYearStats] of section 3, with the
    count of skipped malformed records of section 7. *)
Record UserYearStats : Type := mkUserYearStats {
  totalMinutes : Z;
  totalPlays : Z;
  movieCount : Z;
  episodeCount : Z;
  uniqueMovies : Z;
  uniqueShows : Z;
  daysActive : Z;
  topMovies : list (Group Z);
  topShows : list ShowEntry;
  topEpisodes : list (Group Z);
  topGenres : list (Group string);
  topActors : list (Group string);
  topDirectors : list (Group string);
  topDevices : list (Group string);
  topPlatforms : list (Group string);
  mostActiveMonth : option Z;
  mostActiveWeekday : option Z;
  mostActiveHour : option Z;
  longestStreakDays : Z;
  longestBinge : option Binge;
  mostMemorableDay : option (Z * Z);
  firstWatch : option (string * Z);
  lastWatch : option (string * Z);
  percentageDaysActive : Z;
  rewatchCount : Z;
  qualityMix : QualityMix;
  libraryPercentage : LibraryPercentage;
  funFacts : list Fact;
  badges : list Badge;
  skippedMalformed : Z
}.

(** The rule table: each rule looks at the computed stats and fires or
    does not. The three rules are the three of section 4.4: a weekday
    watched on more than the others, [episodesForFact] or more episodes of
    a single show, and the share of plays that were direct play. *)
Definition rule_weekday (cfg : Config) (s : UserYearStats) : option Fact :=
  FactWeekday <$> mostActiveWeekday s.

Definition rule_episodes (cfg : Config) (s : UserYearStats) : option Fact :=
  top ← head (topShows s);
  if episodesForFact cfg <=? distinctEpisodes top
  then Some (FactEpisodes (group_key (show_group top)) (distinctEpisodes top))
  else None.

Definition rule_direct_play (directPlays : Z) (cfg : Config)
    (s : UserYearStats) : option Fact :=
  if 0 <? totalPlays s
  then Some (FactDirectPlay (clamp_percent (round_percent directPlays (totalPlays s))))
  else None.

Definition plays_of {K} `{EqDecision K} (buckets : list (K * (Z * Z)))
    (k : K) : Z :=
  match List.find (λ b, bool_decide (b.1 = k)) buckets with
  | Some (_, (plays, _)) => plays
  | None => 0
  end.

Definition sum_minutes (events : list WatchEvent) : Z :=
  foldr (λ e acc, durationWatchedMinutes e + acc) 0 events.

(** Modelled from the spec: the assembly of section 4.5 of the engine (not
    in the sources), from a list of events that is already normalized. *)
Definition assemble (cfg : Config) (year : Z) (meta : option Metadata)
    (skipped : Z) (events : list WatchEvent) : UserYearStats :=
  let buckets := build_buckets events in
  let movies := group_events ratingKey title (filter is_movie events) in
  let episodes := group_events ratingKey title (filter is_episode events) in
  let shows := group_events show_of show_of (filter is_episode events) in
  let total := sum_minutes events in
  let active := Z.of_nat (length (byDay buckets)) in
  let core :=
    mkUserYearStats
      total
      (Z.of_nat (length events))
      (Z.of_nat (length (filter is_movie events)))
      (Z.of_nat (length (filter is_episode events)))
      (Z.of_nat (length movies))
      (Z.of_nat (length shows))
      active
      (rank (capTitles cfg) movies)
      (show_entry events <$> rank (capTitles cfg) shows)
      (rank (capTitles cfg) episodes)
      (rank (capTags cfg) (group_tags genres events))
      (rank (capTags cfg) (group_tags actors events))
      (rank (capTags cfg) (group_tags directors events))
      (rank (capTitles cfg) (group_events device device events))
      (rank (capTitles cfg) (group_events platform platform events))
      (most_active (seqZ 1 12) (byMonth buckets))
      (most_active (seqZ 0 7) (byWeekday buckets))
      (most_active (seqZ 0 24) (byHour buckets))
      (longest_streak (fst <$> byDay buckets))
      (longest_binge (bingeGapSeconds cfg) events)
      (best_bucket (byDay buckets))
      (boundary <$> pick prefer_as_first events)
      (boundary <$> pick prefer_as_last events)
      (clamp_percent (round_percent active (days_in_year year)))
      (Z.of_nat (length (filter (λ g, 2 ≤ group_plays g) movies)))
      (quality_mix (byDecision buckets) total)
      (library_percentage
         (Z.of_nat (length movies) + Z.of_nat (length shows)) meta)
      [] [] skipped in
  let facts :=
    take (capFunFacts cfg)
      (omap (λ rule, rule cfg core)
         [rule_weekday; rule_episodes;
          rule_direct_play (plays_of (byDecision buckets) DirectPlay)]) in
  mkUserYearStats
    (totalMinutes core) (totalPlays core) (movieCount core)
    (episodeCount core) (uniqueMovies core) (uniqueShows core)
    (daysActive core) (topMovies core) (topShows core) (topEpisodes core)
    (topGenres core) (topActors core) (topDirectors core) (topDevices core)
    (topPlatforms core) (mostActiveMonth core) (mostActiveWeekday core)
    (mostActiveHour core) (longestStreakDays core) (longestBinge core)
    (mostMemorableDay core) (firstWatch core) (lastWatch core)
    (percentageDaysActive core) (rewatchCount core) (qualityMix core)
    (libraryPercentage core) facts (badge_of <$> facts) skipped.

(** Modelled from the spec: the engine ([calculateUserStats] of
    [StatsCalculator], not in the sources), a function of the records of
    one user and one year; by section 7 it has no error of its own. *)
Definition aggregate (cfg : Config) (year : Z) (meta : option Metadata)
    (input : list (option WatchEvent)) : UserYearStats :=
  assemble cfg year meta (skipped_malformed input) (normalize year input).

(** The column [percentage_of_library_watched DECIMAL(5,2) DEFAULT 0] of
    the schema holds NULL ([None]) or a number of hundredths. An INSERT
    either leaves the column out, and the row takes the DEFAULT 0, or
    supplies a value, which may be NULL. [column_check] is the CHECK of the
    schema on the column, which a NULL passes. *)
Definition inserted (supplied : option (option Z)) : option Z :=
  match supplied with
  | None => Some 0
  | Some value => value
  end.

Definition column_check (column : option Z) : bool :=
  match column with
  | None => true
  | Some hundredths => (0 <=? hundredths) && (hundredths <=? 10000)
  end.

(** Modelled from the spec: how the library percentage is persisted
    ([UserWrappedStatsModel.create] is not in the sources): the value is
    always supplied, the marker as NULL and a share as its number of
    hundredths. *)
Definition library_column (p : LibraryPercentage) : option Z :=
  match p with
  | Unavailable => None
  | Percent hundredths => Some hundredths
  end.

Definition persisted_library_percentage (p : LibraryPercentage) : option Z :=
  inserted (Some (library_column p)).

(** What is reported for a stored column. *)
Definition reported_library_percentage (column : option Z) : LibraryPercentage :=
  match column with
  | None => Unavailable
  | Some hundredths => Percent hundredths
  end.

(** The invariants of section 3 on a result. *)
Definition percent_ok (p : Z) : Prop := 0 ≤ p ≤ 100.

Definition valid (cfg : Config) (s : UserYearStats) : Prop :=
  0 ≤ totalMinutes s ∧ 0 ≤ totalPlays s ∧ 0 ≤ movieCount s
  ∧ 0 ≤ episodeCount s ∧ 0 ≤ uniqueMovies s ∧ 0 ≤ uniqueShows s
  ∧ 0 ≤ daysActive s ∧ 0 ≤ longestStreakDays s ∧ 0 ≤ rewatchCount s
  ∧ 0 ≤ skippedMalformed s
  ∧ (length (topMovies s) ≤ capTitles cfg)%nat
  ∧ (length (topShows s) ≤ capTitles cfg)%nat
  ∧ (length (topEpisodes s) ≤ capTitles cfg)%nat
  ∧ (length (topGenres s) ≤ capTags cfg)%nat
  ∧ (length (topActors s) ≤ capTags cfg)%nat
  ∧ (length (topDirectors s) ≤ capTags cfg)%nat
  ∧ (length (topDevices s) ≤ capTitles cfg)%nat
  ∧ (length (topPlatforms s) ≤ capTitles cfg)%nat
  ∧ (length (funFacts s) ≤ capFunFacts cfg)%nat
  ∧ percent_ok (percentageDaysActive s)
  ∧ percent_ok (directPlayPercent (qualityMix s))
  ∧ percent_ok (directStreamPercent (qualityMix s))
  ∧ percent_ok (transcodePercent (qualityMix s))
  ∧ column_check (library_column (libraryPercentage s)) = true.

(** The result that section 4.5 describes for an input without events:
    every counter zero, every ranked list empty, the temporal fields
    absent, no fun fact and no badge. *)
Definition empty_stats (library : LibraryPercentage) (skipped : Z)
    : UserYearStats :=
  mkUserYearStats 0 0 0 0 0 0 0 [] [] [] [] [] [] [] [] None None None 0
    None None None None 0 0 (mkQualityMix 0 0 0) library [] [] skipped.

End Engine.

(** ** Concrete data, for the examples *)

Module Demo.

Import Js.

(** Three users; the history source fails for the second one. *)
Definition users : list Orchestrator.User :=
  [Orchestrator.mkUser 1 101 "ann"; Orchestrator.mkUser 2 102 "bob";
   Orchestrator.mkUser 3 103 "cy"].

Definition world : @Orchestrator.World Z :=
  Orchestrator.mkWorld users ∅ 1 [] 1 [] [] [] 0 0.

Definition env : @Orchestrator.Env Z :=
  Orchestrator.mkEnv None 2025 (λ _, None) None
    (λ i plex year,
       if bool_decide (i = 1%nat) then Err "history source timed out"
       else Ok (plex + year))
    (λ _, None) (λ _, None) (λ _ _, None) (λ _, 1)
    (λ i, "token-" +:+ pretty i) 100 200.

(** The same surroundings with a history source that always answers. *)
Definition calm_env : @Orchestrator.Env Z :=
  Orchestrator.mkEnv None 2025 (λ _, None) None
    (λ i plex year, Ok (plex + year))
    (λ _, None) (λ _, None) (λ _ _, None) (λ _, 1)
    (λ i, "token-" +:+ pretty i) 100 200.

(** The same surroundings with a store that rejects the write of
    'processing'. *)
Definition stuck_env : @Orchestrator.Env Z :=
  Orchestrator.mkEnv None 2025
    (λ p, match p with
          | Orchestrator.MarkProcessing => Some "connection lost"
          | _ => None
          end)
    None (λ i plex year, Ok (plex + year))
    (λ _, None) (λ _, None) (λ _ _, None) (λ _, 1)
    (λ i, "token-" +:+ pretty i) 100 200.

(** A plain INSERT. *)
Definition plain_insert (t : list (@Orchestrator.StatsRow Z))
    (row : @Orchestrator.StatsRow Z) : list (@Orchestrator.StatsRow Z) :=
  t ++ [row].

(** The built-in members of a typical engine, abridged; the function a
    plain object inherits as [constructor] is [Object]. *)
Definition builtins : Builtins :=
  mkBuiltins
    ["constructor"; "toString"; "valueOf"; "hasOwnProperty"; "__proto__"]
    ["push"; "map"; "join"]
    (λ name,
       "function "
       +:+ (if bool_decide (name = "constructor") then "Object" else name)
       +:+ "() { [native code] }").

(** One loaded table, for the default locale. *)
Definition translations : gmap string JsVal :=
  {[ "en" :=
       JObj [("email",
              JObj [("subject", JStr "Your {year} Unwrapped is here, {name}!");
                    ("tags", JArr [JStr "a"; JStr "b"])])] ]}.

Definition locales : list string := ["en"; "es"; "fr"; "de"; "sl"].

Definition email_env : Emails.Env :=
  Emails.mkEnv (Some "true") "https://unwrapped.example" builtins translations
    None None (λ _, None) (λ _, None) (λ _, None)
    (λ i _, Ok ("message-" +:+ pretty i, "250 OK")) (λ _, None)
    (λ _ _ url _, "<a href=" +:+ url +:+ ">") (λ _ _ url _, url).

(** The environment of a deployment that sends for real. *)
Definition live_email_env : Emails.Env :=
  Emails.mkEnv None "https://unwrapped.example" builtins translations
    None None (λ _, None) (λ _, None) (λ _, None)
    (λ i _, Ok ("message-" +:+ pretty i, "250 OK")) (λ _, None)
    (λ _ _ url _, "<a href=" +:+ url +:+ ">") (λ _ _ url _, url).

Definition email_world : Emails.World :=
  Emails.mkWorld
    [Emails.mkUser 1 "ann" None (Some "ann@example.org") (Some "fr");
     Emails.mkUser 2 "bob" None None None]
    [7]
    [Emails.mkStatsRow 11 1 (Some 7) 2025 600 12 9;
     Emails.mkStatsRow 12 2 (Some 7) 2025 60 1 1]
    [Emails.mkTokenRow "tok-ann" 11; Emails.mkTokenRow "tok-bob" 12]
    [] 1 [] [].

(** Seconds since the epoch of a date and time of day. *)
Definition at_time (y m d hh mm : Z) : Z :=
  Engine.days_from_civil y m d * 86400 + hh * 3600 + mm * 60.

Definition movie (key : Z) (title : string) (start minutes : Z)
    (decision : Engine.PlayDecision) : Engine.WatchEvent :=
  Engine.mkWatchEvent Engine.Movie key title None None None None start
    minutes "Living room" "Roku" decision "1080" ["Drama"] ["A. Actor"]
    ["D. Director"].

Definition episode (key : Z) (show : string) (season number : Z)
    (start minutes : Z) : Engine.WatchEvent :=
  Engine.mkWatchEvent Engine.Episode key "Pilot" (Some show) (Some season)
    (Some number) None start minutes "Phone" "iOS" Engine.DirectPlay "720"
    ["Comedy"] [] [].

End Demo.

(** ** What a route handler answers

    The JSON body, or the error the handler makes with
    [createError(message, status)] and throws; any other exception is an
    [Err] of the computation. *)
Inductive Answer (A : Type) : Type :=
| Json (body : A)
| HttpError (status : Z) (message : string).
Arguments Json {A} body.
Arguments HttpError {A} status message.

(** ** Strings as JavaScript reads them

    Texts are taken to be ASCII: a character is one code unit. *)

Module Text.

(** The white space [trim] and [parseInt] strip: tab, line feed, vertical
    tab, form feed, carriage return, space. *)
Definition is_space (c : ascii) : bool :=
  let n := Ascii.nat_of_ascii c in
  ((9 <=? n) && (n <=? 13) || (n =? 32))%nat.

Definition is_digit (c : ascii) : bool :=
  let n := Ascii.nat_of_ascii c in ((48 <=? n) && (n <=? 57))%nat.

Definition digit_value (c : ascii) : Z := Z.of_nat (Ascii.nat_of_ascii c) - 48.

Fixpoint skip_space (s : string) : string :=
  match s with
  | String c rest => if is_space c then skip_space rest else s
  | EmptyString => ""
  end.

(** The value of the longest prefix of decimal digits, after [acc]. *)
Fixpoint digits_value (acc : Z) (s : string) : Z :=
  match s with
  | String c rest =>
      if is_digit c then digits_value (10 * acc + digit_value c) rest else acc
  | EmptyString => acc
  end.

Definition starts_with_digit (s : string) : bool :=
  match s with
  | String c _ => is_digit c
  | EmptyString => false
  end.

(** [parseInt(s, 10)]: leading white space, an optional sign, then the
    longest run of digits; [None] is NaN. Numbers are the integers, which
    JavaScript represents exactly up to 2^53. *)
Definition parseInt (s : string) : option Z :=
  let s := skip_space s in
  let '(negative, body) :=
    match s with
    | String "-" rest => (true, rest)
    | String "+" rest => (false, rest)
    | _ => (false, s)
    end in
  if starts_with_digit body
  then Some (if negative then - digits_value 0 body else digits_value 0 body)
  else None.

(** [n || d] for a number that may be NaN. *)
Definition number_or (n : option Z) (d : Z) : Z :=
  match n with
  | Some v => if bool_decide (v = 0) then d else v
  | None => d
  end.

(** [s.split(sep)] for a separator of one character: never empty. *)
Fixpoint split_at (sep : ascii) (s : string) : list string :=
  match s with
  | EmptyString => [""]
  | String c rest =>
      if bool_decide (c = sep) then "" :: split_at sep rest
      else match split_at sep rest with
           | h :: t => String c h :: t
           | [] => [String c ""]
           end
  end.

(** [parts.join(sep)] *)
Fixpoint join_with (sep : ascii) (parts : list string) : string :=
  match parts with
  | [] => ""
  | [p] => p
  | p :: rest => p +:+ String sep (join_with sep rest)
  end.

(** [s.trimEnd()], [s.trim()] *)
Fixpoint trim_end (s : string) : string :=
  match s with
  | EmptyString => ""
  | String c rest =>
      match trim_end rest with
      | EmptyString => if is_space c then "" else String c ""
      | rest' => String c rest'
      end
  end.

Definition trim (s : string) : string := trim_end (skip_space s).

(** [l.slice(0, end)] *)
Definition slice_to {A} (end_ : Z) (l : list A) : list A :=
  let len := Z.of_nat (length l) in
  let k := if end_ <? 0 then Z.max (len + end_) 0 else Z.min end_ len in
  take (Z.to_nat k) l.

End Text.

(** ** The users table ([backend/src/models/User.ts]) and the routes that
    write it ([POST /api/admin/users/sync],
    [PATCH /api/admin/users/:id/language]) *)

Module Users.

Import Js.

(** A row of [users]: the columns of the schema and [preferred_language],
    which the migration adds. *)
Record User : Type := mkUser {
  u_id : Z;
  u_plex_user_id : Z;
  u_username : string;
  u_email : option string;
  u_friendly_name : option string;
  u_thumb : option string;
  u_is_admin : bool;
  u_is_home_user : bool;
  u_is_allow_sync : bool;
  u_is_restricted : bool;
  u_preferred_language : option string;
  u_created_at : Z;
  u_updated_at : Z;
  u_last_seen : option Z
}.

(** The interface [UserCreate]; an optional field that is left out or
    [null] is [None]. *)
Record UserCreate : Type := mkUserCreate {
  c_plex_user_id : Z;
  c_username : string;
  c_email : option string;
  c_friendly_name : option string;
  c_thumb : option string;
  c_is_admin : option bool;
  c_is_home_user : option bool;
  c_is_allow_sync : option bool;
  c_is_restricted : option bool;
  c_preferred_language : option string
}.

(** [s || null] *)
Definition or_null (s : option string) : option string :=
  match s with
  | Some s => if bool_decide (s = "") then None else Some s
  | None => None
  end.

(** [b || d] for a boolean [b] that may be left out. *)
Definition or_bool (b : option bool) (d : bool) : bool :=
  match b with
  | Some true => true
  | _ => d
  end.

(** The nine parameters [$1] to [$9] of the INSERT of [create] and of
    [upsert]. *)
Record Columns : Type := mkColumns {
  p_plex_user_id : Z;
  p_username : string;
  p_email : option string;
  p_friendly_name : option string;
  p_thumb : option string;
  p_is_admin : bool;
  p_is_home_user : bool;
  p_is_allow_sync : bool;
  p_is_restricted : bool
}.

Definition parameters (data : UserCreate) : Columns :=
  mkColumns (c_plex_user_id data) (c_username data)
    (or_null (c_email data)) (or_null (c_friendly_name data))
    (or_null (c_thumb data))
    (or_bool (c_is_admin data) false)
    (or_bool (c_is_home_user data) true)
    (or_bool (c_is_allow_sync data) false)
    (or_bool (c_is_restricted data) false).

(** The row an INSERT of the nine columns makes: the other columns take
    their DEFAULTs ([preferred_language] 'en', both timestamps
    CURRENT_TIMESTAMP, [last_seen] NULL). *)
Definition inserted (id now : Z) (p : Columns) : User :=
  mkUser id (p_plex_user_id p) (p_username p) (p_email p) (p_friendly_name p)
    (p_thumb p) (p_is_admin p) (p_is_home_user p) (p_is_allow_sync p)
    (p_is_restricted p) (Some "en") now now None.

(** [ON CONFLICT (plex_user_id) DO UPDATE SET ... = EXCLUDED. ...]: the
    eight listed columns and [updated_at] are overwritten. *)
Definition excluded (now : Z) (p : Columns) (u : User) : User :=
  mkUser (u_id u) (u_plex_user_id u) (p_username p) (p_email p)
    (p_friendly_name p) (p_thumb p) (p_is_admin p) (p_is_home_user p)
    (p_is_allow_sync p) (p_is_restricted p) (u_preferred_language u)
    (u_created_at u) now (u_last_seen u).

Inductive LogLine : Type :=
| LogSyncStarting
| LogSynced (count : nat)
| LogLanguageUpdated (userId : Z) (language : string).

(** The table, the sequence behind the SERIAL [id], and the application
    log. *)
Record World : Type := mkWorld {
  w_users : list User;
  w_next_user_id : Z;
  w_log : list LogLine
}.

Definition set_users (t : list User) (w : World) : World :=
  mkWorld t (w_next_user_id w) (w_log w).

Definition set_next_user_id (n : Z) (w : World) : World :=
  mkWorld (w_users w) n (w_log w).

Definition set_log (l : list LogLine) (w : World) : World :=
  mkWorld (w_users w) (w_next_user_id w) l.

Local Abbreviation M := (StExc World).

Definition logger (l : LogLine) : M unit :=
  modify (λ w, set_log (w_log w ++ [l]) w).

Definition has_plex_id (plex : Z) (u : User) : bool :=
  bool_decide (u_plex_user_id u = plex).

Definition has_id (id : Z) (u : User) : bool := bool_decide (u_id u = id).

(** *** The model

    Every call takes the rejection the surroundings decide for it
    ([fault]) and, where it writes a timestamp, the CURRENT_TIMESTAMP of
    its statement ([now]). An INSERT draws the next value of the sequence
    before the UNIQUE constraint is looked at, also when it then updates
    or fails. *)

(** [UserModel.create] *)
Definition UserModel_create (fault : option string) (now : Z)
    (data : UserCreate) : M User :=
  may_fail fault ;;
  id ← gets w_next_user_id;
  modify (set_next_user_id (id + 1)) ;;
  users ← gets w_users;
  let p := parameters data in
  if bool_decide (p_plex_user_id p ∈ u_plex_user_id <$> users)
  then throw "duplicate key value violates unique constraint"
  else
    let row := inserted id now p in
    modify (set_users (users ++ [row])) ;;
    ret row.

(** [UserModel.upsert] *)
Definition UserModel_upsert (fault : option string) (now : Z)
    (data : UserCreate) : M User :=
  may_fail fault ;;
  id ← gets w_next_user_id;
  modify (set_next_user_id (id + 1)) ;;
  users ← gets w_users;
  let p := parameters data in
  match List.find (has_plex_id (p_plex_user_id p)) users with
  | Some old =>
      modify (set_users
                ((λ u, if has_plex_id (p_plex_user_id p) u
                       then excluded now p u else u) <$> users)) ;;
      ret (excluded now p old)
  | None =>
      let row := inserted id now p in
      modify (set_users (users ++ [row])) ;;
      ret row
  end.

(** [UserModel.findById], [UserModel.findByPlexUserId] *)
Definition UserModel_findById (fault : option string) (id : Z)
    : M (option User) :=
  may_fail fault ;;
  users ← gets w_users;
  ret (List.find (has_id id) users).

Definition UserModel_findByPlexUserId (fault : option string) (plex : Z)
    : M (option User) :=
  may_fail fault ;;
  users ← gets w_users;
  ret (List.find (has_plex_id plex) users).

(** [UserModel.delete]: [result.rowCount > 0]. *)
Definition UserModel_delete (fault : option string) (id : Z) : M bool :=
  may_fail fault ;;
  users ← gets w_users;
  modify (set_users (filter (λ u, u_id u ≠ id) users)) ;;
  ret (bool_decide (0 < length (filter (λ u, u_id u = id) users))%nat).

(** *** [UserModel.update]: a statement put together from the keys *)

(** A value handed to the database driver. *)
Inductive SqlValue : Type :=
| VNull
| VBool (b : bool)
| VInt (n : Z)
| VStr (s : string)
| VTime (t : Z).

(** The three variables of [update]: an element [(key, i)] of [updates]
    is the text [key = $i]. *)
Record Builder : Type := mkBuilder {
  updates : list (string * nat);
  values : list SqlValue;
  paramIndex : nat
}.

(** The body of [Object.entries(data).forEach(...)]. *)
Definition push_entry (b : Builder) (entry : string * SqlValue) : Builder :=
  mkBuilder (updates b ++ [(entry.1, paramIndex b)])
    (values b ++ [entry.2])
    (S (paramIndex b)).

Definition build (data : list (string * SqlValue)) : Builder :=
  foldl push_entry (mkBuilder [] [] 1) data.

(** What [$i] stands for, given the array of values. *)
Definition parameter (values : list SqlValue) (i : nat) : option SqlValue :=
  match i with
  | O => None
  | S j => values !! j
  end.

(** One assignment of the SET list, for the columns and the types of the
    interface [UserUpdate]; the store is taken to reject any other. *)
Definition assign (column : string) (v : SqlValue) (u : User) : option User :=
  let 'mkUser id plex name mail friendly thumb admin home sync restricted
         language created updated seen := u in
  if bool_decide (column = "username") then
    match v with
    | VStr s => Some (mkUser id plex s mail friendly thumb admin home sync
                        restricted language created updated seen)
    | _ => None
    end
  else if bool_decide (column = "email") then
    match v with
    | VStr s => Some (mkUser id plex name (Some s) friendly thumb admin home
                        sync restricted language created updated seen)
    | VNull => Some (mkUser id plex name None friendly thumb admin home sync
                       restricted language created updated seen)
    | _ => None
    end
  else if bool_decide (column = "friendly_name") then
    match v with
    | VStr s => Some (mkUser id plex name mail (Some s) thumb admin home sync
                        restricted language created updated seen)
    | VNull => Some (mkUser id plex name mail None thumb admin home sync
                       restricted language created updated seen)
    | _ => None
    end
  else if bool_decide (column = "thumb") then
    match v with
    | VStr s => Some (mkUser id plex name mail friendly (Some s) admin home
                        sync restricted language created updated seen)
    | VNull => Some (mkUser id plex name mail friendly None admin home sync
                       restricted language created updated seen)
    | _ => None
    end
  else if bool_decide (column = "is_admin") then
    match v with
    | VBool b => Some (mkUser id plex name mail friendly thumb b home sync
                         restricted language created updated seen)
    | _ => None
    end
  else if bool_decide (column = "is_home_user") then
    match v with
    | VBool b => Some (mkUser id plex name mail friendly thumb admin b sync
                         restricted language created updated seen)
    | _ => None
    end
  else if bool_decide (column = "is_allow_sync") then
    match v with
    | VBool b => Some (mkUser id plex name mail friendly thumb admin home b
                         restricted language created updated seen)
    | _ => None
    end
  else if bool_decide (column = "is_restricted") then
    match v with
    | VBool b => Some (mkUser id plex name mail friendly thumb admin home
                         sync b language created updated seen)
    | _ => None
    end
  else if bool_decide (column = "preferred_language") then
    match v with
    | VStr s => Some (mkUser id plex name mail friendly thumb admin home sync
                        restricted (Some s) created updated seen)
    | _ => None
    end
  else if bool_decide (column = "last_seen") then
    match v with
    | VTime t => Some (mkUser id plex name mail friendly thumb admin home
                         sync restricted language created updated (Some t))
    | _ => None
    end
  else None.

(** The SET list, each right-hand side looked up among the values. *)
Fixpoint apply_sets (sets : list (string * nat)) (values : list SqlValue)
    (u : User) : option User :=
  match sets with
  | [] => Some u
  | (column, i) :: rest =>
      v ← parameter values i;
      u' ← assign column v u;
      apply_sets rest values u'
  end.

(** [, updated_at = CURRENT_TIMESTAMP] *)
Definition touch (now : Z) (u : User) : User :=
  mkUser (u_id u) (u_plex_user_id u) (u_username u) (u_email u)
    (u_friendly_name u) (u_thumb u) (u_is_admin u) (u_is_home_user u)
    (u_is_allow_sync u) (u_is_restricted u) (u_preferred_language u)
    (u_created_at u) now (u_last_seen u).

(** The store runs [UPDATE users SET sets, updated_at = CURRENT_TIMESTAMP
    WHERE id = $where RETURNING *] over the values: the row whose id is
    the value of [$where] is rewritten and returned; no row, and [null] is
    returned. A column named twice is an error of the statement. *)
Definition run_update (sets : list (string * nat)) (where_ : nat)
    (values : list SqlValue) (now : Z) : M (option User) :=
  users ← gets w_users;
  if negb (bool_decide (NoDup sets.*1))
  then throw "multiple assignments to same column"
  else
    match parameter values where_ with
    | Some (VInt id) =>
        match List.find (has_id id) users with
        | None => ret None
        | Some old =>
            match apply_sets sets values old with
            | Some new =>
                modify (set_users
                          ((λ u, if has_id id u then touch now new else u)
                             <$> users)) ;;
                ret (Some (touch now new))
            | None => throw "the statement is rejected"
            end
        end
    | _ => throw "the statement is rejected"
    end.

(** [UserModel.update(id, data)]; [data] lists the entries of the object
    in the order of [Object.entries]. *)
Definition UserModel_update (find_fault fault : option string) (now : Z)
    (id : Z) (data : list (string * SqlValue)) : M (option User) :=
  let b := build data in
  if bool_decide (length (updates b) = 0%nat)
  then UserModel_findById find_fault id
  else
    let values := values b ++ [VInt id] in
    may_fail fault ;;
    run_update (updates b) (paramIndex b) values now.

(** [UserModel.updateLastSeen]; [updated_at] is set by the trigger of the
    schema, as on every UPDATE of the table. *)
Definition UserModel_updateLastSeen (fault : option string) (now : Z) (id : Z)
    : M unit :=
  may_fail fault ;;
  modify (λ w, set_users
    ((λ u, if has_id id u
           then mkUser (u_id u) (u_plex_user_id u) (u_username u) (u_email u)
                  (u_friendly_name u) (u_thumb u) (u_is_admin u)
                  (u_is_home_user u) (u_is_allow_sync u) (u_is_restricted u)
                  (u_preferred_language u) (u_created_at u) now (Some now)
           else u) <$> w_users w) w).

(** *** The routes *)

(** A user as Tautulli reports it; the four flags are numbers. *)
Record TautulliUser : Type := mkTautulliUser {
  t_user_id : Z;
  t_username : string;
  t_email : option string;
  t_friendly_name : option string;
  t_thumb : option string;
  t_is_admin : Z;
  t_is_home_user : Z;
  t_is_allow_sync : Z;
  t_is_restricted : Z
}.

(** The object the sync route hands to [UserModel.upsert]. *)
Definition from_tautulli (tUser : TautulliUser) : UserCreate :=
  mkUserCreate (t_user_id tUser) (t_username tUser) (t_email tUser)
    (t_friendly_name tUser) (t_thumb tUser)
    (Some (bool_decide (t_is_admin tUser = 1)))
    (Some (bool_decide (t_is_home_user tUser = 1)))
    (Some (bool_decide (t_is_allow_sync tUser = 1)))
    (Some (bool_decide (t_is_restricted tUser = 1)))
    None.

(** The answer of Tautulli, the calls the surroundings reject (for the
    loop of the sync route, by position) and the clock of the store. *)
Record Env : Type := mkEnv {
  getUsers : result (list TautulliUser);
  upsert_fault : nat → option string;
  upsert_now : nat → Z;
  find_fault : option string;
  update_fault : option string;
  update_now : Z
}.

Section Routes.

Variable env : Env.

(** The loop [for (const tUser of tautulliUsers)] of the sync route. *)
Fixpoint upsert_all (i : nat) (tautulliUsers : list TautulliUser)
    : M (list User) :=
  match tautulliUsers with
  | [] => ret []
  | tUser :: rest =>
      user ← UserModel_upsert (upsert_fault env i) (upsert_now env i)
                (from_tautulli tUser);
      synced ← upsert_all (S i) rest;
      ret (user :: synced)
  end.

Record SyncResponse : Type := mkSyncResponse {
  sync_success : bool;
  sync_message : string;
  sync_users : list User
}.

(** [POST /api/admin/users/sync] *)
Definition post_users_sync : M SyncResponse :=
  logger LogSyncStarting ;;
  tautulliUsers ← lift (getUsers env);
  synced ← upsert_all 0 tautulliUsers;
  logger (LogSynced (length synced)) ;;
  ret (mkSyncResponse true
         ("Synced " +:+ pretty (length synced) +:+ " users") synced).

Definition validLanguages : list string := ["en"; "es"; "fr"; "de"; "sl"].

(** [!preferred_language || !validLanguages.includes(preferred_language)],
    negated: the value of the body passes when it is a non-empty string of
    the list; no other value is the same as a string. *)
Definition valid_language (preferred_language : JsVal) : option string :=
  match preferred_language with
  | JStr language =>
      if negb (bool_decide (language = ""))
         && bool_decide (language ∈ validLanguages)
      then Some language else None
  | _ => None
  end.

Record LanguageResponse : Type := mkLanguageResponse {
  lang_success : bool;
  lang_user : option User
}.

(** [PATCH /api/admin/users/:id/language], for a numeric id in the path;
    [preferred_language] is the field of the body, [JUndefined] when the
    body has none. *)
Definition patch_user_language (userId : Z) (preferred_language : JsVal)
    : M (Answer LanguageResponse) :=
  match valid_language preferred_language with
  | None =>
      ret (HttpError 400
             "Invalid language code. Must be one of: en, es, fr, de, sl")
  | Some language =>
      user ← UserModel_findById (find_fault env) userId;
      match user with
      | None => ret (HttpError 404 "User not found")
      | Some _ =>
          updatedUser ← UserModel_update (find_fault env) (update_fault env)
                          (update_now env) userId
                          [("preferred_language", VStr language)];
          logger (LogLanguageUpdated userId language) ;;
          ret (Json (mkLanguageResponse true updatedUser))
      end
  end.

End Routes.

(** The requests that write the table, and a run of several of them, each
    in its own surroundings; a request that throws leaves the state it
    reached. *)
Inductive Request : Type :=
| Sync (env : Env)
| PatchLanguage (env : Env) (userId : Z) (preferred_language : JsVal).

Definition serve (r : Request) (w : World) : World :=
  match r with
  | Sync env => (post_users_sync env w).2
  | PatchLanguage env userId language =>
      (patch_user_language env userId language w).2
  end.

Definition serve_all (requests : list Request) (w : World) : World :=
  foldl (λ w r, serve r w) w requests.

(** The constraints of the schema on the table: [id] is the primary key,
    drawn from the sequence, and [plex_user_id] is UNIQUE. *)
Definition table_ok (w : World) : Prop :=
  NoDup (u_id <$> w_users w)
  ∧ NoDup (u_plex_user_id <$> w_users w)
  ∧ Forall (λ u, u_id u < w_next_user_id w) (w_users w).

(** The columns an upsert leaves alone. *)
Definition identity_of (u : User)
    : Z * Z * option string * Z * option Z :=
  (u_id u, u_plex_user_id u, u_preferred_language u, u_created_at u,
   u_last_seen u).

(** The columns an upsert writes, [updated_at] apart. *)
Definition profile_of (u : User) : Columns :=
  mkColumns (u_plex_user_id u) (u_username u) (u_email u) (u_friendly_name u)
    (u_thumb u) (u_is_admin u) (u_is_home_user u) (u_is_allow_sync u)
    (u_is_restricted u).

(** A row without its [updated_at]. *)
Definition settled (u : User) : User := touch 0 u.

End Users.

(** ** The login of the administrator ([POST /api/admin/login]) *)

Module Login.

Import Js.

(** The two variables of the environment, and [generateToken] of the
    authentication middleware, which is not among the sources: the token
    it makes for an id and a name, or the exception it throws. *)
Record Env : Type := mkEnv {
  ADMIN_USERNAME : option string;
  ADMIN_PASSWORD : option string;
  generateToken : Z → string → result string
}.

Record LoginResponse : Type := mkLoginResponse {
  login_success : bool;
  login_token : string;
  login_user_id : Z;
  login_username : string
}.

Inductive LogLine : Type :=
| LogLoginSuccessful (username : JsVal).

(** [process.env.NAME || fallback] *)
Definition env_or (value : option string) (fallback : string) : string :=
  match value with
  | Some s => if bool_decide (s = "") then fallback else s
  | None => fallback
  end.

(** [v === s] for a string [s] *)
Definition same_string (v : JsVal) (s : string) : bool :=
  match v with
  | JStr x => bool_decide (x = s)
  | _ => false
  end.

(** The handler, behind the rate limiter of the route, which is not among
    the sources; [username] and [password] are the fields of the body,
    [JUndefined] when the body has none. The state is the application
    log. *)
Definition post_login (env : Env) (username password : JsVal)
    : StExc (list LogLine) (Answer LoginResponse) :=
  if negb (truthy username) || negb (truthy password)
  then ret (HttpError 400 "Username and password are required")
  else
    let adminUsername := env_or (ADMIN_USERNAME env) "admin" in
    let adminPassword := ADMIN_PASSWORD env in
    match adminPassword with
    | None => ret (HttpError 500 "Admin authentication not configured")
    | Some adminPassword =>
        if bool_decide (adminPassword = "")
        then ret (HttpError 500 "Admin authentication not configured")
        else if negb (same_string username adminUsername)
        then ret (HttpError 401 "Invalid credentials")
        else
          let isValid := same_string password adminPassword in
          if negb isValid
          then ret (HttpError 401 "Invalid credentials")
          else
            token ← lift (generateToken env 1 adminUsername);
            modify (λ log, log ++ [LogLoginSuccessful username]) ;;
            ret (Json (mkLoginResponse true token 1 adminUsername))
    end.

End Login.

(** ** Sending the email of one user
    ([POST /api/admin/users/:id/send-email]) *)

Module SendEmail.

Import Js.

(** A row of [email_logs], with the columns this route writes;
    [generation_id] is NULL for a message sent on its own. *)
Record EmailLog : Type := mkEmailLog {
  sl_id : Z;
  sl_user_id : Z;
  sl_generation_id : option Z;
  sl_email_to : string;
  sl_email_subject : string;
  sl_status : Emails.EmailStatus;
  sl_error_message : option string;
  sl_message_id : option string;
  sl_smtp_response : option string
}.

Inductive LogLine : Type :=
| LogEmailSent (to : string)
| LogSendFailed (to : string) (message : string).

Record World : Type := mkWorld {
  w_users : list Emails.User;
  w_stats : list Emails.StatsRow;
  w_tokens : list Emails.TokenRow;
  w_email_logs : list EmailLog;
  w_next_email_log_id : Z;
  w_outbox : list Emails.Mail;
  w_log : list LogLine
}.

Definition set_tokens (t : list Emails.TokenRow) (w : World) : World :=
  mkWorld (w_users w) (w_stats w) t (w_email_logs w) (w_next_email_log_id w)
    (w_outbox w) (w_log w).

Definition set_email_logs (l : list EmailLog) (next : Z) (w : World) : World :=
  mkWorld (w_users w) (w_stats w) (w_tokens w) l next (w_outbox w) (w_log w).

Definition set_outbox (o : list Emails.Mail) (w : World) : World :=
  mkWorld (w_users w) (w_stats w) (w_tokens w) (w_email_logs w)
    (w_next_email_log_id w) o (w_log w).

Definition set_log (l : list LogLine) (w : World) : World :=
  mkWorld (w_users w) (w_stats w) (w_tokens w) (w_email_logs w)
    (w_next_email_log_id w) (w_outbox w) l.

Local Abbreviation M := (StExc World).

Definition logger (l : LogLine) : M unit :=
  modify (λ w, set_log (w_log w ++ [l]) w).

Record SendResponse : Type := mkSendResponse {
  send_success : bool;
  send_message : string;
  send_email : string
}.

(** The environment variables (TEST_MODE among them, which the handler
    does not read), the calls the surroundings reject, the token a new
    access token gets, the answer of the SMTP server, and the two
    templates, whose long string literals are not spelled out. *)
Record Env : Type := mkEnv {
  TEST_MODE : option string;
  TARGET_YEAR : Z;
  APP_URL : option string;
  builtins : Builtins;
  translations : gmap string JsVal;
  find_user_fault : option string;
  find_stats_fault : option string;
  find_token_fault : option string;
  create_token_fault : option string;
  new_token : string;
  create_log_fault : option string;
  sendMail : Emails.Mail → result (string * string);
  mark_sent_fault : option string;
  mark_failed_fault : option string;
  generateEmailHTML : Emails.User → Emails.StatsRow → string → string → string;
  generateEmailText : Emails.User → Emails.StatsRow → string → string → string
}.

Definition with_test_mode (mode : option string) (env : Env) : Env :=
  mkEnv mode (TARGET_YEAR env) (APP_URL env) (builtins env)
    (translations env) (find_user_fault env) (find_stats_fault env)
    (find_token_fault env) (create_token_fault env) (new_token env)
    (create_log_fault env) (sendMail env) (mark_sent_fault env)
    (mark_failed_fault env) (generateEmailHTML env) (generateEmailText env).

Section Route.

Variable env : Env.

Definition UserModel_findById (id : Z) : M (option Emails.User) :=
  may_fail (find_user_fault env) ;;
  users ← gets w_users;
  ret (List.find (λ u, bool_decide (Emails.user_id u = id)) users).

(** Modelled from the spec: the models of [user_wrapped_stats],
    [access_tokens] and [email_logs] are not in the sources. By their
    names, their arguments and the schema, [findByUserAndYear] and
    [findByWrappedStatsId] look a row up, [AccessTokenModel.create] adds a
    token for the statistics, [EmailLogModel.create] adds a row with the
    DEFAULT status 'pending', and [markSent] and [markFailed] note the
    outcome on the row with the given id. *)
Definition UserWrappedStatsModel_findByUserAndYear (user year : Z)
    : M (option Emails.StatsRow) :=
  may_fail (find_stats_fault env) ;;
  stats ← gets w_stats;
  ret (List.find (λ s, bool_decide (Emails.stats_user_id s = user)
                       && bool_decide (Emails.stats_year s = year)) stats).

Definition AccessTokenModel_findByWrappedStatsId (stats_id : Z)
    : M (option Emails.TokenRow) :=
  may_fail (find_token_fault env) ;;
  tokens ← gets w_tokens;
  ret (List.find (λ t, bool_decide (Emails.tk_stats_id t = stats_id)) tokens).

Definition AccessTokenModel_create (stats_id : Z) : M Emails.TokenRow :=
  may_fail (create_token_fault env) ;;
  let record := Emails.mkTokenRow (new_token env) stats_id in
  modify (λ w, set_tokens (w_tokens w ++ [record]) w) ;;
  ret record.

Definition EmailLogModel_create (user : Z) (generation : option Z)
    (to subject : string) : M EmailLog :=
  may_fail (create_log_fault env) ;;
  id ← gets w_next_email_log_id;
  let row := mkEmailLog id user generation to subject Emails.email_pending
               None None None in
  modify (λ w, set_email_logs (w_email_logs w ++ [row]) (id + 1) w) ;;
  ret row.

Definition mark_sent (id : Z) (message_id response : string) (l : EmailLog)
    : EmailLog :=
  if bool_decide (sl_id l = id)
  then mkEmailLog (sl_id l) (sl_user_id l) (sl_generation_id l)
         (sl_email_to l) (sl_email_subject l) Emails.email_sent
         (sl_error_message l) (Some message_id) (Some response)
  else l.

Definition mark_failed (id : Z) (message : string) (l : EmailLog) : EmailLog :=
  if bool_decide (sl_id l = id)
  then mkEmailLog (sl_id l) (sl_user_id l) (sl_generation_id l)
         (sl_email_to l) (sl_email_subject l) Emails.email_failed
         (Some message) (sl_message_id l) (sl_smtp_response l)
  else l.

Definition EmailLogModel_markSent (id : Z) (message_id response : string)
    : M unit :=
  may_fail (mark_sent_fault env) ;;
  modify (λ w, set_email_logs (mark_sent id message_id response
                                 <$> w_email_logs w)
                 (w_next_email_log_id w) w).

Definition EmailLogModel_markFailed (id : Z) (message : string) : M unit :=
  may_fail (mark_failed_fault env) ;;
  modify (λ w, set_email_logs (mark_failed id message <$> w_email_logs w)
                 (w_next_email_log_id w) w).

Definition transporter_sendMail (mail : Emails.Mail) : M (string * string) :=
  match sendMail env mail with
  | Ok info => modify (λ w, set_outbox (w_outbox w ++ [mail]) w) ;; ret info
  | Err e => throw e
  end.

(** The handler, for a numeric id in the path. *)
Definition post_user_send_email (userId : Z) : M (Answer SendResponse) :=
  user ← UserModel_findById userId;
  match user with
  | None => ret (HttpError 404 "User not found")
  | Some user =>
      match Emails.email user with
      | None => ret (HttpError 400 "User does not have an email address")
      | Some to =>
          if bool_decide (to = "")
          then ret (HttpError 400 "User does not have an email address")
          else
            let targetYear := TARGET_YEAR env in
            stats ← UserWrappedStatsModel_findByUserAndYear userId targetYear;
            match stats with
            | None =>
                ret (HttpError 404 "No wrapped stats found for this user")
            | Some stats =>
                found ← AccessTokenModel_findByWrappedStatsId
                          (Emails.stats_id stats);
                tokenRecord ←
                  match found with
                  | Some record => ret record
                  | None => AccessTokenModel_create (Emails.stats_id stats)
                  end;
                let locale := Emails.or_en (Emails.preferred_language user) in
                let appUrl :=
                  Login.env_or (APP_URL env) "http://localhost:3000" in
                let wrappedUrl :=
                  appUrl +:+ "/wrapped/" +:+ Emails.tk_token tokenRecord
                  +:+ "?lang=" +:+ locale in
                emailSubject ← lift
                  (I18n.t (builtins env) (translations env) "email.subject"
                     (Some locale) (Some [("year", PNum targetYear)]));
                emailLog ← EmailLogModel_create (Emails.user_id user) None
                             to emailSubject;
                try_catch
                  (info ← transporter_sendMail
                            (Emails.mkMail to emailSubject
                               (generateEmailHTML env user stats wrappedUrl
                                  locale)
                               (generateEmailText env user stats wrappedUrl
                                  locale));
                   EmailLogModel_markSent (sl_id emailLog) info.1 info.2 ;;
                   logger (LogEmailSent to) ;;
                   ret (Json (mkSendResponse true "Email sent successfully"
                                to)))
                  (λ error,
                   EmailLogModel_markFailed (sl_id emailLog) error ;;
                   logger (LogSendFailed to error) ;;
                   ret (HttpError 500 ("Failed to send email: " +:+ error)))
            end
      end
  end.

End Route.

End SendEmail.

(** ** Changing the language of the wrapped page
    ([lib/locale] [setLocale], [components/LanguageSwitcher],
    [components/LocaleProvider]) *)

Module Switcher.

Import Locale.

(** [localStorage.setItem('preferredLanguage', locale)], guarded by
    [typeof window !== 'undefined']: the body of [setLocale] and the first
    statement of [handleLocaleChange]. *)
Definition setLocale (locale : string) (window : option Window)
    : option Window :=
  match window with
  | None => None
  | Some win => Some (mkWindow (Some locale) (navigator_language win))
  end.

(** [URLSearchParams.set(name, value)]: the first pair of the name takes
    the value and the other pairs of the name go; without such a pair, one
    is appended. *)
Fixpoint searchParams_set (name value : string)
    (searchParams : list (string * string)) : list (string * string) :=
  match searchParams with
  | [] => [(name, value)]
  | (k, v) :: rest =>
      if bool_decide (k = name)
      then (name, value) :: filter (λ kv, kv.1 ≠ name) rest
      else (k, v) :: searchParams_set name value rest
  end.

(** [handleLocaleChange(newLocale)]: the preference is stored and the
    router is sent to the same path with [lang] set. What is returned is
    the storage and the query the page is rendered with next; the copy
    [new URLSearchParams(searchParams.toString())] and the text of the URL
    hold the same pairs as the query they are made from. *)
Definition handleLocaleChange (newLocale : string) (window : option Window)
    (searchParams : list (string * string))
    : option Window * list (string * string) :=
  (setLocale newLocale window, searchParams_set "lang" newLocale searchParams).

Section Provider.

Variable locales : list string.
Variable defaultLocale : string.

(** [validLocale] of [LocaleProvider]. *)
Definition validLocale (searchParams : list (string * string)) : string :=
  match searchParams_get searchParams "lang" with
  | Some urlLocale =>
      if negb (bool_decide (urlLocale = "")) && includes locales urlLocale
      then urlLocale else defaultLocale
  | None => defaultLocale
  end.

(** [loadMessages] of [LocaleProvider]: the locale it sets and the
    messages it ends with; [load locale] is the dynamic import of the
    messages of a locale, which may be rejected. *)
Definition loadMessages {Messages : Type} (load : string → result Messages)
    (searchParams : list (string * string)) : string * result Messages :=
  let validLocale := validLocale searchParams in
  (validLocale,
   match load validLocale with
   | Ok loadedMessages => Ok loadedMessages
   | Err _ => load defaultLocale
   end).

End Provider.

End Switcher.

(** ** The API client of the frontend ([frontend/lib/api.ts]) *)

Module ApiClient.

(** The client and, in a browser, [localStorage]. *)
Record Client : Type := mkClient {
  baseURL : string;
  token : option string
}.

Definition Storage : Type := gmap string string.

(** [new ApiClient(baseURL)] *)
Definition construct (baseURL : string) (window : option Storage) : Client :=
  mkClient baseURL (storage ← window; storage !! "auth_token").

(** [setToken(token)] *)
Definition setToken (t : option string) (c : Client) (window : option Storage)
    : Client * option Storage :=
  (mkClient (baseURL c) t,
   match window with
   | None => None
   | Some storage =>
       Some (match t with
             | Some s =>
                 if bool_decide (s = "") then delete "auth_token" storage
                 else <["auth_token" := s]> storage
             | None => delete "auth_token" storage
             end)
   end).

Definition getToken (c : Client) : option string := token c.

(** [logout()] *)
Definition logout (c : Client) (window : option Storage)
    : Client * option Storage :=
  setToken None c window.

(** The headers [request] sends: 'Content-Type', then the headers of the
    options over it, then 'Authorization' when the client holds a
    token. *)
Definition request_headers (c : Client) (options_headers : gmap string string)
    : gmap string string :=
  let headers := options_headers ∪ {["Content-Type" := "application/json"]} in
  match token c with
  | Some t =>
      if bool_decide (t = "") then headers
      else <["Authorization" := "Bearer " +:+ t]> headers
  | None => headers
  end.

(** The query of [getEmails(limit)]: [limit ? `?limit=${limit}` : '']. *)
Definition emails_query (limit : option Z) : string :=
  match limit with
  | Some n => if bool_decide (n = 0) then "" else "?limit=" +:+ pretty n
  | None => ""
  end.

End ApiClient.

(** ** Starting the backend ([backend/src/index.ts]) *)

Module Server.

(** What the process logs and does during a start. [Listening] is the
    call of [app.listen]; the handlers [startServer] registers after it run
    on later signals and are not part of the start. *)
Inductive Event : Type :=
| Info (message : string)
| Warn (message : string)
| Error (message : string)
| Listening
| Exit (code : Z).

(** What a health check answers. *)
Record Health : Type := mkHealth {
  healthy : bool;
  health_message : string
}.

(** The surroundings of a start: the connections, the two optional
    services (everything from the dynamic import to the health check may
    throw), and [app.listen]. *)
Record Env : Type := mkEnv {
  CORS_ORIGINS : option string;
  testConnection : result bool;
  createRedisClient : result unit;
  tautulli_healthCheck : result Health;
  overseerr_isEnabled : result bool;
  overseerr_healthCheck : result Health;
  listen : result unit
}.

(** [process.env.CORS_ORIGINS?.split(',') || ['http://localhost:3000']] *)
Definition corsOrigins (env : Env) : list string :=
  match CORS_ORIGINS env with
  | Some origins => Text.split_at "," origins
  | None => ["http://localhost:3000"]
  end.

Local Abbreviation M := (StExc (list Event)).

Definition emit (e : Event) : M unit := modify (λ trace, trace ++ [e]).

(** The two branches on the answer of a health check. *)
Definition report (service : string) (health : Health) : M unit :=
  if healthy health
  then emit (Info (service +:+ " connected: " +:+ health_message health))
  else emit (Warn (service +:+ " connection issue: "
                   +:+ health_message health)).

Section Start.

Variable env : Env.

(** [startServer()]; the state is the trace of what the process logged
    and did. *)
Definition startServer : M unit :=
  try_catch
    (emit (Info "Starting Unwrapped for Plex Backend...") ;;
     emit (Info "Connecting to database...") ;;
     dbConnected ← lift (testConnection env);
     (if negb dbConnected then throw "Failed to connect to database"
      else ret tt) ;;
     emit (Info "Connecting to Redis...") ;;
     lift (createRedisClient env) ;;
     try_catch
       (tautulliHealth ← lift (tautulli_healthCheck env);
        report "Tautulli" tautulliHealth)
       (λ error, emit (Warn "Tautulli connection failed:")) ;;
     try_catch
       (lift (overseerr_isEnabled env) ≫= λ enabled : bool,
        if enabled
        then (overseerrHealth ← lift (overseerr_healthCheck env);
              report "Overseerr" overseerrHealth)
        else emit (Info "Overseerr integration is disabled"))
       (λ error, emit (Warn "Overseerr connection check failed:")) ;;
     lift (listen env) ;;
     emit Listening)
    (λ error,
     emit (Error "Failed to start server:") ;;
     emit (Exit 1)).

End Start.

End Server.

(** ** The log routes and the dashboard ([admin.routes.ts]) *)

Module Logs.

Import Js.

Record LogsResponse : Type := mkLogsResponse {
  logs : list JsVal;
  file : option string;
  total : option nat;
  error : option string;
  error_message : option string
}.

(** [parseInt(req.query.limit, 10) || fallback], for a query that has the
    parameter once or not at all. *)
Definition limit_of (query : option string) (fallback : Z) : Z :=
  Text.number_or (query ≫= Text.parseInt) fallback.

(** [req.query.limit] for the query text of a request that carries no
    parameter, or [limit] as its first one with a value that needs no
    decoding. *)
Fixpoint strip_prefix (prefix s : string) : option string :=
  match prefix, s with
  | EmptyString, _ => Some s
  | String p prefix', String c rest =>
      if bool_decide (p = c) then strip_prefix prefix' rest else None
  | String _ _, EmptyString => None
  end.

Definition query_limit (query : string) : option string :=
  strip_prefix "?limit=" query.

(** The limit [GET /api/admin/emails] hands to [EmailLogModel.findAll]. *)
Definition get_emails_limit (query : string) : Z :=
  limit_of (query_limit query) 100.

Section Application.

Variable B : Builtins.

(** [JSON.parse(line)], or the exception it throws. *)
Variable parse : string → option JsVal.

(** [logs.filter(log => log.level === level)]; reading [level] off
    [undefined] throws, which ends the filter. *)
Fixpoint filter_level (level : string) (logs : list JsVal)
    : result (list JsVal) :=
  match logs with
  | [] => Ok []
  | log :: rest =>
      match get_property B log "level" with
      | Err message => Err message
      | Ok v =>
          match filter_level level rest with
          | Err message => Err message
          | Ok kept =>
              Ok (if Login.same_string v level then log :: kept else kept)
          end
      end
  end.

(** The lines of the file that are not empty. *)
Definition lines_of (fileContent : string) : list string :=
  filter (λ line, line ≠ "") (Text.split_at "010" (Text.trim fileContent)).

(** The entries of the file: the lines that parse, to something else than
    [null]. *)
Definition not_null (log : JsVal) : bool :=
  match log with
  | JNull => false
  | _ => true
  end.

Definition entries_of (lines : list string) : list JsVal :=
  filter (λ log, not_null log) (omap parse lines).

(** The answer of the [catch] block. *)
Definition failed_to_read (message : string) : LogsResponse :=
  mkLogsResponse [] None None (Some "Failed to read log file") (Some message).

(** [GET /api/admin/logs/application]; [today] is the date in the name of
    the file, [readFile] the content of the file or the exception of the
    read. *)
Definition get_logs_application (today : string)
    (readFile : result string) (limitQuery levelQuery : option string)
    : LogsResponse :=
  let limit := limit_of limitQuery 100 in
  match readFile with
  | Ok fileContent =>
      let lines := lines_of fileContent in
      let logs := entries_of lines in
      let filtered :=
        match levelQuery with
        | Some level =>
            if bool_decide (level = "") then Ok logs
            else filter_level level logs
        | None => Ok logs
        end in
      match filtered with
      | Ok logs =>
          let logs := Text.slice_to limit (reverse logs) in
          mkLogsResponse logs (Some ("combined-" +:+ today +:+ ".log"))
            (Some (length lines)) None None
      | Err message => failed_to_read message
      end
  | Err message => failed_to_read message
  end.

End Application.

(** A row of [email_logs], as the dashboard counts it. *)
Record Logged : Type := mkLogged {
  lg_status : Emails.EmailStatus;
  lg_created_at : Z
}.

Definition is_status (s : Emails.EmailStatus) (l : Logged) : bool :=
  match s, lg_status l with
  | Emails.email_sent, Emails.email_sent => true
  | Emails.email_failed, Emails.email_failed => true
  | _, _ => false
  end.

(** Thirty days, in the seconds [created_at] and [NOW()] are counted
    in. *)
Definition thirty_days : Z := 30 * 86400.

(** The row the dashboard's query over [email_logs] returns: the three
    counts, which the driver hands over as text. *)
Record Counts : Type := mkCounts {
  count_total : string;
  count_sent : string;
  count_failed : string
}.

Definition count_email_logs (now : Z) (rows : list Logged) : Counts :=
  let recent := filter (λ l, now - thirty_days < lg_created_at l) rows in
  mkCounts (pretty (length recent))
    (pretty (length (filter (λ l, is_status Emails.email_sent l) recent)))
    (pretty (length (filter (λ l, is_status Emails.email_failed l) recent))).

(** The [emailStats] of [GET /api/admin/dashboard]; a count that does not
    parse is NaN. *)
Record EmailStats : Type := mkEmailStats {
  totalSent : option Z;
  totalPending : option Z;
  totalFailed : option Z
}.

Definition emailStats (counts : Counts) : EmailStats :=
  let sent := Text.parseInt (count_sent counts) in
  let failed := Text.parseInt (count_failed counts) in
  let total := Text.parseInt (count_total counts) in
  mkEmailStats sent
    (t ← total; s ← sent; f ← failed; Some (t - s - f))
    failed.

End Logs.

(** ** The figures of the wrapped page ([app/wrapped/[token]/page.tsx]) *)

Module Page.

Import Js.

Section Formats.

(** The translator of next-intl for the namespace 'wrapped'. *)
Variable t : string → list (string * Prim) → string.

(** [formatHours(minutes)], for a whole number of minutes. *)
Definition formatHours (minutes : Z) : string :=
  let hours := minutes / 60 in
  let days := hours / 24 in
  if 0 <? days then
    let remainingHours := Z.rem hours 24 in
    if 0 <? remainingHours
    then t "time.duration.daysHours"
           [("days", PNum days); ("hours", PNum remainingHours)]
    else t "time.duration.days" [("days", PNum days)]
  else t "time.duration.hours" [("hours", PNum hours)].

(** [formatTime(hour)] *)
Definition formatTime (hour : Z) : string :=
  if hour =? 0 then t "time.hour.am" [("hour", PNum 12)]
  else if hour <? 12 then t "time.hour.am" [("hour", PNum hour)]
  else if hour =? 12 then t "time.hour.pm" [("hour", PNum 12)]
  else t "time.hour.pm" [("hour", PNum (hour - 12))].

End Formats.

End Page.

(** ** Sample data for the added modules *)

Module Samples.

Import Js.

(** Two users in the table; Tautulli reports the first one, renamed, and
    a third one. *)
Definition ann : Users.User :=
  Users.mkUser 1 101 "ann" (Some "ann@example.org") None None false true
    false false (Some "fr") 10 10 None.

Definition bob : Users.User :=
  Users.mkUser 2 102 "bob" None None None false true false false (Some "en")
    20 20 None.

Definition users_world : Users.World := Users.mkWorld [ann; bob] 3 [].

Definition report : list Users.TautulliUser :=
  [Users.mkTautulliUser 101 "annie" (Some "ann@example.org") (Some "Ann") None
     0 0 1 0;
   Users.mkTautulliUser 103 "cy" (Some "") None None 0 1 0 0].

Definition users_env : Users.Env :=
  Users.mkEnv (Ok report) (λ _, None) (λ i, 1000 + Z.of_nat i) None None 2000.

(** The same surroundings with a store that rejects the second upsert. *)
Definition flaky_users_env : Users.Env :=
  Users.mkEnv (Ok report)
    (λ i, if bool_decide (i = 1%nat) then Some "connection lost" else None)
    (λ i, 1000 + Z.of_nat i) None None 2000.

(** The state and the surroundings of a single send. *)
Definition send_world : SendEmail.World :=
  SendEmail.mkWorld
    [Emails.mkUser 1 "ann" None (Some "ann@example.org") (Some "fr")]
    [Emails.mkStatsRow 11 1 (Some 7) 2025 600 12 9]
    [] [] 1 [] [].

Definition send_env : SendEmail.Env :=
  SendEmail.mkEnv None 2025 (Some "https://unwrapped.example")
    Demo.builtins Demo.translations None None None None "tok-new" None
    (λ _, Ok ("message-1", "250 OK")) None None
    (λ _ _ url _, "<a href=" +:+ url +:+ ">") (λ _ _ url _, url).

(** A log file of four lines, and a stand-in for [JSON.parse] that reads
    a line as an entry of that level, 'null' as [null], and rejects
    'oops'. *)
Definition log_file : string :=
  "info" +:+ String "010" ("error" +:+ String "010"
    ("oops" +:+ String "010" ("warn" +:+ String "010" "error"))).

Definition parse_line (line : string) : option JsVal :=
  if bool_decide (line = "null") then Some JNull
  else if bool_decide (line = "oops") then None
  else Some (JObj [("level", JStr line)]).

(** A translator that answers with the key. *)
Definition translator (key : string) (values : list (string * Prim)) : string :=
  key.

End Samples.

(** * Facts about the orchestrator *)

Section OrchestratorFacts.

Import Orchestrator.

Context {Stats : Type}.
Variable stmt : list (@StatsRow Stats) → @StatsRow Stats → list (@StatsRow Stats).
Variable env : @Env Stats.

Ltac elem_cases H :=
  repeat match type of H with
  | _ ∈ _ :: _ => apply elem_of_cons in H as [->|H]
  | _ ∈ [] => by apply elem_of_nil in H
  | _ ∈ _ ++ _ => apply elem_of_app in H as [H|H]
  end.

Ltac run_M :=
  unfold mbind, mret, M_bind, M_ret, bind, ret, throw, try_catch, modify,
    gets, lift, may_fail, logger in *; simpl in *.

(** What a log line says about the outcome of one user. *)
Definition user_outcome (l : LogLine) : option (Z * bool) :=
  match l with
  | LogProcessed uid => Some (uid, true)
  | LogFailedUser uid _ => Some (uid, false)
  | _ => None
  end.

(** The computation or the persistence of the user at position [i] fails. *)
Definition user_fails (i : nat) (u : User) (year : Z) : Prop :=
  is_ok (calculateUserStats env i (plex_user_id u) year) = false
  ∨ is_Some (stats_fault env i)
  ∨ is_Some (token_fault env i).

(** The calls that keep the books of the generation record are accepted. *)
Definition bookkeeping_ok : Prop :=
  create_fault env = None
  ∧ (∀ p, update_fault env p = None)
  ∧ (∀ i b, increment_fault env i b = None).

(** The stores the work on a user reads and writes: the statistics, the
    sequence behind their ids, and the access tokens. *)
Definition Stores : Type := list (@StatsRow Stats) * Z * list TokenRow.

Definition stores_of (w : @World Stats) : Stores :=
  (w_stats w, w_next_stats_id w, w_tokens w).

(** What the work on the user at position [i] comes to, read off the
    answers of the engine and of the two stores: the user is successful
    when the engine returns statistics, the statistics store takes the row
    and the token store takes the token; then the table is the one the
    statement asked for and the token of the row is added. A row the
    store refuses, and a row whose token is rejected, still use up an id. *)
Definition outcome_of (gid year : Z) (i : nat) (u : User) (s : Stores)
    : bool * Stores :=
  let '(t, next, tokens) := s in
  match calculateUserStats env i (plex_user_id u) year, stats_fault env i with
  | Ok stats, None =>
      let row := mkStatsRow next (user_id u) gid year stats
                   (elapsed_seconds env i) in
      if constraints_ok (stmt t row)
      then match token_fault env i with
           | None =>
               (true,
                (stmt t row, next + 1,
                 tokens ++ [mkTokenRow (new_token env i) next (user_id u) year
                              "generation"]))
           | Some _ => (false, (stmt t row, next + 1, tokens))
           end
      else (false, (t, next + 1, tokens))
  | _, _ => (false, s)
  end.

(** The outcomes of the users of a run, in order, each on the stores the
    users before it have left. *)
Fixpoint outcomes (gid year : Z) (i : nat) (users : list User) (s : Stores)
    : list bool * Stores :=
  match users with
  | [] => ([], s)
  | u :: rest =>
      let '(ok, s1) := outcome_of gid year i u s in
      let '(oks, s2) := outcomes gid year (S i) rest s1 in
      (ok :: oks, s2)
  end.

Lemma process_user_spec gid year i u (w : @World Stats) :
  (∀ b, increment_fault env i b = None) →
  ∃ (ok : bool) (line : LogLine) (w' : @World Stats),
    process_user stmt env gid year i u w = (Ok tt, w')
    ∧ w_log w' = w_log w ++ [LogProcessing (user_id u); line]
    ∧ user_outcome line = Some (user_id u, ok)
    ∧ w_successful w' = w_successful w + (if ok then 1 else 0)
    ∧ w_failed w' = w_failed w + (if ok then 0 else 1)
    ∧ w_history w' = w_history w
    ∧ w_generations w' = alter (bump_processed ok) gid (w_generations w)
    ∧ w_users w' = w_users w
    ∧ w_next_generation_id w' = w_next_generation_id w
    ∧ (user_fails i u year → ok = false)
    ∧ outcome_of gid year i u (stores_of w) = (ok, stores_of w').
Proof.
  intros Hinc. unfold process_user, user_fails, outcome_of, stores_of.
  unfold UserWrappedStatsModel_create, AccessTokenModel_create,
    WrappedGenerationModel_incrementProcessed.
  rewrite !Hinc. run_M.
  destruct (calculateUserStats env i (plex_user_id u) year) as [st|e]; simpl;
    [destruct (stats_fault env i) as [e|]; simpl;
      [|destruct (constraints_ok _); simpl;
         [destruct (token_fault env i) as [e|]; simpl|]]|].
  5: exists false.  4: exists false.  3: exists true.  2: exists false.
  1: exists false.
  all: eexists; eexists; split_and!;
    unfold set_generations, set_counters, set_log, set_stats, set_tokens;
    simpl;
    first [ reflexivity | by rewrite <- app_assoc | lia | idtac ].
  all: simpl;
    first [ reflexivity | lia | intros [H|[[? H]|[? H]]]; discriminate ].
Qed.

Lemma select_users_ext (w1 w2 : @World Stats) userIds :
  w_users w1 = w_users w2 → select_users w1 userIds = select_users w2 userIds.
Proof.
  intros H. unfold select_users, UserModel_findById. by rewrite H.
Qed.

(** How many of the outcomes are [b]. *)
Definition tally (b : bool) (oks : list bool) : Z :=
  Z.of_nat (length (filter (λ x, x = b) oks)).

Lemma tally_cons b x oks :
  tally b (x :: oks) = (if bool_decide (x = b) then 1 else 0) + tally b oks.
Proof.
  unfold tally. rewrite filter_cons.
  case_bool_decide; case_decide; try done; simpl length; lia.
Qed.

Lemma tally_total oks : tally true oks + tally false oks = Z.of_nat (length oks).
Proof.
  induction oks as [|[] oks IH]; [done|..]; rewrite !tally_cons;
    repeat case_bool_decide; try done; simpl length; lia.
Qed.

(** What the loop leaves of a generation row: only the counters move. *)
Definition bumped (n : Z) (g g' : Generation) : Prop :=
  g_status g' = g_status g
  ∧ g_total_users g' = g_total_users g
  ∧ g_processed_users g' = g_processed_users g + n
  ∧ g_id g' = g_id g ∧ g_year g' = g_year g
  ∧ g_started_at g' = g_started_at g
  ∧ g_completed_at g' = g_completed_at g
  ∧ g_error_log g' = g_error_log g.

(** The tokens only grow, and a successful user has its token at the end:
    for the statistics the engine returned, under the id the row took. *)
Lemma outcome_of_tokens gid year i u (s : Stores) :
  ∃ more, (outcome_of gid year i u s).2.2 = s.2 ++ more.
Proof.
  destruct s as [[t next] tokens]. unfold outcome_of. simpl.
  repeat case_match; simpl; eauto using app_nil_r.
  all: exists []; by rewrite app_nil_r.
Qed.

Lemma outcomes_tokens gid year users : ∀ i (s : Stores),
  ∃ more, (outcomes gid year i users s).2.2 = s.2 ++ more.
Proof.
  induction users as [|u users IH]; intros i s; simpl.
  - exists []. by rewrite app_nil_r.
  - destruct (outcome_of gid year i u s) as [ok s1] eqn:H1.
    destruct (outcomes gid year (S i) users s1) as [oks s2] eqn:H2. simpl.
    destruct (outcome_of_tokens gid year i u s) as [m1 Hm1].
    destruct (IH (S i) s1) as [m2 Hm2].
    rewrite H1 in Hm1. rewrite H2 in Hm2. simpl in *.
    exists (m1 ++ m2). by rewrite Hm2, Hm1, app_assoc.
Qed.

(** A successful user: the engine answered, both stores accepted, and the
    token of the new row is in the table. *)
Definition served (year : Z) (i : nat) (u : User) (tokens : list TokenRow)
    : Prop :=
  ∃ stats id,
    calculateUserStats env i (plex_user_id u) year = Ok stats
    ∧ stats_fault env i = None
    ∧ token_fault env i = None
    ∧ mkTokenRow (new_token env i) id (user_id u) year "generation" ∈ tokens.

Lemma outcome_of_served gid year i u (s s' : Stores) :
  outcome_of gid year i u s = (true, s') → served year i u s'.2.
Proof.
  destruct s as [[t next] tokens]. unfold outcome_of, served.
  destruct (calculateUserStats env i (plex_user_id u) year) as [stats|];
    [|discriminate].
  destruct (stats_fault env i); [discriminate|].
  destruct (constraints_ok _); [|discriminate].
  destruct (token_fault env i); [discriminate|].
  intros [= <-]. simpl. exists stats, next. split_and!; try done.
  apply elem_of_app. right. apply list_elem_of_singleton. reflexivity.
Qed.

Lemma outcomes_served gid year users : ∀ i (s : Stores) oks s',
  outcomes gid year i users s = (oks, s') →
  ∀ k u, users !! k = Some u → oks !! k = Some true →
    served year (i + k) u s'.2.
Proof.
  induction users as [|u users IH]; intros i s oks s' Hrun k u' Hk Hok;
    [done|].
  simpl in Hrun.
  destruct (outcome_of gid year i u s) as [ok s1] eqn:H1.
  destruct (outcomes gid year (S i) users s1) as [oks1 s2] eqn:H2.
  injection Hrun as <- <-.
  destruct k as [|k]; simpl in Hk, Hok.
  - injection Hk as <-. injection Hok as ->. rewrite Nat.add_0_r.
    destruct (outcome_of_served gid year i u s s1 H1)
      as (stats & id & Hc & Hs & Ht & Hin).
    destruct (outcomes_tokens gid year users (S i) s1) as [more Hmore].
    rewrite H2 in Hmore. simpl in Hmore.
    exists stats, id. split_and!; try done. rewrite Hmore.
    apply elem_of_app. by left.
  - replace (i + S k)%nat with (S i + k)%nat by lia.
    by apply (IH (S i) s1 oks1 s2 H2 k u').
Qed.

Lemma for_users_spec gid year users : ∀ i (w : @World Stats),
  (∀ j b, increment_fault env j b = None) →
  ∃ (oks : list bool) (lines : list LogLine) (w' : @World Stats),
    for_users stmt env gid year i users w = (Ok tt, w')
    ∧ length oks = length users
    ∧ w_log w' = w_log w ++ lines
    ∧ omap user_outcome lines = zip (user_id <$> users) oks
    ∧ w_successful w' = w_successful w + tally true oks
    ∧ w_failed w' = w_failed w + tally false oks
    ∧ w_history w' = w_history w
    ∧ w_users w' = w_users w
    ∧ w_next_generation_id w' = w_next_generation_id w
    ∧ (∀ j, j ≠ gid → w_generations w' !! j = w_generations w !! j)
    ∧ (∀ g, w_generations w !! gid = Some g →
         ∃ g', w_generations w' !! gid = Some g'
               ∧ bumped (Z.of_nat (length users)) g g')
    ∧ (∀ k u, users !! k = Some u → user_fails (i + k) u year →
         oks !! k = Some false)
    ∧ outcomes gid year i users (stores_of w) = (oks, stores_of w').
Proof.
  induction users as [|u users IH]; intros i w Hinc.
  - exists [], [], w. simpl. unfold tally; simpl. split_and!; try done.
    + by rewrite app_nil_r.
    + lia.
    + lia.
    + intros g Hg. exists g. split; [done|]. unfold bumped.
      split_and!; try done; lia.
  - destruct (process_user_spec gid year i u w (Hinc i))
      as (ok & line & w1 & Hrun & Hlog & Hout & Hs & Hf & Hh & Hg & Hu & Hn
          & Hfail & Hexact).
    destruct (IH (S i) w1 Hinc)
      as (oks & lines & w2 & Hrun2 & Hlen & Hlog2 & Hout2 & Hs2 & Hf2 & Hh2
          & Hu2 & Hn2 & Hother & Hrow & Hfails & Hexact2).
    exists (ok :: oks), ([LogProcessing (user_id u); line] ++ lines), w2.
    split_and!.
    + simpl. unfold mbind, M_bind, bind. by rewrite Hrun.
    + simpl. by rewrite Hlen.
    + rewrite Hlog2, Hlog. by rewrite <- app_assoc.
    + simpl. rewrite Hout. simpl. f_equal. exact Hout2.
    + rewrite Hs2, Hs, tally_cons. destruct ok; case_bool_decide; try done; lia.
    + rewrite Hf2, Hf, tally_cons. destruct ok; case_bool_decide; try done; lia.
    + by rewrite Hh2.
    + by rewrite Hu2.
    + by rewrite Hn2.
    + intros j Hj. rewrite Hother, Hg by done. by rewrite lookup_alter_ne.
    + intros g Hgid.
      destruct (Hrow (bump_processed ok g)) as (g' & Hg' & Hb).
      { rewrite Hg, lookup_alter_eq, Hgid. done. }
      exists g'. split; [done|].
      destruct Hb as (? & ? & Hprocessed & ? & ? & ? & ? & ?).
      unfold bumped. simpl in *. split_and!; try congruence.
      rewrite Hprocessed. lia.
    + intros [|k] u' Hk Hf'.
      * simpl in Hk. injection Hk as <-. simpl. f_equal. apply Hfail.
        by rewrite Nat.add_0_r in Hf'.
      * simpl in Hk. simpl. apply (Hfails k u' Hk).
        by replace (S i + k)%nat with (i + S k)%nat by lia.
    + cbn [outcomes]. by rewrite Hexact, Hexact2.
Qed.

(** *** What a run never disturbs *)

(** [preserves P m]: whatever [m] returns or throws, it leaves a state
    satisfying [P] if it started in one. *)
Local Abbreviation M := (StExc (@World Stats)).

Definition preserves {A} (P : @World Stats → Prop) (m : M A) : Prop :=
  ∀ w, P w → P (m w).2.

Lemma preserves_bind {A B} P (m : M A) (k : A → M B) :
  preserves P m → (∀ a, preserves P (k a)) → preserves P (m ≫= k).
Proof.
  intros Hm Hk w Hw. unfold mbind, M_bind, bind. specialize (Hm w Hw).
  destruct (m w) as [[a|e] w1]; simpl in *; [by apply Hk|done].
Qed.

Lemma preserves_try_catch {A} P (m : M A) (h : string → M A) :
  preserves P m → (∀ e, preserves P (h e)) → preserves P (try_catch m h).
Proof.
  intros Hm Hh w Hw. unfold try_catch. specialize (Hm w Hw).
  destruct (m w) as [[a|e] w1]; simpl in *; [done|by apply Hh].
Qed.

Lemma preserves_pure {A} P (r : result A) : preserves P (lift r).
Proof. by intros w Hw. Qed.

Lemma preserves_may_fail P fault : preserves P (may_fail fault).
Proof. by destruct fault; intros w Hw. Qed.

Lemma preserves_gets {A} P (f : @World Stats → A) : preserves P (gets f).
Proof. by intros w Hw. Qed.

Lemma preserves_modify P (f : @World Stats → @World Stats) :
  (∀ w, P w → P (f w)) → preserves P (modify f).
Proof. intros Hf w Hw. by apply Hf. Qed.

(** A property of the state that the per-user work cannot break: it does
    not depend on the log, the counters or the tokens, survives a bump of
    the progress counters, and survives every table the store accepts. *)
Record user_work_stable (P : @World Stats → Prop) : Prop := {
  stable_log : ∀ l w, P w → P (set_log l w);
  stable_counters : ∀ a b w, P w → P (set_counters a b w);
  stable_tokens : ∀ t w, P w → P (set_tokens t w);
  stable_bump : ∀ b gid w,
    P w → P (set_generations (alter (bump_processed b) gid) w);
  stable_stats : ∀ t n w,
    P w → constraints_ok t = true ∨ t = w_stats w → P (set_stats t n w)
}.

Lemma create_preserves P fault user generation year stats time :
  user_work_stable P →
  preserves P
    (UserWrappedStatsModel_create stmt fault user generation year stats time).
Proof.
  intros HP w Hw. unfold UserWrappedStatsModel_create. run_M.
  destruct fault; simpl; [done|].
  destruct (constraints_ok _) eqn:Hc; simpl.
  - apply (stable_stats P HP); auto.
  - apply (stable_stats P HP); auto.
Qed.

Lemma process_user_preserves P gid year i u :
  user_work_stable P → preserves P (process_user stmt env gid year i u).
Proof.
  intros HP. unfold process_user, logger, AccessTokenModel_create,
    WrappedGenerationModel_incrementProcessed.
  repeat first
    [ by apply create_preserves
    | apply preserves_try_catch | apply preserves_bind
    | lazymatch goal with |- ∀ _, preserves _ _ => intros ? end
    | apply preserves_pure | apply preserves_may_fail | apply preserves_gets
    | apply preserves_modify; intros ? ?;
      first [ by apply (stable_log P HP) | by apply (stable_counters P HP)
            | by apply (stable_tokens P HP) | by apply (stable_bump P HP) ] ].
Qed.

Lemma for_users_preserves P gid year users :
  user_work_stable P → ∀ i, preserves P (for_users stmt env gid year i users).
Proof.
  intros HP. induction users as [|u users IH]; intros i; simpl.
  - by intros w Hw.
  - apply preserves_bind; [by apply process_user_preserves|]. intros _. apply IH.
Qed.

(** The invariant of [user_wrapped_stats]: no two rows for one user and
    one year. *)
Definition one_row_per_user_year (w : @World Stats) : Prop :=
  unique_user_year (w_stats w).

Lemma one_row_per_user_year_stable : user_work_stable one_row_per_user_year.
Proof.
  split; try done. intros t n w Hw [Hc| ->]; [|done].
  unfold one_row_per_user_year, constraints_ok in *. simpl.
  apply andb_prop in Hc as [Hc _]. by apply bool_decide_eq_true in Hc.
Qed.

Lemma update_preserves_rows fault gid u :
  preserves one_row_per_user_year (WrappedGenerationModel_update fault gid u).
Proof.
  unfold WrappedGenerationModel_update.
  apply preserves_bind; [apply preserves_may_fail|]. intros _.
  apply preserves_modify. intros w Hw. unfold record_update.
  by destruct (u_status u).
Qed.

Lemma generate_preserves_rows gid year userIds :
  preserves one_row_per_user_year
    (generateWrappedStats stmt env gid year userIds).
Proof.
  unfold generateWrappedStats, fetch_users, logger.
  repeat first
    [ apply update_preserves_rows
    | by apply for_users_preserves, one_row_per_user_year_stable
    | apply preserves_try_catch | apply preserves_bind
    | lazymatch goal with |- ∀ _, preserves _ _ => intros ? end
    | apply preserves_may_fail | apply preserves_gets
    | apply preserves_modify; by intros ? ?
    | by intros ? ? ].
Qed.

(** C3. At most one statistics row per user and year, at any time. The
    invariant holds after every single write of a statistics row, after
    the work on every single user and after a whole generation request,
    whatever SQL statement the write issues and whatever the engine and the
    other services answer: it is the store's check of UNIQUE(user_id, year)
    that refuses a second row, the job itself does not look. *)
Theorem one_stats_row_per_user_and_year :
  (∀ fault user generation year stats time,
     preserves one_row_per_user_year
       (UserWrappedStatsModel_create stmt fault user generation year stats
          time))
  ∧ (∀ gid year i u,
       preserves one_row_per_user_year (process_user stmt env gid year i u))
  ∧ (∀ year userIds admin,
       preserves one_row_per_user_year
         (post_generate stmt env year userIds admin)).
Proof.
  split_and!.
  - intros. apply create_preserves, one_row_per_user_year_stable.
  - intros. apply process_user_preserves, one_row_per_user_year_stable.
  - intros. unfold post_generate, WrappedGenerationModel_create.
    repeat first
      [ apply generate_preserves_rows
      | apply preserves_try_catch | apply preserves_bind
      | lazymatch goal with |- ∀ _, preserves _ _ => intros ? end
      | apply preserves_may_fail | apply preserves_gets
      | apply preserves_modify; by intros ? ?
      | by intros ? ? ].
Qed.

(** *** The status of a generation record *)

Definition status_of (w : @World Stats) (j : Z) : option GenStatus :=
  g_status <$> w_generations w !! j.

(** [extends gid trace w w']: from [w] to [w'] the statuses [trace] were
    written, in this order, to the record [gid], and no status was written
    to any other record. *)
Definition extends (gid : Z) (trace : list GenStatus) (w w' : @World Stats)
    : Prop :=
  w_history w' = w_history w ++ ((λ s, (gid, s)) <$> trace)
  ∧ (∀ j, j ≠ gid → status_of w' j = status_of w j)
  ∧ (∀ s, status_of w gid = Some s → status_of w' gid = Some (List.last trace s)).

Lemma extends_refl gid w : extends gid [] w w.
Proof. split_and!; simpl; [by rewrite app_nil_r|done|done]. Qed.

Lemma extends_trans gid t1 t2 w1 w2 w3 :
  extends gid t1 w1 w2 → extends gid t2 w2 w3 → extends gid (t1 ++ t2) w1 w3.
Proof.
  intros (Hh1 & Ho1 & Hs1) (Hh2 & Ho2 & Hs2). split_and!.
  - rewrite Hh2, Hh1, fmap_app. by rewrite app_assoc.
  - intros j Hj. by rewrite Ho2, Ho1.
  - intros s Hs. rewrite (Hs2 _ (Hs1 _ Hs)). f_equal.
    destruct t2 as [|x t2 _] using rev_ind; [by rewrite app_nil_r|].
    by rewrite app_assoc, !last_last.
Qed.

Lemma extends_quiet gid w w' :
  w_history w' = w_history w → (∀ j, status_of w' j = status_of w j) →
  extends gid [] w w'.
Proof.
  intros Hh Hs. split_and!; simpl.
  - by rewrite app_nil_r.
  - intros j _. apply Hs.
  - intros s <-. apply Hs.
Qed.

Lemma record_update_extends gid u w :
  extends gid (from_option (λ s, [s]) [] (u_status u)) w (record_update gid u w).
Proof.
  unfold record_update, extends, status_of.
  destruct (u_status u) as [s|] eqn:Hu; simpl; split_and!.
  - done.
  - intros j Hj. by rewrite lookup_alter_ne.
  - intros s'. rewrite lookup_alter_eq.
    destruct (w_generations w !! gid); simpl; [|done].
    intros _. by rewrite Hu.
  - by rewrite app_nil_r.
  - intros j Hj. by rewrite lookup_alter_ne.
  - intros s'. rewrite lookup_alter_eq.
    destruct (w_generations w !! gid); simpl; [|done].
    rewrite Hu. simpl. done.
Qed.

(** The per-user work writes no status at all. *)
Lemma lifecycle_stable h (st : Z → option GenStatus) :
  user_work_stable (λ w, w_history w = h ∧ ∀ j, status_of w j = st j).
Proof.
  split; try done.
  intros b gid w [Hh Hs]. split; [done|]. intros j. rewrite <- Hs.
  unfold status_of. simpl.
  destruct (decide (gid = j)) as [->|Hne].
  - rewrite lookup_alter_eq. by destruct (w_generations w !! j).
  - by rewrite lookup_alter_ne.
Qed.

Lemma for_users_quiet gid year i users w :
  extends gid [] w (for_users stmt env gid year i users w).2.
Proof.
  destruct (for_users_preserves _ gid year users
              (lifecycle_stable (w_history w) (status_of w)) i w) as [Hh Hs];
    [done|].
  by apply extends_quiet.
Qed.

(** *** Which statuses a computation writes

    [writes gid m oks errs]: run from any state, [m] writes to the record
    [gid] one of the status sequences [oks] when it returns and one of
    [errs] when it throws, and writes no other status. *)
Definition writes {A} (gid : Z) (m : M A) (oks errs : list (list GenStatus))
    : Prop :=
  ∀ w, ∃ trace,
    extends gid trace w (m w).2
    ∧ trace ∈ (if is_ok (m w).1 then oks else errs).

(** Every sequence of [xs] followed by every sequence of [ys]. *)
Definition cat_all (xs ys : list (list GenStatus)) : list (list GenStatus) :=
  flat_map (λ x, map (app x) ys) xs.

Lemma elem_of_cat_all x y xs ys : x ∈ xs → y ∈ ys → x ++ y ∈ cat_all xs ys.
Proof.
  intros Hx Hy. apply list_elem_of_In, in_flat_map. exists x.
  split; [by apply list_elem_of_In|]. apply in_map. by apply list_elem_of_In.
Qed.

Lemma writes_bind {A B} gid (m : M A) (k : A → M B) ok1 err1 ok2 err2 :
  writes gid m ok1 err1 → (∀ a, writes gid (k a) ok2 err2) →
  writes gid (m ≫= k) (cat_all ok1 ok2) (err1 ++ cat_all ok1 err2).
Proof.
  intros Hm Hk w. unfold mbind, M_bind, bind.
  destruct (Hm w) as (t1 & He1 & Ht1).
  destruct (m w) as [[a|e] w1]; simpl in *.
  - destruct (Hk a w1) as (t2 & He2 & Ht2). exists (t1 ++ t2).
    split; [by eapply extends_trans|].
    destruct (is_ok (k a w1).1).
    + by apply elem_of_cat_all.
    + apply elem_of_app. right. by apply elem_of_cat_all.
  - exists t1. split; [done|]. apply elem_of_app. by left.
Qed.

Lemma writes_try_catch {A} gid (m : M A) (h : string → M A)
    ok1 err1 ok2 err2 :
  writes gid m ok1 err1 → (∀ e, writes gid (h e) ok2 err2) →
  writes gid (try_catch m h) (ok1 ++ cat_all err1 ok2) (cat_all err1 err2).
Proof.
  intros Hm Hh w. unfold try_catch.
  destruct (Hm w) as (t1 & He1 & Ht1).
  destruct (m w) as [[a|e] w1]; simpl in *.
  - exists t1. split; [done|]. apply elem_of_app. by left.
  - destruct (Hh e w1) as (t2 & He2 & Ht2). exists (t1 ++ t2).
    split; [by eapply extends_trans|].
    destruct (is_ok (h e w1).1).
    + apply elem_of_app. right. by apply elem_of_cat_all.
    + by apply elem_of_cat_all.
Qed.

Lemma writes_modify gid (f : @World Stats → @World Stats) trace :
  (∀ w, extends gid trace w (f w)) → writes gid (modify f) [trace] [].
Proof. intros Hf w. exists trace. split; [apply Hf|]. simpl. set_solver. Qed.

Lemma writes_gets {A} gid (f : @World Stats → A) : writes gid (gets f) [[]] [].
Proof. intros w. exists []. split; [apply extends_refl|]. simpl. set_solver. Qed.

Lemma writes_ret {A} gid (a : A) : writes gid (mret a) [[]] [].
Proof. intros w. exists []. split; [apply extends_refl|]. simpl. set_solver. Qed.

(** A rejected call writes nothing and throws. *)
Definition if_rejected (fault : option string) : list (list GenStatus) :=
  match fault with Some _ => [[]] | None => [] end.

Definition if_accepted (fault : option string) : list (list GenStatus) :=
  match fault with Some _ => [] | None => [[]] end.

Lemma writes_may_fail gid fault :
  writes gid (may_fail fault) (if_accepted fault) (if_rejected fault).
Proof.
  intros w. exists []. destruct fault; simpl;
    (split; [apply extends_refl|set_solver]).
Qed.

Lemma writes_update gid fault u st :
  u_status u = st →
  writes gid (WrappedGenerationModel_update fault gid u)
    (cat_all (if_accepted fault) [from_option (λ s, [s]) [] st])
    (if_rejected fault ++ cat_all (if_accepted fault) []).
Proof.
  intros <-. unfold WrappedGenerationModel_update.
  apply writes_bind; [apply writes_may_fail|]. intros _.
  apply writes_modify. intros w. apply record_update_extends.
Qed.

Lemma writes_logger gid l : writes gid (logger l) [[]] [].
Proof.
  apply writes_modify. intros w. by apply extends_quiet.
Qed.

Lemma writes_for_users gid year i users :
  writes gid (for_users stmt env gid year i users) [[]] [[]].
Proof.
  intros w. exists []. split; [apply for_users_quiet|].
  destruct (is_ok _); set_solver.
Qed.

Lemma writes_fetch gid fault userIds :
  writes gid (fetch_users fault userIds)
    (cat_all (if_accepted fault) (cat_all [[]] [[]]))
    (if_rejected fault ++ cat_all (if_accepted fault) ([] ++ cat_all [[]] [])).
Proof.
  unfold fetch_users.
  apply writes_bind; [apply writes_may_fail|]. intros _.
  apply writes_bind; [apply writes_gets|]. intros w. apply writes_ret.
Qed.

(** The status sequences [generateWrappedStats] can write to its record,
    as a function of the calls that are rejected. *)
Lemma generate_writes gid year userIds :
  ∃ oks errs,
    writes gid (generateWrappedStats stmt env gid year userIds) oks errs
    ∧ (∀ trace, trace ∈ oks ++ errs →
         trace ∈ [[processing; completed]; [processing; failed];
                  [processing]; [failed]; []])
    ∧ ((∀ p, update_fault env p = None) →
         ∀ trace, trace ∈ oks ++ errs →
           trace = [processing; completed] ∨ trace = [processing; failed]).
Proof.
  eexists. eexists. split.
  { unfold generateWrappedStats.
    apply writes_try_catch.
    - apply writes_bind;
        [by apply (writes_update _ _ _ (Some processing))|]. intros _.
      apply writes_bind; [apply writes_fetch|]. intros users.
      apply writes_bind; [by apply (writes_update _ _ _ None)|]. intros _.
      apply writes_bind;
        [apply writes_modify; intros w; by apply extends_quiet|]. intros _.
      apply writes_bind; [apply writes_for_users|]. intros _.
      apply writes_bind; [apply writes_gets|]. intros n_successful.
      apply writes_bind; [apply writes_gets|]. intros n_failed.
      apply writes_bind;
        [by apply (writes_update _ _ _ (Some completed))|]. intros _.
      apply writes_logger.
    - intros e.
      apply writes_bind; [apply writes_logger|]. intros _.
      by apply (writes_update _ _ _ (Some failed)). }
  split.
  - intros trace. simpl.
    destruct (update_fault env MarkProcessing), (fetch_fault env),
      (update_fault env SetTotal), (update_fault env MarkCompleted),
      (update_fault env MarkFailed); simpl; intros H; elem_cases H;
      apply list_elem_of_In; simpl; auto 10.
  - intros Hupd trace. rewrite !Hupd. simpl.
    destruct (fetch_fault env); simpl; intros H; elem_cases H; auto.
Qed.

(** The state in which the job starts: the record has just been created. *)
Definition created (year : Z) (admin : string) (w : @World Stats)
    : @World Stats :=
  let id := w_next_generation_id w in
  set_history (w_history w ++ [(id, pending)])
    (set_next_generation_id (id + 1)
       (set_generations
          (insert id (mkGeneration id year pending None None 0 0 0 0 None admin))
          w)).

Lemma post_generate_state year userIds admin w :
  (post_generate stmt env year userIds admin w).2 =
  match create_fault env with
  | Some _ => w
  | None =>
      (generateWrappedStats stmt env (w_next_generation_id w)
         (target_year env year) userIds
         (created (target_year env year) admin w)).2
  end.
Proof.
  unfold post_generate, WrappedGenerationModel_create. run_M.
  destruct (create_fault env); simpl; [done|].
  fold (created (target_year env year) admin w).
  by destruct (generateWrappedStats _ _ _ _ _ _) as [[[]|e] w2].
Qed.

Lemma created_extends year admin w :
  w_history (created year admin w)
    = w_history w ++ [(w_next_generation_id w, pending)]
  ∧ status_of (created year admin w) (w_next_generation_id w) = Some pending
  ∧ (∀ j, j ≠ w_next_generation_id w →
       status_of (created year admin w) j = status_of w j).
Proof.
  unfold created, status_of. simpl. split_and!; [done|..].
  - by rewrite lookup_insert_eq.
  - intros j Hj. by rewrite lookup_insert_ne.
Qed.

(** Every status sequence a generation request can leave behind for its
    record, rejected calls included. *)
Lemma status_traces_of_a_request year userIds admin w :
  let gid := w_next_generation_id w in
  let w' := (post_generate stmt env year userIds admin w).2 in
  ∃ trace,
    w_history w' = w_history w ++ ((λ s, (gid, s)) <$> trace)
    ∧ (∀ j, j ≠ gid → status_of w' j = status_of w j)
    ∧ trace ∈ [[pending; processing; completed]; [pending; processing; failed];
               [pending; processing]; [pending; failed]; [pending]; []]
    ∧ (create_fault env = None →
         status_of w' gid = Some (List.last trace pending))
    ∧ (create_fault env = None → (∀ p, update_fault env p = None) →
         trace = [pending; processing; completed]
         ∨ trace = [pending; processing; failed]).
Proof.
  intros gid w'. subst gid w'. rewrite post_generate_state.
  set (gid := w_next_generation_id w).
  destruct (create_fault env) as [e|] eqn:Hc.
  { exists []. simpl. rewrite app_nil_r. split_and!; try done.
    apply list_elem_of_In; simpl; auto 10. }
  destruct (created_extends (target_year env year) admin w) as (Hh & Hs & Ho).
  destruct (generate_writes gid (target_year env year) userIds)
    as (oks & errs & Hw & Hall & Hgood).
  destruct (Hw (created (target_year env year) admin w))
    as (trace & (Hh2 & Ho2 & Hs2) & Hin).
  assert (Hin' : trace ∈ oks ++ errs).
  { apply elem_of_app. destruct (is_ok _); auto. }
  exists (pending :: trace). fold gid in Hh, Hs, Ho |- *. split_and!.
  - rewrite Hh2, Hh. simpl. by rewrite <- app_assoc.
  - intros j Hj. by rewrite Ho2, Ho.
  - apply Hall in Hin'. elem_cases Hin'; apply list_elem_of_In; simpl; auto 10.
  - intros _. rewrite (Hs2 _ Hs). f_equal.
    apply Hall in Hin'. by elem_cases Hin'.
  - intros _ Hupd. by destruct (Hgood Hupd _ Hin') as [-> | ->]; [left|right].
Qed.

(** C4. The lifecycle of a generation record. Whatever the surroundings
    do, the statuses a request writes go to its own record only, are
    written by the orchestrator's own calls (the engine is a function that
    never sees the store) and are among pending, processing, completed and
    failed; and when the store accepts the writes to the record, the record
    is written pending, then processing, then exactly one of completed and
    failed, which is the status it keeps. *)
Theorem generation_lifecycle
    (year : option Z) (userIds : option (list Z)) (admin : string)
    (w : @World Stats) :
  let gid := w_next_generation_id w in
  let w' := (post_generate stmt env year userIds admin w).2 in
  (∃ trace,
     w_history w' = w_history w ++ ((λ s, (gid, s)) <$> trace)
     ∧ Forall (λ s, s ∈ [pending; processing; completed; failed]) trace
     ∧ ∀ j, j ≠ gid → status_of w' j = status_of w j)
  ∧ (create_fault env = None → (∀ p, update_fault env p = None) →
       ∃ final,
         (final = completed ∨ final = failed)
         ∧ w_history w' = w_history w
             ++ [(gid, pending); (gid, processing); (gid, final)]
         ∧ status_of w' gid = Some final).
Proof.
  intros gid w'.
  destruct (status_traces_of_a_request year userIds admin w)
    as (trace & Hh & Ho & Hin & Hlast & Hgood).
  fold gid in Hh, Ho, Hlast. fold w' in Hh, Ho, Hlast. split.
  - exists trace. split_and!; [done| |done].
    elem_cases Hin; repeat constructor; apply list_elem_of_In; simpl; auto.
  - intros Hc Hupd. specialize (Hlast Hc).
    destruct (Hgood Hc Hupd) as [-> | ->].
    + exists completed. auto.
    + exists failed. auto.
Qed.

(** C1. A user whose statistics cannot be computed or persisted does not
    abort the batch. Whatever the engine, the statistics store and the token
    store answer for each user, a run whose bookkeeping calls and user
    query are accepted ends with the record 'completed'; every selected
    user has been processed, in order, each with one logged outcome, and
    the outcome of a user is the outcome of its own work on the stores the
    users before it have left, whatever happened to them: a user whose
    computation or persistence failed is recorded as failed, a user for
    whom the engine answers and both stores accept is recorded as
    successful, and the statistics and the tokens at the end are those the
    successful users wrote, so every successful user has its token at the
    end; and the record carries the number of successful and of failed
    users, which add up to the number of users. *)
Theorem partial_failure_keeps_the_batch_going
    (year : option Z) (userIds : option (list Z)) (admin : string)
    (w : @World Stats) :
  bookkeeping_ok → fetch_fault env = None →
  let users := select_users w userIds in
  let gid := w_next_generation_id w in
  ∃ (oks : list bool) (lines : list LogLine) resp (w' : @World Stats) g,
    post_generate stmt env year userIds admin w = (Ok resp, w')
    ∧ w_log w' = w_log w ++ lines
    ∧ length oks = length users
    ∧ omap user_outcome lines = zip (user_id <$> users) oks
    ∧ (∀ k u, users !! k = Some u →
         user_fails k u (target_year env year) → oks !! k = Some false)
    ∧ outcomes gid (target_year env year) 0 users (stores_of w)
      = (oks, stores_of w')
    ∧ (∀ k u, users !! k = Some u → oks !! k = Some true →
         served (target_year env year) k u (w_tokens w'))
    ∧ w_generations w' !! gid = Some g
    ∧ g_status g = completed
    ∧ g_total_users g = Z.of_nat (length users)
    ∧ g_successful_users g = tally true oks
    ∧ g_failed_users g = tally false oks
    ∧ g_successful_users g + g_failed_users g = g_total_users g.
Proof.
  intros (Hcreate & Hupd & Hinc) Hfetch users gid.
  unfold post_generate, generateWrappedStats, WrappedGenerationModel_create,
    WrappedGenerationModel_update, record_update, fetch_users.
  rewrite Hcreate, !Hupd, Hfetch. run_M.
  set (g0 := mkGeneration _ _ _ _ _ _ _ _ _ _ _).
  repeat match goal with
  | |- context [select_users ?x userIds] =>
      lazymatch x with
      | w => fail
      | _ => rewrite (select_users_ext x w userIds) by reflexivity
      end
  end.
  fold users.
  set (w0 := set_counters 0 0 _).
  destruct (for_users_spec (w_next_generation_id w) (target_year env year)
              users 0%nat w0 Hinc)
    as (oks & lines & w2 & Hrun & Hlen & Hlog & Hout & Hs & Hf & Hh
        & Hu & Hn & Hother & Hrow & Hfails & Hexact).
  fold users. rewrite Hrun. simpl.
  destruct (Hrow (apply_update
                    (mkGenUpdate None None None
                       (Some (Z.of_nat (length users))) None None None)
                    (apply_update
                       (mkGenUpdate (Some processing) (Some (started_now env))
                          None None None None None) g0)))
    as (g' & Hg' & Hb).
  { subst w0; simpl. rewrite !lookup_alter_eq, lookup_insert_eq. done. }
  destruct Hb as (Hst & Htot & _).
  assert (Hstores : stores_of w0 = stores_of w) by reflexivity.
  rewrite Hstores in Hexact.
  eexists oks, (lines ++ [_]), _, _, _. split; [reflexivity|].
  split_and!; simpl.
  - rewrite Hlog. subst w0; simpl. by rewrite app_assoc.
  - done.
  - rewrite omap_app, Hout. simpl. by rewrite app_nil_r.
  - intros k u Hk Hfail. by apply (Hfails k u Hk).
  - exact Hexact.
  - intros k u Hk Hok.
    apply (outcomes_served _ _ _ _ _ _ _ Hexact k u Hk Hok).
  - rewrite lookup_alter_eq, Hg'. reflexivity.
  - done.
  - simpl. rewrite Htot. done.
  - simpl. rewrite Hs. subst w0; simpl. lia.
  - simpl. rewrite Hf. subst w0; simpl. lia.
  - simpl. rewrite Hs, Hf, Htot. subst w0; simpl.
    pose proof (tally_total oks). lia.
Qed.

End OrchestratorFacts.

(** A run in which the history source fails for the second of three
    users: the record ends 'completed' with two successes and one failure. *)
Example partial_failure_example :
  let w := (Orchestrator.post_generate Demo.plain_insert Demo.env
              (Some 2025) None "admin" Demo.world).2 in
  (λ g, (Orchestrator.g_status g, Orchestrator.g_total_users g,
         Orchestrator.g_successful_users g, Orchestrator.g_failed_users g))
    <$> Orchestrator.w_generations w !! 1
  = Some (Orchestrator.completed, 3, 2, 1)
  ∧ omap user_outcome (Orchestrator.w_log w)
    = [(1, true); (2, false); (3, true)].
Proof. vm_compute. done. Qed.

Lemma partial_failure_keeps_the_batch_going_witness :
  ∃ g,
    Orchestrator.w_generations
      (Orchestrator.post_generate Demo.plain_insert Demo.env (Some 2025) None
         "admin" Demo.world).2 !! 1 = Some g
    ∧ Orchestrator.g_status g = Orchestrator.completed
    ∧ Orchestrator.g_successful_users g = 2
    ∧ Orchestrator.g_failed_users g = 1
    ∧ Orchestrator.sr_user_id
        <$> Orchestrator.w_stats
              (Orchestrator.post_generate Demo.plain_insert Demo.env
                 (Some 2025) None "admin" Demo.world).2
      = [1; 3]
    ∧ Orchestrator.tk_user_id
        <$> Orchestrator.w_tokens
              (Orchestrator.post_generate Demo.plain_insert Demo.env
                 (Some 2025) None "admin" Demo.world).2
      = [1; 3].
Proof.
  destruct (partial_failure_keeps_the_batch_going Demo.plain_insert Demo.env
              (Some 2025) None "admin" Demo.world)
    as (oks & lines & resp & w' & g & Hrun & _ & _ & _ & _ & Hexact & _ & Hg
        & Hst & _ & Hok & Hfailed & _).
  - repeat split; reflexivity.
  - reflexivity.
  - destruct w' as [us gens nextg stats nexts tokens history log ns nf].
    vm_compute in Hexact.
    injection Hexact as Hoks Hstats _ Htokens. subst oks stats tokens.
    exists g. rewrite Hrun. split_and!; try assumption; reflexivity.
Defined.

(** The same user named twice in a request: the job issues both writes,
    the store refuses the second, and the table holds one row. *)
Example second_row_is_refused_by_the_store :
  let w := (Orchestrator.post_generate Demo.plain_insert Demo.calm_env
              (Some 2025) (Some [1; 1]) "admin" Demo.world).2 in
  Orchestrator.user_year <$> Orchestrator.w_stats w = [(1, 2025)]
  ∧ omap user_outcome (Orchestrator.w_log w) = [(1, true); (1, false)].
Proof. vm_compute. done. Qed.

Lemma one_stats_row_per_user_and_year_witness :
  one_row_per_user_year
    (Orchestrator.post_generate Demo.plain_insert Demo.calm_env (Some 2025)
       (Some [1; 1]) "admin" Demo.world).2.
Proof.
  apply (proj2 (proj2 (one_stats_row_per_user_and_year Demo.plain_insert
                         Demo.calm_env))).
  unfold one_row_per_user_year, Orchestrator.unique_user_year. simpl.
  constructor.
Defined.

Lemma generation_lifecycle_witness :
  ∃ final,
    (final = Orchestrator.completed ∨ final = Orchestrator.failed)
    ∧ Orchestrator.w_history
        (Orchestrator.post_generate Demo.plain_insert Demo.env (Some 2025)
           None "admin" Demo.world).2
      = [(1, Orchestrator.pending); (1, Orchestrator.processing); (1, final)]
    ∧ status_of
        (Orchestrator.post_generate Demo.plain_insert Demo.env (Some 2025)
           None "admin" Demo.world).2 1
      = Some final.
Proof.
  apply (proj2 (generation_lifecycle Demo.plain_insert Demo.env (Some 2025)
                  None "admin" Demo.world)).
  - reflexivity.
  - intros p. reflexivity.
Defined.

(** When the store rejects the write of 'processing' itself, the handler
    of the job marks the record failed: the record then goes from pending
    to failed. *)
Example rejected_processing_write :
  Orchestrator.w_history
    (Orchestrator.post_generate Demo.plain_insert Demo.stuck_env (Some 2025)
       None "admin" Demo.world).2
  = [(1, Orchestrator.pending); (1, Orchestrator.failed)].
Proof. vm_compute. done. Qed.

(** * Facts about the translation service *)

Section I18nFacts.

Import Js I18n.

Variable B : Builtins.

(** Behind the guard of the loop, neither [in] nor the property read can
    throw. *)
Lemma guarded_lookup_ok k v :
  truthy v = true → js_typeof v = "object" →
  (∃ b, has_property B k v = Ok b) ∧ (∃ v', get_property B v k = Ok v').
Proof.
  intros Ht Hty. destruct v; simpl in *; try discriminate; split; eauto;
    repeat (first [case_bool_decide | case_match]; simpl); eauto.
Qed.

Lemma navigate_ok keys : ∀ v, ∃ r, navigate B keys v = Ok r.
Proof.
  induction keys as [|k keys IH]; intros v; simpl; [eauto|].
  destruct (truthy v) eqn:Ht; simpl; [|eauto].
  case_bool_decide as Hty; [|eauto].
  destruct (guarded_lookup_ok k v Ht Hty) as [[b ->] [v' ->]].
  destruct b; [apply IH|eauto].
Qed.

Lemma navigate_resolves keys : ∀ v r,
  navigate B keys v = Ok (Some r) ↔ resolves B keys v r.
Proof.
  induction keys as [|k keys IH]; intros v r; simpl.
  - split.
    + intros [= ->]. constructor.
    + inversion 1. done.
  - split.
    + destruct (truthy v) eqn:Ht; simpl; [|discriminate].
      case_bool_decide as Hty; [|discriminate].
      destruct (has_property B k v) as [[]|] eqn:Hin; try discriminate.
      destruct (get_property B v k) as [v'|] eqn:Hget; try discriminate.
      intros Hnav. apply IH in Hnav. by econstructor.
    + inversion 1 as [|? ? ? v' ? Ht Hty Hin Hget Hres]; subst.
      rewrite Ht. simpl. rewrite bool_decide_eq_true_2 by done.
      rewrite Hin, Hget. by apply IH.
Qed.

Variable translations : gmap string JsVal.

Lemma table_for_fallback locale :
  translations !! locale = None →
  table_for translations locale = table_for translations defaultLocale.
Proof.
  intros Hnone. unfold table_for. rewrite Hnone.
  destruct (translations !! defaultLocale) as [t0|] eqn:Hd; [|done].
  by destruct (truthy t0).
Qed.

(** *** Any parameter map *)

(** [String] converts the value without throwing. *)
Definition converts (v : Param) : Prop := ∃ text, js_String_any v = Ok text.

Lemma primitives_convert (p : Prim) :
  js_String_any (of_prim p) = Ok (js_String B (prim_val p)).
Proof. by destruct p as [| |[]| |]. Qed.

Lemma find_of_prims (params : list (string * Prim)) key :
  List.find (λ kv, bool_decide (kv.1 = key)) (prod_map id of_prim <$> params)
  = prod_map id of_prim
      <$> List.find (λ kv, bool_decide (kv.1 = key)) params.
Proof.
  induction params as [|[k v] params IH]; simpl; [done|].
  case_bool_decide; simpl; [done|]. exact IH.
Qed.

(** On a map of primitives the service is the one the other modules
    use. *)
Lemma replacement_of_prims (params : list (string * Prim)) key :
  replacement_any B (prod_map id of_prim <$> params) key
  = Ok (replacement B params key).
Proof.
  unfold replacement_any, replacement, object_get, own_property.
  rewrite find_of_prims.
  induction params as [|[k v] params IH]; simpl.
  - by destruct (inherited_from_object B key).
  - case_bool_decide; simpl; [|exact IH].
    by destruct v as [| |[]| |].
Qed.

Lemma replace_of_prims (params : list (string * Prim)) template :
  ∀ pending,
    replace_placeholders_any B (prod_map id of_prim <$> params) pending
      template
    = Ok (replace_placeholders B params pending template).
Proof.
  induction template as [|c rest IH]; intros pending; simpl.
  - by destruct pending.
  - destruct pending as [name|].
    + destruct (is_word_char c); [apply IH|].
      destruct (bool_decide (c = "}"%char) && negb (bool_decide (name = ""))).
      * by rewrite replacement_of_prims, IH.
      * case_bool_decide; by rewrite IH.
    + case_bool_decide; by rewrite IH.
Qed.

Lemma translate_of_prims key locale (params : option (list (string * Prim))) :
  translate_any B translations key locale
    (fmap (M := list) (prod_map id of_prim) <$> params)
  = translate B translations key locale params.
Proof.
  unfold translate_any, translate.
  destruct (table_for _ _) as [table|]; [|done].
  destruct (truthy table); simpl; [|done].
  destruct (navigate B (split_dots key) table) as [[v|]|e]; try done.
  destruct v; try done. destruct params as [p|]; [|done]. simpl.
  apply replace_of_prims.
Qed.

Lemma replacement_any_ok (params : list (string * Param)) key :
  Forall (λ kv, converts kv.2) params →
  ∃ text, replacement_any B params key = Ok text.
Proof.
  intros Hc. unfold replacement_any.
  destruct (List.find _ params) as [[k v]|] eqn:Hfind.
  - apply find_some in Hfind as [Hin _].
    apply list_elem_of_In in Hin.
    rewrite list.Forall_forall in Hc. specialize (Hc _ Hin). simpl in Hc.
    destruct Hc as [text Htext]. destruct v; eauto.
  - destruct (inherited_from_object B key); eauto.
Qed.

Lemma replace_any_ok (params : list (string * Param)) template :
  Forall (λ kv, converts kv.2) params →
  ∀ pending,
    ∃ text, replace_placeholders_any B params pending template = Ok text.
Proof.
  intros Hc. induction template as [|c rest IH]; intros pending; simpl.
  - destruct pending; eauto.
  - destruct pending as [name|].
    + destruct (is_word_char c); [apply IH|].
      destruct (bool_decide (c = "}"%char) && negb (bool_decide (name = ""))).
      * destruct (replacement_any_ok params name Hc) as [value ->].
        destruct (IH None) as [text ->]. eauto.
      * case_bool_decide.
        -- destruct (IH (Some "")) as [text ->]. eauto.
        -- destruct (IH None) as [text ->]. eauto.
    + case_bool_decide; [apply IH|].
      destruct (IH None) as [text ->]. eauto.
Qed.

(** C8. [translate] returns a string and does not throw for every key,
    every locale and every parameter map whose values [String] converts,
    as it converts every primitive. A locale whose table is not loaded is
    served from the table of the default locale: a key whose segments
    lead to a string there gets that string, with its placeholders filled
    in from the parameters. In general, when the segments of the key
    lead, through the table in use, to a string, the result is that
    string with its placeholders filled in; and unless they do, the
    string returned is the key itself. On a map of primitives the result
    is the one of [translate] on primitives. *)
Theorem translate_total_with_fallbacks
    (key : string) (locale : option string)
    (params : option (list (string * Param))) :
  let filled template :=
    match params with
    | Some p => interpolate_any B template p
    | None => Ok template
    end in
  ((∀ p, params = Some p → Forall (λ kv, converts kv.2) p) →
   ∃ s, translate_any B translations key locale params = Ok s)
  ∧ (translations !! default defaultLocale locale = None →
     translate_any B translations key locale params
     = translate_any B translations key (Some defaultLocale) params)
  ∧ (∀ table template,
       translations !! default defaultLocale locale = None →
       translations !! defaultLocale = Some table →
       truthy table = true →
       resolves B (split_dots key) table (JStr template) →
       translate_any B translations key locale params = filled template)
  ∧ (∀ table template,
       table_for translations (default defaultLocale locale) = Some table →
       truthy table = true →
       resolves B (split_dots key) table (JStr template) →
       translate_any B translations key locale params = filled template)
  ∧ ((∀ table template,
        table_for translations (default defaultLocale locale) = Some table →
        ¬ resolves B (split_dots key) table (JStr template)) →
     translate_any B translations key locale params = Ok key)
  ∧ (∀ p, params = Some (prod_map id of_prim <$> p) →
       translate_any B translations key locale params
       = translate B translations key locale (Some p)).
Proof.
  intros filled.
  assert (Hresolved : ∀ table template,
            table_for translations (default defaultLocale locale) = Some table →
            truthy table = true →
            resolves B (split_dots key) table (JStr template) →
            translate_any B translations key locale params = filled template).
  { intros table template Ht Htr Hres. unfold translate_any.
    rewrite Ht, Htr. simpl. apply navigate_resolves in Hres.
    by rewrite Hres. }
  split_and!.
  - intros Hc. unfold translate_any.
    destruct (table_for _ _) as [table|]; [|eauto].
    destruct (truthy table); simpl; [|eauto].
    destruct (navigate_ok (split_dots key) table) as [[v|] ->]; [|eauto].
    destruct v; eauto. destruct params as [p|]; [|eauto].
    apply replace_any_ok. by apply Hc.
  - intros Hnone. unfold translate_any. simpl.
    by rewrite (table_for_fallback _ Hnone).
  - intros table template Hnone Hdefault Htr Hres.
    apply (Hresolved table template); [|done..].
    rewrite (table_for_fallback _ Hnone). unfold table_for.
    by rewrite Hdefault, Htr.
  - exact Hresolved.
  - intros Hno. unfold translate_any.
    destruct (table_for _ _) as [table|]; [|done].
    destruct (truthy table); simpl; [|done].
    destruct (navigate B (split_dots key) table) as [[v|]|e] eqn:Hnav.
    + destruct v; try done. exfalso.
      apply (Hno table s eq_refl). by apply navigate_resolves.
    + done.
    + destruct (navigate_ok (split_dots key) table) as [r Hr]. congruence.
  - intros p ->. apply (translate_of_prims key locale (Some p)).
Qed.

(** When the segments of the key do lead to a string, that string is
    returned, with its placeholders filled in if parameters were given. *)
Lemma translate_resolved key locale params table template :
  table_for translations (default defaultLocale locale) = Some table →
  truthy table = true →
  resolves B (split_dots key) table (JStr template) →
  translate B translations key locale params
  = Ok (match params with
        | Some p => interpolate B template p
        | None => template
        end).
Proof.
  intros Ht Htr Hres. unfold translate. rewrite Ht, Htr. simpl.
  apply navigate_resolves in Hres. rewrite Hres. by destruct params.
Qed.

End I18nFacts.

Example translate_examples :
  I18n.translate Demo.builtins Demo.translations "email.subject" (Some "en")
    (Some [("year", Js.PNum 2025); ("name", Js.PStr "Ann")])
  = Ok "Your 2025 Unwrapped is here, Ann!"
  ∧ I18n.translate Demo.builtins Demo.translations "email.subject" (Some "sl")
      (Some [("year", Js.PNum 2025)])
    = Ok "Your 2025 Unwrapped is here, {name}!"
  ∧ I18n.translate Demo.builtins Demo.translations "email.title" None None
    = Ok "email.title"
  ∧ I18n.translate Demo.builtins Demo.translations "email" None None
    = Ok "email"
  ∧ I18n.translate Demo.builtins Demo.translations "email.tags.1" None None
    = Ok "b"
  ∧ I18n.translate Demo.builtins Demo.translations "email.tags.length" None
      None
    = Ok "email.tags.length"
  ∧ I18n.translate Demo.builtins Demo.translations "email.toString.name" None
      None
    = Ok "email.toString.name"
  ∧ I18n.translate Demo.builtins ∅ "email.subject" (Some "fr") None
    = Ok "email.subject".
Proof. vm_compute. done. Qed.

(** A French reader, whose table is not loaded, gets the English subject
    with the parameters filled in. *)
Lemma translate_total_with_fallbacks_witness :
  I18n.translate_any Demo.builtins Demo.translations "email.subject"
    (Some "fr")
    (Some [("year", I18n.ParamNum 2025);
           ("name", I18n.ParamArr [I18n.ParamStr "Ann"; I18n.ParamStr "Bob"])])
  = Ok "Your 2025 Unwrapped is here, Ann,Bob!"
  ∧ I18n.translate_any Demo.builtins Demo.translations "email.title"
      (Some "fr") None
    = Ok "email.title".
Proof.
  split.
  - destruct (translate_total_with_fallbacks Demo.builtins Demo.translations
                "email.subject" (Some "fr")
                (Some [("year", I18n.ParamNum 2025);
                       ("name", I18n.ParamArr [I18n.ParamStr "Ann";
                                               I18n.ParamStr "Bob"])]))
      as (_ & _ & Hserved & _).
    rewrite (Hserved
               (Js.JObj
                  [("email",
                    Js.JObj
                      [("subject",
                        Js.JStr "Your {year} Unwrapped is here, {name}!");
                       ("tags", Js.JArr [Js.JStr "a"; Js.JStr "b"])])])
               "Your {year} Unwrapped is here, {name}!").
    + vm_compute. reflexivity.
    + vm_compute. reflexivity.
    + vm_compute. reflexivity.
    + reflexivity.
    + apply navigate_resolves. vm_compute. reflexivity.
  - destruct (translate_total_with_fallbacks Demo.builtins Demo.translations
                "email.title" (Some "fr") None) as (_ & _ & _ & _ & Hkey & _).
    apply Hkey. intros table template Htable Hres.
    apply navigate_resolves in Hres.
    vm_compute in Htable. injection Htable as <-.
    vm_compute in Hres. discriminate.
Defined.

(** A parameter that is an object with a [toString] property of its own:
    the conversion throws, and so does [translate]. *)
Lemma translate_throws_on_a_parameter_without_text :
  I18n.translate_any Demo.builtins Demo.translations "email.subject"
    (Some "en")
    (Some [("year", I18n.ParamObj [("toString", I18n.ParamNum 1)])])
  = Err "TypeError: Cannot convert object to primitive value"
  ∧ ¬ ∃ s,
        I18n.translate_any Demo.builtins Demo.translations "email.subject"
          (Some "en")
          (Some [("year", I18n.ParamObj [("toString", I18n.ParamNum 1)])])
        = Ok s.
Proof.
  split.
  - vm_compute. reflexivity.
  - intros [s Hs]. vm_compute in Hs. discriminate.
Qed.


(** * Facts about the locale of the wrapped page *)

Section LocaleFacts.

Import Locale.

Variable locales : list string.
Variable defaultLocale : string.

Lemma supported_dec (l : option string) :
  supported locales l ∨ ¬ supported locales l.
Proof.
  destruct l as [s|]; [|right; by intros (? & ? & _)].
  destruct (decide (s = "")) as [->|Hne]; [right; intros (? & [= <-] & ? & _); done|].
  destruct (decide (s ∈ locales)) as [Hin|Hnin].
  - left. by exists s.
  - right. intros (? & [= <-] & _ & ?). done.
Qed.

Lemma getLocaleFromURL_spec searchParams :
  (supported locales (from_url searchParams)
   ∧ getLocaleFromURL locales searchParams = from_url searchParams)
  ∨ (¬ supported locales (from_url searchParams)
     ∧ getLocaleFromURL locales searchParams = None).
Proof.
  unfold getLocaleFromURL, from_url, includes, supported.
  destruct (searchParams_get searchParams "lang") as [s|];
    [|right; split; [by intros (? & ? & _)|done]].
  repeat case_bool_decide; simpl.
  - right. split; [|done]. intros (? & [= <-] & ? & _). done.
  - right. split; [|done]. intros (? & [= <-] & ? & _). done.
  - left. split; [|done]. by exists s.
  - right. split; [|done]. intros (? & [= <-] & _ & ?). done.
Qed.

Lemma getLocaleFromStorage_spec window :
  (supported locales (from_storage window)
   ∧ getLocaleFromStorage locales window = from_storage window)
  ∨ (¬ supported locales (from_storage window)
     ∧ getLocaleFromStorage locales window = None).
Proof.
  unfold getLocaleFromStorage, from_storage, includes, supported.
  destruct window as [win|]; simpl;
    [|right; split; [by intros (? & ? & _)|done]].
  destruct (preferredLanguage win) as [s|];
    [|right; split; [by intros (? & ? & _)|done]].
  repeat case_bool_decide; simpl.
  - right. split; [|done]. intros (? & [= <-] & ? & _). done.
  - right. split; [|done]. intros (? & [= <-] & ? & _). done.
  - left. split; [|done]. by exists s.
  - right. split; [|done]. intros (? & [= <-] & _ & ?). done.
Qed.

Lemma getLocaleFromBrowser_spec window :
  (supported locales (from_browser window)
   ∧ Some (getLocaleFromBrowser locales defaultLocale window)
     = from_browser window)
  ∨ (¬ supported locales (from_browser window)
     ∧ or_else (Some (getLocaleFromBrowser locales defaultLocale window))
         (Some defaultLocale) = Some defaultLocale).
Proof.
  unfold getLocaleFromBrowser, from_browser, includes, supported, or_else.
  destruct window as [win|]; simpl.
  2:{ right. split; [by intros (? & ? & _)|]. by case_bool_decide. }
  set (l := before_dash (navigator_language win)).
  destruct (decide (l = "")) as [Hl|Hl].
  { right. split; [intros (? & [= <-] & ? & _); done|].
    rewrite Hl. by repeat case_bool_decide. }
  case_bool_decide as Hin.
  - left. split; [|done]. by exists l.
  - right. split; [intros (? & [= <-] & _ & ?); done|]. by case_bool_decide.
Qed.

(** C9. [determineLocale] returns a supported locale, by the precedence
    URL parameter, stored preference, browser language, default: the
    first of the three sources that offers a non-empty member of the
    supported list decides, a value that is not in the list is passed over,
    and when no source offers one the default locale is returned; so the
    result is in the supported list as soon as the default locale is. *)
Theorem determineLocale_precedence
    (window : option Window) (searchParams : list (string * string)) :
  let result := determineLocale locales defaultLocale window searchParams in
  (supported locales (from_url searchParams) →
     Some result = from_url searchParams)
  ∧ (¬ supported locales (from_url searchParams) →
     supported locales (from_storage window) →
     Some result = from_storage window)
  ∧ (¬ supported locales (from_url searchParams) →
     ¬ supported locales (from_storage window) →
     supported locales (from_browser window) →
     Some result = from_browser window)
  ∧ (¬ supported locales (from_url searchParams) →
     ¬ supported locales (from_storage window) →
     ¬ supported locales (from_browser window) →
     result = defaultLocale)
  ∧ (defaultLocale ∈ locales → result ∈ locales).
Proof.
  intros result.
  assert (Hor : ∀ a b, supported locales a → or_else a b = a).
  { intros a b (s & -> & Hs & _). unfold or_else. by case_bool_decide. }
  assert (Hnone : ∀ b, or_else None b = b) by done.
  assert (Hcases :
    (supported locales (from_url searchParams)
       ∧ Some result = from_url searchParams)
    ∨ (¬ supported locales (from_url searchParams)
       ∧ supported locales (from_storage window)
       ∧ Some result = from_storage window)
    ∨ (¬ supported locales (from_url searchParams)
       ∧ ¬ supported locales (from_storage window)
       ∧ supported locales (from_browser window)
       ∧ Some result = from_browser window)
    ∨ (¬ supported locales (from_url searchParams)
       ∧ ¬ supported locales (from_storage window)
       ∧ ¬ supported locales (from_browser window)
       ∧ result = defaultLocale)).
  { subst result. unfold determineLocale.
    destruct (getLocaleFromURL_spec searchParams) as [[Hu Eu]|[Hu Eu]].
    { left. split; [done|]. rewrite Eu, Hor by done.
      by destruct Hu as (s & -> & _). }
    right. rewrite Eu, Hnone.
    destruct (getLocaleFromStorage_spec window) as [[Hs Es]|[Hs Es]].
    { left. split_and!; try done. rewrite Es, Hor by done.
      by destruct Hs as (s & -> & _). }
    right. rewrite Es, Hnone.
    destruct (getLocaleFromBrowser_spec window) as [[Hb Eb]|[Hb Eb]].
    { left. split_and!; try done. rewrite Eb, Hor by done.
      by destruct Hb as (s & -> & _). }
    right. split_and!; try done. by rewrite Eb. }
  split_and!.
  - intros Hu. destruct Hcases as [[_ ?]|[[? _]|[[? _]|[? _]]]]; done.
  - intros Hu Hs. destruct Hcases as [[? _]|[(_ & _ & ?)|[(_ & ? & _)|(_ & ? & _)]]]; done.
  - intros Hu Hs Hb.
    destruct Hcases as [[? _]|[(_ & ? & _)|[(_ & _ & _ & ?)|(_ & _ & ? & _)]]]; done.
  - intros Hu Hs Hb.
    destruct Hcases as [[? _]|[(_ & ? & _)|[(_ & _ & ? & _)|(_ & _ & _ & ?)]]]; done.
  - intros Hd.
    destruct Hcases as [[H E]|[(_ & H & E)|[(_ & _ & H & E)|(_ & _ & _ & E)]]];
      try (destruct H as (s & Hs & _ & Hin); rewrite Hs in E;
           injection E as ->; done).
    by rewrite E.
Qed.

End LocaleFacts.

Example determineLocale_examples :
  let server := None in
  let browser stored language := Some (Locale.mkWindow stored language) in
  Locale.determineLocale Demo.locales "en" (browser (Some "es") "de-AT")
    [("lang", "fr")] = "fr"
  ∧ Locale.determineLocale Demo.locales "en" (browser (Some "es") "de-AT")
      [("lang", "xx")] = "es"
  ∧ Locale.determineLocale Demo.locales "en" (browser (Some "xx") "de-AT")
      [("page", "2")] = "de"
  ∧ Locale.determineLocale Demo.locales "en" (browser None "ja-JP") [] = "en"
  ∧ Locale.determineLocale Demo.locales "en" server [("lang", "")] = "en".
Proof. vm_compute. done. Qed.

Lemma determineLocale_precedence_witness :
  Some (Locale.determineLocale Demo.locales "en"
          (Some (Locale.mkWindow (Some "xx") "de-AT")) [("lang", "yy")])
  = Some "de"
  ∧ Locale.determineLocale Demo.locales "en"
      (Some (Locale.mkWindow (Some "xx") "de-AT")) [("lang", "yy")]
    ∈ Demo.locales.
Proof.
  destruct (determineLocale_precedence Demo.locales "en"
              (Some (Locale.mkWindow (Some "xx") "de-AT")) [("lang", "yy")])
    as (_ & _ & Hbrowser & _ & Hmember).
  split.
  - apply Hbrowser.
    + intros (s & [= <-] & _ & Hin). vm_compute in Hin.
      apply list_elem_of_In in Hin. simpl in Hin. intuition discriminate.
    + intros (s & [= <-] & _ & Hin).
      apply list_elem_of_In in Hin. simpl in Hin. intuition discriminate.
    + exists "de". split; [reflexivity|]. split; [discriminate|].
      apply list_elem_of_In. simpl. auto 10.
  - apply Hmember. apply list_elem_of_In. simpl. auto.
Defined.

(** * Facts about the email endpoint *)

Section EmailFacts.

Import Js Emails.

Variable env : Env.

(** C10. In test mode the endpoint answers success with [testMode] true
    and sends nothing. Test mode is in effect when the request says
    [testMode: true], or says nothing about it while the environment has
    TEST_MODE set to 'true'. Whatever generation and users the request
    names, the state after the call is the state before it with one line
    more in the application log: no row is added to or changed in
    [email_logs], no message reaches the SMTP server, and every table is as
    it was. *)
Theorem test_mode_sends_nothing
    (generationId : Z) (userIds : option (list Z)) (testMode : option JsVal)
    (w : World) :
  testMode = Some (JBool true)
  ∨ (testMode = None ∧ TEST_MODE env = Some "true") →
  ∃ resp w',
    post_emails_send env generationId userIds testMode w = (Ok resp, w')
    ∧ resp_success resp = true
    ∧ resp_testMode resp = Some true
    ∧ w' = set_log (w_log w ++ [LogTestMode]) w
    ∧ w_email_logs w' = w_email_logs w
    ∧ w_outbox w' = w_outbox w
    ∧ w_users w' = w_users w
    ∧ w_generations w' = w_generations w
    ∧ w_stats w' = w_stats w
    ∧ w_tokens w' = w_tokens w.
Proof.
  intros Hmode.
  assert (Ht : isTestMode env testMode = true).
  { destruct Hmode as [-> | [-> Henv]]; simpl; [done|].
    by apply bool_decide_eq_true. }
  unfold post_emails_send. rewrite Ht.
  eexists. eexists. split; [reflexivity|]. by split_and!.
Qed.

End EmailFacts.

(** Outside test mode the same request sends: one message for the user
    with an address, one row in [email_logs], marked sent. *)
Example live_mode_sends :
  let w := (Emails.post_emails_send Demo.live_email_env 7 None None
              Demo.email_world).2 in
  Emails.mail_to <$> Emails.w_outbox w = ["ann@example.org"]
  ∧ Emails.mail_subject <$> Emails.w_outbox w
    = ["Your 2025 Unwrapped is here, {name}!"]
  ∧ Emails.el_status <$> Emails.w_email_logs w = [Emails.email_sent].
Proof. vm_compute. done. Qed.

Lemma test_mode_sends_nothing_witness :
  ∃ resp w',
    Emails.post_emails_send Demo.email_env 7 (Some [1; 2]) None
      Demo.email_world = (Ok resp, w')
    ∧ Emails.resp_testMode resp = Some true
    ∧ Emails.w_email_logs w' = []
    ∧ Emails.w_outbox w' = [].
Proof.
  destruct (test_mode_sends_nothing Demo.email_env 7 (Some [1; 2]) None
              Demo.email_world)
    as (resp & w' & Hrun & _ & Hmode & _ & Hlogs & Hout & _).
  - right. split; reflexivity.
  - exists resp, w'. repeat split; assumption.
Defined.

(** * Facts about the fun facts of the page *)

Section FunFactsFacts.

Import Js FunFacts.

Variable t : string → list (string * Prim) → string.
Variable percent : Z → Z → Prim.

Lemma push_if_app (c : bool) (x : string) (facts : list string) :
  push_if c x facts = facts ++ (if c then [x] else []).
Proof. destruct c; simpl; [done|by rewrite app_nil_r]. Qed.

(** One rule of the table against one statement of the source. *)
Lemma fired_cons (rule : Stats → option string) rules stats piece rest :
  piece = from_option (λ x, [x]) [] (rule stats) →
  rest = omap (λ r, r stats) rules →
  piece ++ rest = omap (λ r, r stats) (rule :: rules).
Proof. intros -> ->. simpl. by destruct (rule stats). Qed.

Lemma generatedFacts_by_table (stats : Stats) :
  generatedFacts t percent stats
  = default [] (funFacts stats) ++ fired t percent stats.
Proof.
  unfold generatedFacts, fired, rule_table.
  set (original := default [] (funFacts stats)).
  replace (match funFacts stats with
           | Some o => [] ++ o
           | None => []
           end) with original by (subst original; by destruct (funFacts stats)).
  set (f1 := match mostActiveDayOfWeek stats with Some _ => _ | None => _ end).
  assert (E1 : f1 = original
                 ++ from_option (λ x, [x]) [] (rule_dayOfWeek t stats)).
  { subst f1. unfold rule_dayOfWeek.
    destruct (mostActiveDayOfWeek stats) as [day|]; simpl;
      [|by rewrite app_nil_r].
    rewrite push_if_app. by case_bool_decide. }
  rewrite E1. clear E1 f1.
  set (f2 := match topShows stats with _ :: _ => _ | [] => _ end).
  assert (E2 : f2 = (original
                       ++ from_option (λ x, [x]) [] (rule_dayOfWeek t stats))
                 ++ from_option (λ x, [x]) [] (rule_crushedEpisodes t stats)).
  { subst f2. unfold rule_crushedEpisodes.
    destruct (topShows stats) as [|show shows]; simpl;
      [by rewrite app_nil_r|].
    rewrite push_if_app. by case_bool_decide. }
  rewrite E2. clear E2 f2.
  set (f3 := match qualityStats stats with Some _ => _ | None => _ end).
  assert (E3 : f3 = ((original
                       ++ from_option (λ x, [x]) [] (rule_dayOfWeek t stats))
                      ++ from_option (λ x, [x]) []
                           (rule_crushedEpisodes t stats))
                 ++ from_option (λ x, [x]) []
                      (rule_originalQuality t percent stats)).
  { subst f3. unfold rule_originalQuality.
    destruct (qualityStats stats) as [q|]; simpl; [|by rewrite app_nil_r].
    rewrite push_if_app. by case_bool_decide. }
  rewrite E3. clear E3 f3.
  assert (E6 : ∀ F : list string,
    match topDevices stats with
    | d :: _ => F ++ [t "funFacts.favoriteDevice" [("device", PStr (device d))]]
    | [] => F
    end = F ++ from_option (λ x, [x]) [] (rule_favoriteDevice t stats)).
  { intros F. unfold rule_favoriteDevice.
    destruct (topDevices stats); simpl; [by rewrite app_nil_r|done]. }
  rewrite E6, push_if_app. clear E6.
  rewrite <- !app_assoc. f_equal.
  repeat (apply fired_cons;
            [first [ reflexivity
                   | by unfold rule_watchedPercentage; case_bool_decide ]|]).
  simpl. by destruct (rule_favoriteDevice t stats).
Qed.

(** C5. The slide shows at most six fun facts: the facts that came with
    the stats, followed by the facts of the rules of a fixed table that
    fire, taken rule by rule in the order of the table and skipping the
    rules that do not fire, cut after the sixth. The list is a function of
    the stats (and of the translations) alone. *)
Theorem at_most_six_facts_in_table_order (stats : Stats) :
  (length (shownFacts t percent stats) ≤ 6)%nat
  ∧ shownFacts t percent stats
    = take 6 (default [] (funFacts stats)
              ++ omap (λ rule, rule stats) (rule_table t percent)).
Proof.
  unfold shownFacts. split.
  - rewrite length_take. lia.
  - by rewrite generatedFacts_by_table.
Qed.

End FunFactsFacts.

(** Stats without a single play still show two facts on the slide: the
    preference rule has no condition, and zero active days are fewer than
    200. *)
Example facts_of_empty_stats :
  FunFacts.shownFacts (λ key _, key) (λ _ _, Js.PNum 0)
    (FunFacts.mkStats (Some []) None [] None 0 0 0 0 [])
  = ["funFacts.preference"; "funFacts.watchedPercentage"].
Proof. reflexivity. Qed.

Example facts_are_cut_after_the_sixth :
  FunFacts.shownFacts (λ key _, key) (λ _ _, Js.PNum 50)
    (FunFacts.mkStats (Some ["first"; "second"]) (Some "Friday")
       [FunFacts.mkShow "Show" 30 25] (Some (FunFacts.mkQualityStats 1 5 0))
       10 3 7 120 [FunFacts.mkDevice "TV" "Roku" 10 600])
  = ["first"; "second"; "funFacts.dayOfWeek"; "funFacts.crushedEpisodes";
     "funFacts.originalQuality"; "funFacts.preference"].
Proof. reflexivity. Qed.

(** * Facts about the aggregation engine *)

Section EngineFacts.

Import Engine.

(** The internal order is a total order on events. *)
#[local] Instance chronological_total : Total chronological.
Proof. intros a b. unfold chronological. lia. Qed.

#[local] Instance chronological_trans : Transitive chronological.
Proof. intros a b c. unfold chronological. lia. Qed.

#[local] Instance chronological_antisym : AntiSymm (=) chronological.
Proof.
  intros a b Hab Hba. apply (inj encode). unfold chronological in *. lia.
Qed.

Lemma sort_of_permutation (l1 l2 : list WatchEvent) :
  l1 ≡ₚ l2 → merge_sort chronological l1 = merge_sort chronological l2.
Proof.
  intros Hperm. apply (Sorted_unique chronological).
  - apply Sorted_merge_sort, _.
  - apply Sorted_merge_sort, _.
  - by rewrite !merge_sort_Permutation.
Qed.

Lemma normalize_of_permutation year (l1 l2 : list (option WatchEvent)) :
  l1 ≡ₚ l2 → normalize year l1 = normalize year l2.
Proof.
  intros Hperm. unfold normalize. f_equal. apply sort_of_permutation.
  by rewrite Hperm.
Qed.

Lemma skipped_of_permutation (l1 l2 : list (option WatchEvent)) :
  l1 ≡ₚ l2 → skipped_malformed l1 = skipped_malformed l2.
Proof. intros Hperm. unfold skipped_malformed. by rewrite Hperm. Qed.

(** C7. The result does not depend on the order of the input: two input
    lists that are permutations of each other give the same stats, for
    every configuration, year and supplementary input. *)
Theorem aggregate_of_permutation
    (cfg : Config) (year : Z) (meta : option Metadata)
    (l1 l2 : list (option WatchEvent)) :
  l1 ≡ₚ l2 → aggregate cfg year meta l1 = aggregate cfg year meta l2.
Proof.
  intros Hperm. unfold aggregate.
  by rewrite (normalize_of_permutation year l1 l2 Hperm),
    (skipped_of_permutation l1 l2 Hperm).
Qed.

(** *** The invariants of a result *)

Lemma normalize_qualifies year input :
  Forall (qualifies year) (normalize year input).
Proof.
  unfold normalize.
  set (sorted := merge_sort chronological _).
  assert (Hsorted : Forall (qualifies year) sorted).
  { subst sorted. rewrite merge_sort_Permutation.
    apply Forall_forall. intros e He. apply list_elem_of_In in He.
    by apply list_elem_of_filter in He as [? _]. }
  clearbody sorted. generalize (@None (Z * Z)).
  induction Hsorted as [|e rest He Hrest IH]; intros previous; simpl; [done|].
  case_decide; [apply IH|]. constructor; [done|apply IH].
Qed.

Lemma sum_minutes_nonneg year (events : list WatchEvent) :
  Forall (qualifies year) events → 0 ≤ sum_minutes events.
Proof.
  unfold sum_minutes. induction 1 as [|e rest [He _] _ IH]; simpl; lia.
Qed.

Lemma longest_run_ge days : ∀ previous run best,
  best ≤ longest_run previous run best days.
Proof.
  induction days as [|d days IH]; intros previous run best; simpl; [lia|].
  case_decide.
  - apply IH.
  - etrans; [|apply IH]. lia.
Qed.

Lemma longest_streak_nonneg days : 0 ≤ longest_streak days.
Proof.
  unfold longest_streak. destruct (merge_sort Z.le days); [done|].
  apply longest_run_ge.
Qed.

Lemma clamp_percent_ok p : percent_ok (clamp_percent p).
Proof. unfold percent_ok, clamp_percent. lia. Qed.

Lemma library_column_ok unique meta :
  column_check (persisted_library_percentage (library_percentage unique meta))
  = true.
Proof.
  unfold persisted_library_percentage, library_percentage. destruct (library_size meta) as [size|]; [|done].
  destruct (0 <? size); [|done]. simpl.
  apply andb_true_intro. split; apply Z.leb_le; lia.
Qed.

Lemma rank_length {K} cap (groups : list (Group K)) :
  (length (rank cap groups) ≤ cap)%nat.
Proof. unfold rank. rewrite length_take. lia. Qed.

(** Every result of the engine satisfies the invariants of section 3. *)
Lemma aggregate_valid cfg year meta input :
  valid cfg (aggregate cfg year meta input).
Proof.
  unfold aggregate, assemble, valid. simpl.
  pose proof (normalize_qualifies year input) as Hq.
  split_and!;
    first [ apply rank_length
          | apply clamp_percent_ok
          | apply library_column_ok
          | apply longest_streak_nonneg
          | by eapply sum_minutes_nonneg
          | rewrite length_fmap; apply rank_length
          | rewrite length_take; lia
          | unfold skipped_malformed; lia
          | lia ].
Qed.

Lemma most_active_nil keys : most_active keys [] = None.
Proof.
  unfold most_active. induction keys as [|k keys IH]; [done|]. apply IH.
Qed.

Lemma round_percent_zero whole : round_percent 0 whole = 0.
Proof.
  unfold round_percent. destruct (Z.leb_spec whole 0); [done|].
  apply Z.div_small. lia.
Qed.

(** C6. The empty input is not an error: the engine returns a result,
    which is the all-zero one (every counter zero, every ranked list empty,
    every temporal field absent, no fun fact, no badge) and satisfies the
    invariants of a result. *)
Theorem empty_input_gives_valid_zero_stats
    (cfg : Config) (year : Z) (meta : option Metadata) :
  aggregate cfg year meta []
  = empty_stats (library_percentage 0 meta) 0
  ∧ valid cfg (aggregate cfg year meta []).
Proof.
  split; [|apply aggregate_valid].
  unfold aggregate. change (normalize year []) with (@nil WatchEvent).
  change (skipped_malformed []) with 0.
  unfold assemble, empty_stats, rank.
  cbn -[take round_percent library_percentage days_in_year].
  rewrite !take_nil, round_percent_zero, !most_active_nil.
  unfold rule_direct_play, rule_weekday, quality_mix, clamp_percent,
    round_percent, minutes_of.
  change (Z.of_nat 0) with 0.
  cbn -[take library_percentage]. by rewrite ?take_nil.
Qed.

(** C2. Without a library size from the supplementary source the library
    percentage is the marker "unavailable", whatever was watched: it is
    not the number zero; it is persisted as NULL, which the column admits
    and which differs from a stored 0 (the value a row takes when the
    column is left out); and what is read back from the column is the
    marker again. *)
Theorem library_percentage_unavailable_without_size
    (cfg : Config) (year : Z) (meta : option Metadata)
    (input : list (option WatchEvent)) :
  library_size meta = None →
  let field := libraryPercentage (aggregate cfg year meta input) in
  field = Unavailable
  ∧ field ≠ Percent 0
  ∧ persisted_library_percentage field = None
  ∧ persisted_library_percentage field ≠ Some 0
  ∧ persisted_library_percentage field ≠ inserted None
  ∧ column_check (persisted_library_percentage field) = true
  ∧ reported_library_percentage (persisted_library_percentage field)
    = Unavailable.
Proof.
  intros Hsize field.
  assert (E : field = Unavailable).
  { subst field. unfold aggregate, assemble. simpl.
    unfold library_percentage. by rewrite Hsize. }
  rewrite E. by split_and!.
Qed.

End EngineFacts.

(** The examples of section 8 of the specification. *)
Example streak_of_two_runs :
  Engine.longestStreakDays
    (Engine.aggregate Engine.defaultConfig 2025 None
       ((λ d, Some (Demo.movie d "Film" (Demo.at_time 2025 1 d 20 0) 90
                      Engine.DirectPlay))
          <$> [1; 2; 3; 10; 11; 12; 13; 14; 15]))
  = 6.
Proof. vm_compute. done. Qed.

Example binge_boundary :
  Engine.longestBinge
    (Engine.aggregate Engine.defaultConfig 2025 None
       [Some (Demo.episode 1 "Show" 1 1 (Demo.at_time 2025 2 1 10 0) 40);
        Some (Demo.episode 2 "Show" 1 2 (Demo.at_time 2025 2 1 13 59) 40)])
  = Some (Engine.mkBinge 80 (Some "Show"))
  ∧ Engine.longestBinge
      (Engine.aggregate Engine.defaultConfig 2025 None
         [Some (Demo.episode 1 "Show" 1 1 (Demo.at_time 2025 2 1 10 0) 40);
          Some (Demo.episode 2 "Show" 1 2 (Demo.at_time 2025 2 1 14 1) 45)])
    = Some (Engine.mkBinge 45 (Some "Show")).
Proof. vm_compute. done. Qed.

Example out_of_year_is_excluded :
  Engine.totalPlays
    (Engine.aggregate Engine.defaultConfig 2025 None
       [Some (Demo.movie 1 "Film" (Demo.at_time 2024 12 31 23 59) 90
                Engine.DirectPlay)])
  = 0.
Proof. vm_compute. done. Qed.

Example quality_rounding :
  Engine.qualityMix
    (Engine.aggregate Engine.defaultConfig 2025 None
       [Some (Demo.movie 1 "A" (Demo.at_time 2025 1 1 20 0) 333
                Engine.DirectPlay);
        Some (Demo.movie 2 "B" (Demo.at_time 2025 1 2 20 0) 333
                Engine.DirectStream);
        Some (Demo.movie 3 "C" (Demo.at_time 2025 1 3 20 0) 334
                Engine.Transcode)])
  = Engine.mkQualityMix 33 33 33.
Proof. vm_compute. done. Qed.

Example duplicate_suppression :
  let e := Demo.movie 1 "Film" (Demo.at_time 2025 1 1 20 0) 90
             Engine.DirectPlay in
  Engine.aggregate Engine.defaultConfig 2025 None [Some e; Some e]
  = Engine.aggregate Engine.defaultConfig 2025 None [Some e].
Proof. vm_compute. done. Qed.

Example earlier_movie_ranks_first :
  Engine.group_label
    <$> Engine.topMovies
          (Engine.aggregate Engine.defaultConfig 2025 None
             [Some (Demo.movie 1 "Late" (Demo.at_time 2025 1 5 20 0) 90
                      Engine.DirectPlay);
              Some (Demo.movie 2 "Early" (Demo.at_time 2025 1 2 20 0) 90
                      Engine.DirectPlay)])
  = ["Early"; "Late"].
Proof. vm_compute. done. Qed.

Lemma aggregate_of_permutation_witness :
  Engine.aggregate Engine.defaultConfig 2025 None
    [Some (Demo.movie 1 "Late" (Demo.at_time 2025 1 5 20 0) 90
             Engine.DirectPlay);
     Some (Demo.episode 2 "Show" 1 1 (Demo.at_time 2025 1 2 20 0) 40)]
  = Engine.aggregate Engine.defaultConfig 2025 None
      [Some (Demo.episode 2 "Show" 1 1 (Demo.at_time 2025 1 2 20 0) 40);
       Some (Demo.movie 1 "Late" (Demo.at_time 2025 1 5 20 0) 90
               Engine.DirectPlay)].
Proof.
  apply aggregate_of_permutation. apply perm_swap.
Defined.

Lemma library_percentage_unavailable_without_size_witness :
  Engine.libraryPercentage
    (Engine.aggregate Engine.defaultConfig 2025
       (Some (Engine.mkMetadata (Some 120) None []))
       [Some (Demo.movie 1 "Film" (Demo.at_time 2025 1 5 20 0) 90
                Engine.DirectPlay)])
  = Engine.Unavailable
  ∧ Engine.persisted_library_percentage
      (Engine.libraryPercentage
         (Engine.aggregate Engine.defaultConfig 2025
            (Some (Engine.mkMetadata (Some 120) None []))
            [Some (Demo.movie 1 "Film" (Demo.at_time 2025 1 5 20 0) 90
                     Engine.DirectPlay)]))
    ≠ Some 0.
Proof.
  destruct (library_percentage_unavailable_without_size Engine.defaultConfig
              2025 (Some (Engine.mkMetadata (Some 120) None []))
              [Some (Demo.movie 1 "Film" (Demo.at_time 2025 1 5 20 0) 90
                       Engine.DirectPlay)])
    as (Hfield & _ & _ & Hcolumn & _).
  - reflexivity.
  - split; assumption.
Defined.

(** With a library size the field is a share: one title of two hundred is
    half a percent. *)
Example library_percentage_with_size :
  Engine.libraryPercentage
    (Engine.aggregate Engine.defaultConfig 2025
       (Some (Engine.mkMetadata (Some 120) (Some 80) []))
       [Some (Demo.movie 1 "Film" (Demo.at_time 2025 1 5 20 0) 90
                Engine.DirectPlay)])
  = Engine.Percent 50.
Proof. vm_compute. done. Qed.

(** * Facts about reading numbers *)

Section TextFacts.

Import Text.

Lemma pretty_N_char_digit (x : N) :
  (x < 10)%N →
  is_digit (pretty_N_char x) = true
  ∧ digit_value (pretty_N_char x) = Z.of_N x.
Proof.
  intros Hx.
  destruct x as [|p]; [done|].
  do 4 (destruct p as [p|p|]; try done); lia.
Qed.

Lemma digit_is_plain c :
  is_digit c = true →
  is_space c = false ∧ c ≠ "-"%char ∧ c ≠ "+"%char.
Proof.
  destruct c as [[] [] [] [] [] [] [] []]; try done; intros _; done.
Qed.

Lemma digits_go (x : N) :
  ∃ p : Z, ∀ s acc,
    digits_value acc (pretty_N_go x s) = digits_value (acc * p + Z.of_N x) s.
Proof.
  induction (N.lt_wf_0 x) as [x _ IH].
  assert (x = 0 ∨ 0 < x)%N as [->|Hx] by lia.
  - exists 1. intros s acc. rewrite pretty_N_go_0. f_equal.
    simpl. lia.
  - destruct (IH (x `div` 10)%N) as [p Hp]; [by apply N.div_lt|].
    exists (10 * p). intros s acc. rewrite pretty_N_go_step, Hp by done.
    destruct (pretty_N_char_digit (x `mod` 10)%N) as [Hd Hv].
    { by apply N.mod_lt. }
    simpl. rewrite Hd, Hv. f_equal.
    rewrite (N.div_mod x 10) at 3 by done. lia.
Qed.

Lemma pretty_N_go_head (x : N) : ∀ s,
  (0 < x)%N →
  ∃ c rest, pretty_N_go x s = String c rest ∧ is_digit c = true.
Proof.
  induction (N.lt_wf_0 x) as [x _ IH]. intros s Hx.
  rewrite pretty_N_go_step by done.
  destruct (N.eq_0_gt_0_cases (x `div` 10)) as [->|Hd].
  - rewrite pretty_N_go_0. eexists _, _. split; [done|].
    apply pretty_N_char_digit. by apply N.mod_lt.
  - apply IH; [by apply N.div_lt|done].
Qed.

Lemma parseInt_digits (s : string) c rest :
  s = String c rest → is_digit c = true →
  parseInt s = Some (digits_value 0 s)
  ∧ parseInt (String "-" s) = Some (- digits_value 0 s).
Proof.
  intros -> Hd. destruct (digit_is_plain c Hd) as (Hsp & Hm & Hp).
  unfold parseInt. simpl skip_space. rewrite Hsp. split.
  - destruct c as [[] [] [] [] [] [] [] []]; try done; simpl;
      by rewrite ?Hd.
  - simpl. by rewrite Hd.
Qed.

(** Reading back a number that was written in decimal. *)
Lemma parseInt_pretty (n : Z) : parseInt (pretty n) = Some n.
Proof.
  destruct n as [|p|p]; [done|..].
  - unfold pretty, pretty_Z, pretty, pretty_positive, pretty, pretty_N.
    rewrite decide_False by done.
    destruct (pretty_N_go_head (N.pos p) "") as (c & rest & Hs & Hd); [lia|].
    destruct (parseInt_digits _ c rest Hs Hd) as [-> _].
    destruct (digits_go (N.pos p)) as [q Hq]. rewrite Hq. simpl. f_equal.
  - unfold pretty, pretty_Z, pretty, pretty_positive, pretty, pretty_N.
    rewrite decide_False by done.
    destruct (pretty_N_go_head (N.pos p) "") as (c & rest & Hs & Hd); [lia|].
    destruct (parseInt_digits _ c rest Hs Hd) as [_ Hneg].
    change ("-" +:+ pretty_N_go (N.pos p) "")
      with (String "-" (pretty_N_go (N.pos p) "")).
    rewrite Hneg.
    destruct (digits_go (N.pos p)) as [q Hq]. rewrite Hq. simpl. f_equal.
Qed.

Lemma pretty_nat_Z (n : nat) : pretty n = pretty (Z.of_nat n).
Proof.
  destruct n as [|n]; [done|].
  unfold pretty at 1, pretty_nat. simpl. done.
Qed.

End TextFacts.

(** * Facts about the users table *)

Section Stays.

Context {S : Type}.

Definition stays {A} (P : S → Prop) (m : StExc S A) : Prop :=
  ∀ w, P w → P (m w).2.

Lemma stays_bind {A B} P (m : StExc S A) (k : A → StExc S B) :
  stays P m → (∀ a, stays P (k a)) → stays P (x ← m; k x).
Proof.
  intros Hm Hk w Hw. unfold mbind, M_bind, bind.
  specialize (Hm w Hw). destruct (m w) as [[a|e] w1]; simpl in *; [|done].
  by apply Hk.
Qed.

Lemma stays_try_catch {A} P (m : StExc S A) (h : string → StExc S A) :
  stays P m → (∀ e, stays P (h e)) → stays P (try_catch m h).
Proof.
  intros Hm Hh w Hw. unfold try_catch.
  specialize (Hm w Hw). destruct (m w) as [[a|e] w1]; simpl in *; [done|].
  by apply Hh.
Qed.

Lemma stays_ret {A} P (a : A) : stays P (mret a : StExc S A).
Proof. by intros w Hw. Qed.

Lemma stays_throw {A} P e : stays P (throw e : StExc S A).
Proof. by intros w Hw. Qed.

Lemma stays_lift {A} P (r : result A) : stays P (lift r : StExc S A).
Proof. by intros w Hw. Qed.

Lemma stays_may_fail P fault : stays P (may_fail fault : StExc S unit).
Proof. by destruct fault; intros w Hw. Qed.

Lemma stays_gets {A} P (f : S → A) : stays P (gets f).
Proof. by intros w Hw. Qed.

Lemma stays_modify P (f : S → S) : (∀ w, P w → P (f w)) → stays P (modify f).
Proof. intros Hf w Hw. by apply Hf. Qed.

End Stays.

Section UsersFacts.

Import Js Users.

Ltac run_M :=
  unfold mbind, mret, M_bind, M_ret, bind, ret, throw, try_catch, modify,
    gets, lift, may_fail, Users.logger in *; simpl in *.

(** The table an accepted upsert leaves. *)
Lemma upsert_run now data w :
  UserModel_upsert None now data w
  = let p := parameters data in
    match List.find (has_plex_id (p_plex_user_id p)) (w_users w) with
    | Some old =>
        (Ok (excluded now p old),
         mkWorld ((λ u, if has_plex_id (p_plex_user_id p) u
                        then excluded now p u else u) <$> w_users w)
           (w_next_user_id w + 1) (w_log w))
    | None =>
        (Ok (inserted (w_next_user_id w) now p),
         mkWorld (w_users w ++ [inserted (w_next_user_id w) now p])
           (w_next_user_id w + 1) (w_log w))
    end.
Proof.
  unfold UserModel_upsert. run_M.
  by destruct (List.find _ (w_users w)).
Qed.

Lemma find_fmap_same {A} (f : A → bool) (g : A → A) (l : list A) :
  (∀ x, f (g x) = f x) →
  List.find f (g <$> l) = g <$> List.find f l.
Proof.
  intros Hf. induction l as [|x l IH]; simpl; [done|].
  rewrite Hf. by destruct (f x).
Qed.

Lemma find_app_none {A} (f : A → bool) (l : list A) x :
  List.find f l = None → List.find f (l ++ [x]) = if f x then Some x else None.
Proof.
  induction l as [|y l IH]; simpl; [done|].
  destruct (f y); [done|]. apply IH.
Qed.

Lemma find_app_some {A} (f : A → bool) (l k : list A) x :
  List.find f l = Some x → List.find f (l ++ k) = Some x.
Proof.
  induction l as [|y l IH]; simpl; [done|].
  destruct (f y); [done|]. apply IH.
Qed.

(** X1. An upsert that the store accepts is found again: looking the
    user up by the Plex id right after [UserModel.upsert] returns the row
    the upsert returned. Its profile columns are the nine parameters of
    the statement, so an empty email, friendly name or thumb is stored as
    NULL, and [is_home_user] is always true, whatever the caller passed
    ([data.is_home_user || true]). A user that was not in the table gets
    the next id of the sequence and the language 'en', and is added at the
    end; [preferred_language] of the data is not used. *)
Theorem upsert_then_find (now : Z) (data : UserCreate) (w : World) :
  ∃ row w',
    UserModel_upsert None now data w = (Ok row, w')
    ∧ UserModel_findByPlexUserId None (c_plex_user_id data) w'
      = (Ok (Some row), w')
    ∧ profile_of row = parameters data
    ∧ u_is_home_user row = true
    ∧ u_email row = or_null (c_email data)
    ∧ (List.find (has_plex_id (c_plex_user_id data)) (w_users w) = None →
         u_id row = w_next_user_id w
         ∧ u_preferred_language row = Some "en"
         ∧ w_users w' = w_users w ++ [row]).
Proof.
  rewrite upsert_run. simpl.
  assert (Hhome : or_bool (c_is_home_user data) true = true).
  { unfold or_bool. by destruct (c_is_home_user data) as [[]|]. }
  destruct (List.find _ (w_users w)) as [old|] eqn:Hfind.
  - eexists _, _. split; [reflexivity|].
    apply find_some in Hfind as Hold. destruct Hold as [_ Hplex].
    apply bool_decide_eq_true in Hplex.
    split_and!; try done.
    + unfold UserModel_findByPlexUserId. run_M.
      rewrite (find_fmap_same _ (λ u, if has_plex_id _ u then _ else u)).
      * rewrite Hfind. simpl.
        replace (has_plex_id (c_plex_user_id data) old) with true; [done|].
        unfold has_plex_id. by rewrite bool_decide_eq_true_2.
      * intros u. by destruct (has_plex_id _ u) eqn:Hu.
    + unfold profile_of, parameters. simpl. by rewrite Hplex.
  - eexists _, _. split; [reflexivity|].
    split_and!; try done.
    unfold UserModel_findByPlexUserId. run_M.
    rewrite find_app_none by done. unfold has_plex_id. simpl.
    by rewrite bool_decide_eq_true_2.
Qed.

(** X2. An upsert of a user whose Plex id is already in the table keeps
    the identity of every row: the id, the Plex id, the preferred
    language, [created_at] and [last_seen] of each row are what they were,
    no row is added or removed, and the rows of the other users are
    untouched. *)
Theorem upsert_keeps_identity (now : Z) (data : UserCreate) (w : World)
    (old : User) :
  List.find (has_plex_id (c_plex_user_id data)) (w_users w) = Some old →
  ∃ row w',
    UserModel_upsert None now data w = (Ok row, w')
    ∧ identity_of row = identity_of old
    ∧ identity_of <$> w_users w' = identity_of <$> w_users w
    ∧ (∀ u, u ∈ w_users w → u_plex_user_id u ≠ c_plex_user_id data →
         u ∈ w_users w')
    ∧ (∀ u, u ∈ w_users w' → u_plex_user_id u ≠ c_plex_user_id data →
         u ∈ w_users w).
Proof.
  intros Hfind. rewrite upsert_run. simpl. rewrite Hfind.
  eexists _, _. split; [reflexivity|]. simpl. split_and!.
  - done.
  - rewrite <- list_fmap_compose. apply list_fmap_ext.
    intros i u _. simpl. by destruct (has_plex_id _ u).
  - intros u Hu Hne. apply list_elem_of_fmap. exists u. split; [|done].
    unfold has_plex_id. by rewrite bool_decide_eq_false_2.
  - intros u Hu Hne. apply list_elem_of_fmap in Hu as (v & -> & Hv).
    unfold has_plex_id in *. case_bool_decide; [|done].
    by destruct Hne.
Qed.

(** *** The sync route *)

(** The table one accepted upsert leaves, and the table the loop of the
    sync route leaves when every upsert is accepted. *)
Definition upsert_rows (id now : Z) (p : Columns) (users : list User)
    : list User :=
  match List.find (has_plex_id (p_plex_user_id p)) users with
  | Some _ =>
      (λ u, if has_plex_id (p_plex_user_id p) u then excluded now p u else u)
        <$> users
  | None => users ++ [inserted id now p]
  end.

Fixpoint synced_rows (env : Env) (i : nat) (next : Z)
    (l : list TautulliUser) (users : list User) : list User :=
  match l with
  | [] => users
  | tUser :: rest =>
      synced_rows env (S i) (next + 1) rest
        (upsert_rows next (upsert_now env i) (parameters (from_tautulli tUser))
           users)
  end.

Lemma upsert_run_rows now data w :
  ∃ row,
    UserModel_upsert None now data w
    = (Ok row,
       mkWorld (upsert_rows (w_next_user_id w) now (parameters data) (w_users w))
         (w_next_user_id w + 1) (w_log w)).
Proof.
  rewrite upsert_run. unfold upsert_rows. simpl.
  destruct (List.find _ (w_users w)); eauto.
Qed.

Lemma upsert_all_run env l : ∀ i w,
  (∀ j, (j < length l)%nat → upsert_fault env (i + j) = None) →
  ∃ synced,
    upsert_all env i l w
    = (Ok synced,
       mkWorld (synced_rows env i (w_next_user_id w) l (w_users w))
         (w_next_user_id w + Z.of_nat (length l)) (w_log w))
    ∧ length synced = length l.
Proof.
  induction l as [|t l IH]; intros i w Hok.
  - exists []. simpl. destruct w. simpl. by rewrite Z.add_0_r.
  - simpl. unfold mbind at 1, M_bind at 1, bind at 1.
    assert (Hf : upsert_fault env i = None).
    { rewrite <- (Nat.add_0_r i). apply Hok. simpl. lia. }
    rewrite Hf.
    destruct (upsert_run_rows (upsert_now env i) (from_tautulli t) w)
      as [row ->].
    destruct (IH (S i) (mkWorld
                (upsert_rows (w_next_user_id w) (upsert_now env i)
                   (parameters (from_tautulli t)) (w_users w))
                (w_next_user_id w + 1) (w_log w))) as (synced & Hrun & Hlen).
    { intros j Hj. replace (S i + j)%nat with (i + S j)%nat by lia.
      apply Hok. simpl. lia. }
    exists (row :: synced). run_M. rewrite Hrun. simpl. split; [|by rewrite Hlen].
    f_equal. f_equal. lia.
Qed.

Lemma plex_of_excluded p now c (users : list User) :
  u_plex_user_id <$>
    ((λ u, if has_plex_id p u then excluded now c u else u) <$> users)
  = u_plex_user_id <$> users.
Proof.
  rewrite <- list_fmap_compose. apply list_fmap_ext.
  intros i u _. simpl. by destruct (has_plex_id p u).
Qed.

Lemma id_of_excluded p now c (users : list User) :
  u_id <$> ((λ u, if has_plex_id p u then excluded now c u else u) <$> users)
  = u_id <$> users.
Proof.
  rewrite <- list_fmap_compose. apply list_fmap_ext.
  intros i u _. simpl. by destruct (has_plex_id p u).
Qed.

Lemma find_plex_none p users :
  List.find (has_plex_id p) users = None ↔ p ∉ u_plex_user_id <$> users.
Proof.
  induction users as [|u users IH]; simpl.
  - split; [intros _; apply not_elem_of_nil|done].
  - unfold has_plex_id at 1. case_bool_decide as Hu.
    + split; [done|]. intros Hn. destruct Hn. rewrite Hu. apply elem_of_cons. by left.
    + rewrite IH, not_elem_of_cons.
      split; [intros ?; split; [by intros ->|done]|by intros [_ ?]].
Qed.

Lemma upsert_rows_plex id now p users q :
  q ∈ u_plex_user_id <$> upsert_rows id now p users
  ↔ q ∈ u_plex_user_id <$> users ∨ q = p_plex_user_id p.
Proof.
  unfold upsert_rows.
  destruct (List.find _ users) as [old|] eqn:Hfind.
  - rewrite plex_of_excluded. split; [auto|]. intros [?| ->]; [done|].
    apply find_some in Hfind as [Hin Hp].
    apply bool_decide_eq_true in Hp. rewrite <- Hp.
    apply list_elem_of_fmap. exists old. split; [done|].
    by apply list_elem_of_In.
  - rewrite fmap_app, elem_of_app. simpl. rewrite list_elem_of_singleton. done.
Qed.

(** The constraints of the schema, on the rows and the sequence. *)
Definition rows_ok (next : Z) (users : list User) : Prop :=
  NoDup (u_id <$> users)
  ∧ NoDup (u_plex_user_id <$> users)
  ∧ Forall (λ u, u_id u < next) users.

Lemma upsert_rows_ok next now p users :
  rows_ok next users → rows_ok (next + 1) (upsert_rows next now p users).
Proof.
  intros (Hid & Hplex & Hlt). unfold upsert_rows, rows_ok.
  destruct (List.find _ users) as [old|] eqn:Hfind.
  - rewrite id_of_excluded, plex_of_excluded. split_and!; try done.
    apply Forall_fmap. eapply Forall_impl; [|exact Hlt].
    intros u Hu. unfold compose. simpl in *.
    destruct (has_plex_id _ u); simpl; lia.
  - apply find_plex_none in Hfind. rewrite !fmap_app. simpl. split_and!.
    + apply list.NoDup_app. split_and!; [done| |apply NoDup_singleton].
      intros x Hx Hx'. apply list_elem_of_singleton in Hx' as ->.
      apply list_elem_of_fmap in Hx as (u & Hu & Hin).
      rewrite list.Forall_forall in Hlt.
      specialize (Hlt u Hin). simpl in Hlt. lia.
    + apply list.NoDup_app. split_and!; [done| |apply NoDup_singleton].
      intros x Hx Hx'. by apply list_elem_of_singleton in Hx' as ->.
    + apply Forall_app. split.
      * eapply Forall_impl; [|exact Hlt]. intros u Hu. simpl in *. lia.
      * constructor; [simpl; lia|constructor].
Qed.

Lemma synced_rows_plex env l : ∀ i next users q,
  q ∈ u_plex_user_id <$> synced_rows env i next l users
  ↔ q ∈ u_plex_user_id <$> users ∨ q ∈ t_user_id <$> l.
Proof.
  induction l as [|t l IH]; intros i next users q; simpl.
  - rewrite elem_of_nil. tauto.
  - rewrite IH, upsert_rows_plex, elem_of_cons. simpl. tauto.
Qed.

Lemma synced_rows_ok env l : ∀ i next users,
  rows_ok next users →
  rows_ok (next + Z.of_nat (length l)) (synced_rows env i next l users).
Proof.
  induction l as [|t l IH]; intros i next users Hok; simpl.
  - by rewrite Z.add_0_r.
  - replace (next + Z.of_nat (S (length l)))
      with (next + 1 + Z.of_nat (length l)) by lia.
    apply IH. by apply upsert_rows_ok.
Qed.

Lemma upsert_rows_elem id now p users u :
  u ∈ upsert_rows id now p users →
  (u ∈ users ∧ u_plex_user_id u ≠ p_plex_user_id p) ∨ profile_of u = p.
Proof.
  unfold upsert_rows.
  destruct (List.find _ users) as [old|] eqn:Hfind.
  - intros Hu. apply list_elem_of_fmap in Hu as (v & -> & Hv).
    unfold has_plex_id. case_bool_decide as Hp.
    + right. unfold profile_of. simpl. rewrite Hp. by destruct p.
    + left. done.
  - apply find_plex_none in Hfind. rewrite elem_of_app, list_elem_of_singleton.
    intros [Hu| ->].
    + left. split; [done|]. intros Hp. apply Hfind. rewrite <- Hp.
      apply list_elem_of_fmap. by exists u.
    + right. by destruct p.
Qed.

Lemma synced_rows_elem env l : ∀ i next users u,
  u ∈ synced_rows env i next l users →
  (u ∈ users ∧ u_plex_user_id u ∉ t_user_id <$> l)
  ∨ (∃ t, t ∈ l ∧ profile_of u = parameters (from_tautulli t)).
Proof.
  induction l as [|t l IH]; intros i next users u Hu; simpl in *.
  - left. split; [done|]. apply not_elem_of_nil.
  - apply IH in Hu as [[Hu Hrest]|(t' & Ht' & Hp)].
    + apply upsert_rows_elem in Hu as [[Hu Hne]|Hp].
      * left. split; [done|]. apply not_elem_of_cons. done.
      * right. exists t. split; [|done]. apply elem_of_cons. by left.
    + right. exists t'. split; [|done]. apply elem_of_cons. by right.
Qed.

(** X3. A sync whose calls are all accepted answers success with one
    user per reported user and the message 'Synced n users'. Afterwards
    the Plex ids in the table are those that were there and those
    Tautulli reported; every row is either an untouched row of a user that
    was not reported or carries the profile of a reported user; and the
    table still satisfies the constraints of the schema. *)
Theorem sync_leaves_every_reported_user
    (env : Env) (l : list TautulliUser) (w : World) :
  getUsers env = Ok l → (∀ i, upsert_fault env i = None) → table_ok w →
  ∃ resp w',
    post_users_sync env w = (Ok resp, w')
    ∧ sync_success resp = true
    ∧ sync_message resp = "Synced " +:+ pretty (length l) +:+ " users"
    ∧ length (sync_users resp) = length l
    ∧ (∀ p, p ∈ u_plex_user_id <$> w_users w'
            ↔ p ∈ u_plex_user_id <$> w_users w ∨ p ∈ t_user_id <$> l)
    ∧ (∀ u, u ∈ w_users w' →
         (u ∈ w_users w ∧ u_plex_user_id u ∉ t_user_id <$> l)
         ∨ (∃ t, t ∈ l ∧ profile_of u = parameters (from_tautulli t)))
    ∧ table_ok w'.
Proof.
  intros Hget Hok Htable. unfold post_users_sync. rewrite Hget.
  destruct (upsert_all_run env l 0
              (set_log (w_log w ++ [LogSyncStarting]) w))
    as (synced & Hrun & Hlen); [by intros; apply Hok|].
  run_M. rewrite Hrun. simpl. eexists _, _. split; [reflexivity|].
  simpl. split_and!; try done.
  - by rewrite Hlen.
  - apply synced_rows_plex.
  - apply synced_rows_elem.
  - by apply synced_rows_ok.
Qed.

Lemma upsert_all_fails env e l : ∀ i w k,
  (k < length l)%nat →
  (∀ j, (j < k)%nat → upsert_fault env (i + j) = None) →
  upsert_fault env (i + k) = Some e →
  ∃ synced w1,
    upsert_all env i (take k l) w = (Ok synced, w1)
    ∧ length synced = k
    ∧ upsert_all env i l w = (Err e, w1).
Proof.
  induction l as [|t l IH]; intros i w k Hk Hok Hfail; simpl in Hk; [lia|].
  destruct k as [|k].
  - exists [], w. rewrite Nat.add_0_r in Hfail. simpl. run_M.
    unfold UserModel_upsert. rewrite Hfail. done.
  - assert (Hf : upsert_fault env i = None).
    { rewrite <- (Nat.add_0_r i). apply Hok. lia. }
    destruct (upsert_run_rows (upsert_now env i) (from_tautulli t) w)
      as [row Hrow].
    destruct (IH (S i) (mkWorld
                (upsert_rows (w_next_user_id w) (upsert_now env i)
                   (parameters (from_tautulli t)) (w_users w))
                (w_next_user_id w + 1) (w_log w)) k)
      as (synced & w1 & Hrun & Hlen & Herr).
    + lia.
    + intros j Hj. replace (S i + j)%nat with (i + S j)%nat by lia.
      apply Hok. lia.
    + by replace (S i + k)%nat with (i + S k)%nat by lia.
    + exists (row :: synced), w1. simpl.
      unfold mbind, M_bind, bind. rewrite Hf, Hrow, Hrun, Herr. simpl.
      by rewrite Hlen.
Qed.

(** X4. The sync is not one transaction: when the store rejects the
    upsert of the reported user at position [k], the request fails with
    that error and the state it leaves is the state after the first [k]
    upserts, so the users reported before position [k] are in the table
    although the request failed. *)
Theorem sync_keeps_what_it_wrote_before_a_rejection
    (env : Env) (l : list TautulliUser) (k : nat) (e : string) (w : World) :
  getUsers env = Ok l → (k < length l)%nat →
  (∀ j, (j < k)%nat → upsert_fault env j = None) →
  upsert_fault env k = Some e →
  ∃ synced w1,
    upsert_all env 0 (take k l)
      (set_log (w_log w ++ [LogSyncStarting]) w) = (Ok synced, w1)
    ∧ length synced = k
    ∧ post_users_sync env w = (Err e, w1)
    ∧ (∀ t, t ∈ take k l → t_user_id t ∈ u_plex_user_id <$> w_users w1).
Proof.
  intros Hget Hk Hok Hfail.
  destruct (upsert_all_fails env e l 0
              (set_log (w_log w ++ [LogSyncStarting]) w) k Hk Hok Hfail)
    as (synced & w1 & Hrun & Hlen & Herr).
  exists synced, w1. split_and!; try done.
  - unfold post_users_sync. rewrite Hget. run_M. by rewrite Herr.
  - destruct (upsert_all_run env (take k l) 0
                (set_log (w_log w ++ [LogSyncStarting]) w))
      as (synced' & Hrun' & _).
    { intros j Hj. rewrite length_take in Hj. apply Hok. lia. }
    rewrite Hrun in Hrun'. injection Hrun' as _ ->.
    intros t Ht. simpl. apply synced_rows_plex. right.
    apply list_elem_of_fmap. by exists t.
Qed.

(** The profile the last report of the user [plex] in [l] asks for,
    [start] if there is none. *)
Definition latest (l : list TautulliUser) (plex : Z) (start : Columns)
    : Columns :=
  foldl (λ acc t, if bool_decide (t_user_id t = plex)
                  then parameters (from_tautulli t) else acc) start l.

Definition up_to_date (l : list TautulliUser) (users : list User) : Prop :=
  ∀ u, u ∈ users → latest l (u_plex_user_id u) (profile_of u) = profile_of u.

Lemma synced_rows_up_to_date env l : ∀ done i next users,
  up_to_date done users →
  up_to_date (done ++ l) (synced_rows env i next l users).
Proof.
  induction l as [|t l IH]; intros done i next users Hq; simpl.
  - by rewrite app_nil_r.
  - replace (done ++ t :: l) with ((done ++ [t]) ++ l)
      by (by rewrite <- app_assoc).
    apply IH. intros u Hu. unfold latest. rewrite foldl_app. simpl.
    apply upsert_rows_elem in Hu as [[Hu Hne]|Hp].
    + simpl in Hne. rewrite bool_decide_eq_false_2 by congruence.
      by apply Hq.
    + rewrite bool_decide_eq_true_2; [done|].
      change (t_user_id t)
        with (p_plex_user_id (parameters (from_tautulli t))).
      by rewrite <- Hp.
Qed.

Lemma settled_excluded now c u :
  settled (excluded now c u) = settled (excluded 0 c u).
Proof. done. Qed.

Lemma synced_rows_known env l : ∀ i next users,
  (∀ t, t ∈ l → t_user_id t ∈ u_plex_user_id <$> users) →
  settled <$> synced_rows env i next l users
  = (λ u, settled (excluded 0 (latest l (u_plex_user_id u) (profile_of u)) u))
      <$> users.
Proof.
  induction l as [|t l IH]; intros i next users Hin; simpl.
  - apply list_fmap_ext. intros j u _. by destruct u.
  - assert (Ht : t_user_id t ∈ u_plex_user_id <$> users).
    { apply Hin. apply elem_of_cons. by left. }
    unfold upsert_rows at 1.
    destruct (List.find _ users) as [old|] eqn:Hfind.
    2:{ apply find_plex_none in Hfind. done. }
    rewrite IH.
    2:{ intros t' Ht'. rewrite plex_of_excluded. apply Hin.
        apply elem_of_cons. by right. }
    rewrite <- list_fmap_compose. apply list_fmap_ext.
    intros j u _. simpl. unfold has_plex_id.
    case_bool_decide as Hp; simpl.
    + rewrite bool_decide_eq_true_2 by done.
      replace (profile_of (excluded (upsert_now env i)
                 (parameters (from_tautulli t)) u))
        with (parameters (from_tautulli t)); [done|].
      unfold profile_of. simpl. by rewrite Hp.
    + by rewrite bool_decide_eq_false_2 by congruence.
Qed.

Lemma sync_run env l w :
  getUsers env = Ok l → (∀ i, upsert_fault env i = None) →
  ∃ resp,
    post_users_sync env w
    = (Ok resp,
       mkWorld (synced_rows env 0 (w_next_user_id w) l (w_users w))
         (w_next_user_id w + Z.of_nat (length l))
         ((w_log w ++ [LogSyncStarting]) ++ [LogSynced (length l)])).
Proof.
  intros Hget Hok. unfold post_users_sync. rewrite Hget.
  destruct (upsert_all_run env l 0
              (set_log (w_log w ++ [LogSyncStarting]) w))
    as (synced & Hrun & Hlen); [by intros; apply Hok|].
  run_M. rewrite Hrun. simpl. rewrite Hlen. eauto.
Qed.

(** X5. Syncing twice is the same as syncing once, up to [updated_at]:
    a second accepted sync of the same report leaves every column of
    every row as it was, [updated_at] apart, and adds no row. *)
Theorem sync_twice_changes_timestamps_only
    (env env' : Env) (l : list TautulliUser) (w : World) :
  getUsers env = Ok l → getUsers env' = Ok l →
  (∀ i, upsert_fault env i = None) → (∀ i, upsert_fault env' i = None) →
  let once := (post_users_sync env w).2 in
  let twice := (post_users_sync env' once).2 in
  settled <$> w_users twice = settled <$> w_users once
  ∧ length (w_users twice) = length (w_users once).
Proof.
  intros Hget Hget' Hok Hok' once twice.
  destruct (sync_run env l w Hget Hok) as [resp Hrun].
  assert (Honce : w_users once
                  = synced_rows env 0 (w_next_user_id w) l (w_users w)).
  { subst once. by rewrite Hrun. }
  destruct (sync_run env' l once Hget' Hok') as [resp' Hrun'].
  assert (Heq : settled <$> w_users twice = settled <$> w_users once).
  { subst twice. rewrite Hrun'. simpl. rewrite synced_rows_known.
    - apply list_fmap_ext. intros j u Hu.
      apply list_elem_of_lookup_2 in Hu. rewrite Honce in Hu.
      pose proof (synced_rows_up_to_date env l [] 0%nat (w_next_user_id w)
                    (w_users w)) as Hq.
      simpl in Hq. rewrite (Hq (λ _ _, eq_refl) u Hu). by destruct u.
    - intros t Ht. rewrite Honce. apply synced_rows_plex. right.
      apply list_elem_of_fmap. by exists t. }
  split; [done|].
  apply (f_equal length) in Heq. by rewrite !length_fmap in Heq.
Qed.

(** Whatever the surroundings decide, an upsert stores [is_home_user]
    true. *)
Lemma upsert_home fault now data w row w' :
  UserModel_upsert fault now data w = (Ok row, w') →
  u_is_home_user row = true
  ∧ ∀ u, u ∈ w_users w' → u_is_home_user u = false → u ∈ w_users w.
Proof.
  destruct fault as [e|]; [by unfold UserModel_upsert; run_M|].
  rewrite upsert_run. simpl.
  assert (Hhome : or_bool (c_is_home_user data) true = true).
  { unfold or_bool. by destruct (c_is_home_user data) as [[]|]. }
  destruct (List.find _ (w_users w)) as [old|] eqn:Hfind;
    intros [= <- <-]; simpl; (split; [done|]).
  - intros u Hu Hfalse. apply list_elem_of_fmap in Hu as (v & -> & Hv).
    destruct (has_plex_id _ v); [|done]. simpl in Hfalse. congruence.
  - intros u Hu Hfalse. apply elem_of_app in Hu as [Hu|Hu]; [done|].
    apply list_elem_of_singleton in Hu as ->. simpl in Hfalse. congruence.
Qed.

Lemma upsert_error fault now data w e w' :
  UserModel_upsert fault now data w = (Err e, w') → w' = w.
Proof.
  destruct fault as [e'|]; [unfold UserModel_upsert; run_M; congruence|].
  rewrite upsert_run. simpl. by destruct (List.find _ (w_users w)).
Qed.

Lemma upsert_all_cons env i t l w :
  upsert_all env i (t :: l) w
  = match UserModel_upsert (upsert_fault env i) (upsert_now env i)
            (from_tautulli t) w with
    | (Ok user, w1) =>
        match upsert_all env (S i) l w1 with
        | (Ok synced, w2) => (Ok (user :: synced), w2)
        | (Err e, w2) => (Err e, w2)
        end
    | (Err e, w1) => (Err e, w1)
    end.
Proof.
  simpl. unfold mbind, M_bind, bind.
  destruct (UserModel_upsert _ _ _ w) as [[user|e] w1]; [|done].
  by destruct (upsert_all env (S i) l w1) as [[synced|e] w2].
Qed.

Lemma upsert_all_home env l : ∀ i w,
  (∀ synced w', upsert_all env i l w = (Ok synced, w') →
     Forall (λ u, u_is_home_user u = true) synced)
  ∧ (∀ u, u ∈ w_users (upsert_all env i l w).2 →
       u_is_home_user u = false → u ∈ w_users w).
Proof.
  induction l as [|t l IH]; intros i w.
  - simpl. split; [by intros ?? [= <- <-]|done].
  - rewrite upsert_all_cons.
    destruct (UserModel_upsert _ _ _ w) as [[row|e] w1] eqn:Hrun.
    + apply upsert_home in Hrun as [Hrow Hrest].
      destruct (IH (S i) w1) as [IH1 IH2].
      destruct (upsert_all env (S i) l w1) as [[s|e] w2] eqn:Hall;
        simpl in *.
      * split.
        -- intros synced w' [= <- <-]. constructor; [done|]. by eapply IH1.
        -- intros u Hu Hfalse. apply Hrest; [|done]. by apply IH2.
      * split; [done|].
        intros u Hu Hfalse. apply Hrest; [|done]. by apply IH2.
    + apply upsert_error in Hrun as ->. split; [done|]. by intros u Hu _.
Qed.

(** X6. A sync never stores [is_home_user] false, whatever Tautulli
    reports and whichever calls fail: a row that has the flag false after
    the request had it before as the very same row, and every user the
    response lists has the flag true. *)
Theorem sync_never_clears_is_home_user (env : Env) (w : World) :
  (∀ u, u ∈ w_users (post_users_sync env w).2 →
     u_is_home_user u = false → u ∈ w_users w)
  ∧ (∀ resp w', post_users_sync env w = (Ok resp, w') →
       Forall (λ u, u_is_home_user u = true) (sync_users resp)).
Proof.
  unfold post_users_sync. run_M.
  destruct (getUsers env) as [l|e]; simpl; [|split; [done|by intros]].
  destruct (upsert_all_home env l 0
              (set_log (w_log w ++ [LogSyncStarting]) w)) as [H1 H2].
  destruct (upsert_all env 0 l _) as [[synced|e] w1] eqn:Hrun; simpl in *.
  - split; [exact H2|]. intros resp w' [= <- <-]. simpl. by eapply H1.
  - split; [exact H2|]. by intros.
Qed.

(** *** [UserModel.update] *)

(** What the entries of [data] ask for, one after the other. *)
Fixpoint assign_all (data : list (string * SqlValue)) (u : User)
    : option User :=
  match data with
  | [] => Some u
  | (column, v) :: rest => u' ← assign column v u; assign_all rest u'
  end.

Lemma build_from data : ∀ b,
  foldl push_entry b data
  = mkBuilder (updates b ++ zip data.*1 (seq (paramIndex b) (length data)))
      (values b ++ data.*2) (paramIndex b + length data).
Proof.
  induction data as [|[k v] data IH]; intros b; simpl.
  - destruct b; simpl. by rewrite !app_nil_r, Nat.add_0_r.
  - rewrite IH. simpl. rewrite <- !app_assoc. simpl. f_equal. lia.
Qed.

Lemma build_spec data :
  build data
  = mkBuilder (zip data.*1 (seq 1 (length data))) data.*2 (S (length data)).
Proof. unfold build. by rewrite build_from. Qed.

Lemma apply_sets_zip data : ∀ pre suffix u,
  apply_sets (zip data.*1 (seq (S (length pre)) (length data)))
    (pre ++ data.*2 ++ suffix) u
  = assign_all data u.
Proof.
  induction data as [|[k v] data IH]; intros pre suffix u; simpl; [done|].
  rewrite lookup_app_r by lia. rewrite Nat.sub_diag. simpl.
  destruct (assign k v u) as [u'|]; simpl; [|done].
  specialize (IH (pre ++ [v]) suffix u').
  rewrite length_app in IH. simpl in IH. rewrite Nat.add_1_r in IH.
  rewrite <- app_assoc in IH. exact IH.
Qed.

Lemma update_run (find_fault : option string) (now id : Z)
    (data : list (string * SqlValue)) (w : World) :
  data ≠ [] → NoDup data.*1 →
  let b := build data in
  (∀ j key v, data !! j = Some (key, v) →
     ∃ i, updates b !! j = Some (key, i)
          ∧ parameter (values b ++ [VInt id]) i = Some v)
  ∧ parameter (values b ++ [VInt id]) (paramIndex b) = Some (VInt id)
  ∧ UserModel_update find_fault None now id data w
    = match List.find (has_id id) (w_users w) with
      | None => (Ok None, w)
      | Some old =>
          match assign_all data old with
          | Some new =>
              (Ok (Some (touch now new)),
               set_users ((λ u, if has_id id u then touch now new else u)
                            <$> w_users w) w)
          | None => (Err "the statement is rejected", w)
          end
      end.
Proof.
  intros Hne Hnodup b. subst b. rewrite build_spec. simpl. split_and!.
  - intros j key v Hj. exists (S j). split.
    + rewrite lookup_zip_with. rewrite list_lookup_fmap, Hj. simpl.
      rewrite lookup_seq_lt; [done|]. by eapply lookup_lt_Some.
    + simpl. rewrite lookup_app_l.
      * by rewrite list_lookup_fmap, Hj.
      * rewrite length_fmap. by eapply lookup_lt_Some.
  - rewrite lookup_app_r by (rewrite length_fmap; lia).
    by rewrite length_fmap, Nat.sub_diag.
  - unfold UserModel_update. rewrite build_spec. simpl.
    rewrite length_zip_with, length_fmap, length_seq, Nat.min_id.
    rewrite bool_decide_eq_false_2 by (by destruct data).
    unfold run_update. run_M.
    assert (Hkeys : (zip data.*1 (seq 1 (length data))).*1 = data.*1).
    { apply fst_zip. rewrite length_fmap, length_seq. lia. }
    rewrite Hkeys, bool_decide_eq_true_2 by done. simpl.
    rewrite lookup_app_r by (rewrite length_fmap; lia).
    rewrite length_fmap, Nat.sub_diag. simpl.
    destruct (List.find _ (w_users w)) as [old|]; [|done].
    pose proof (apply_sets_zip data [] [VInt id] old) as Hsets.
    simpl in Hsets. rewrite Hsets.
    by destruct (assign_all data old).
Qed.

(** *** The language route *)

(** The row [u] after the language route has written [language] to it. *)
Definition with_language (language : string) (now : Z) (u : User) : User :=
  mkUser (u_id u) (u_plex_user_id u) (u_username u) (u_email u)
    (u_friendly_name u) (u_thumb u) (u_is_admin u) (u_is_home_user u)
    (u_is_allow_sync u) (u_is_restricted u) (Some language)
    (u_created_at u) now (u_last_seen u).

Lemma assign_language language now u :
  touch now <$> assign "preferred_language" (VStr language) u
  = Some (with_language language now u).
Proof. by destruct u. Qed.

Lemma valid_language_spec v l :
  valid_language v = Some l ↔ v = JStr l ∧ l ∈ validLanguages.
Proof.
  assert (Hempty : "" ∉ validLanguages).
  { intros H. apply list_elem_of_In in H. simpl in H. intuition discriminate. }
  unfold valid_language. destruct v; try (split; [done|by intros [? _]]).
  destruct (decide (s = "")) as [->|Hs].
  { simpl. split; [done|]. by intros [[= <-] ?]. }
  rewrite (bool_decide_eq_false_2 _ Hs). simpl.
  case_bool_decide as Hin.
  - split; [by intros [= <-]|by intros [[= <-] _]].
  - split; [done|]. by intros [[= <-] ?].
Qed.

Lemma update_language_run ff now id language w :
  UserModel_update ff None now id [("preferred_language", VStr language)] w
  = match List.find (has_id id) (w_users w) with
    | None => (Ok None, w)
    | Some old =>
        (Ok (Some (with_language language now old)),
         set_users ((λ u, if has_id id u
                          then with_language language now old else u)
                      <$> w_users w) w)
    end.
Proof.
  destruct (update_run ff now id
              [("preferred_language", VStr language)] w) as (_ & _ & ->).
  - done.
  - apply NoDup_singleton.
  - destruct (List.find _ (w_users w)) as [old|]; [|done].
    simpl. pose proof (assign_language language now old) as Ha.
    destruct (assign _ _ old) as [new|]; [|done].
    change (Some (touch now new) = Some (with_language language now old))
      in Ha.
    assert (Hb : touch now new = with_language language now old)
      by congruence.
    change (Some new ≫= λ u', Some u') with (Some new).
    cbv beta iota. by rewrite Hb.
Qed.

(** X7. The statement [UserModel.update] puts together assigns each
    column its own value. With no entry in [data] the call is
    [findById]. Otherwise, for entries with distinct keys, the entry at
    position [j] becomes the assignment [key = $i] whose placeholder [$i]
    stands for the value of that entry, the placeholder of the WHERE
    clause stands for the id, and a call the store accepts leaves the
    table with the one row of that id rewritten, entry by entry, and
    [updated_at] set; no row of that id, and nothing changes and [null]
    is returned. *)
Theorem update_assigns_each_column_its_value
    (find_fault fault : option string) (now id : Z)
    (data : list (string * SqlValue)) (w : World) :
  UserModel_update find_fault fault now id [] w
  = UserModel_findById find_fault id w
  ∧ (data ≠ [] → NoDup data.*1 →
     let b := build data in
     (∀ j key v, data !! j = Some (key, v) →
        ∃ i, updates b !! j = Some (key, i)
             ∧ parameter (values b ++ [VInt id]) i = Some v)
     ∧ parameter (values b ++ [VInt id]) (paramIndex b) = Some (VInt id)
     ∧ UserModel_update find_fault None now id data w
       = match List.find (has_id id) (w_users w) with
         | None => (Ok None, w)
         | Some old =>
             match assign_all data old with
             | Some new =>
                 (Ok (Some (touch now new)),
                  set_users ((λ u, if has_id id u then touch now new else u)
                               <$> w_users w) w)
             | None => (Err "the statement is rejected", w)
             end
         end).
Proof.
  split; [done|]. apply update_run.
Qed.

Lemma patch_run env userId v w :
  patch_user_language env userId v w
  = match valid_language v with
    | None =>
        (Ok (HttpError 400
               "Invalid language code. Must be one of: en, es, fr, de, sl"),
         w)
    | Some language =>
        match find_fault env with
        | Some e => (Err e, w)
        | None =>
            match List.find (has_id userId) (w_users w) with
            | None => (Ok (HttpError 404 "User not found"), w)
            | Some old =>
                match update_fault env with
                | Some e => (Err e, w)
                | None =>
                    let new := with_language language (update_now env) old in
                    (Ok (Json (mkLanguageResponse true (Some new))),
                     mkWorld ((λ u, if has_id userId u then new else u)
                                <$> w_users w)
                       (w_next_user_id w)
                       (w_log w ++ [LogLanguageUpdated userId language]))
                end
            end
        end
    end.
Proof.
  unfold patch_user_language.
  destruct (valid_language v) as [language|]; [|done].
  unfold mbind at 1, M_bind at 1, bind at 1. unfold UserModel_findById at 1.
  destruct (find_fault env) as [e|] eqn:Hff; [done|]. run_M.
  destruct (List.find (has_id userId) (w_users w)) as [old|] eqn:Hfind;
    [|done].
  destruct (update_fault env) as [e|] eqn:Huf.
  { unfold UserModel_update. simpl. by run_M. }
  rewrite update_language_run, Hfind. done.
Qed.

(** X8. The language route accepts exactly the five language codes, as
    strings, and writes one column. A body whose [preferred_language] is
    anything else is answered 400 and nothing changes; with a valid code
    and a store that accepts the calls, an unknown user id is answered
    404 and nothing changes, and for a known user the response carries
    the updated row, the table differs from the one before in
    [preferred_language] and [updated_at] of that row only, and one line
    is logged. *)
Theorem language_route_writes_one_column
    (env : Env) (userId : Z) (v : JsVal) (w : World) :
  (∀ l, valid_language v = Some l ↔ v = JStr l ∧ l ∈ validLanguages)
  ∧ (valid_language v = None →
     patch_user_language env userId v w
     = (Ok (HttpError 400
              "Invalid language code. Must be one of: en, es, fr, de, sl"),
        w))
  ∧ (∀ l, valid_language v = Some l →
       find_fault env = None → update_fault env = None →
       match List.find (has_id userId) (w_users w) with
       | None =>
           patch_user_language env userId v w
           = (Ok (HttpError 404 "User not found"), w)
       | Some old =>
           let new := with_language l (update_now env) old in
           patch_user_language env userId v w
           = (Ok (Json (mkLanguageResponse true (Some new))),
              mkWorld ((λ u, if has_id userId u then new else u)
                         <$> w_users w)
                (w_next_user_id w)
                (w_log w ++ [LogLanguageUpdated userId l]))
       end).
Proof.
  split_and!.
  - intros l. apply valid_language_spec.
  - intros Hv. by rewrite patch_run, Hv.
  - intros l Hv Hff Huf. rewrite patch_run, Hv, Hff, Huf.
    by destruct (List.find _ (w_users w)).
Qed.

(** *** What every request keeps *)

Definition languages_ok (w : World) : Prop :=
  Forall (λ u, ∃ l, u_preferred_language u = Some l ∧ l ∈ validLanguages)
    (w_users w).

Definition sound (w : World) : Prop := table_ok w ∧ languages_ok w.

Lemma en_is_valid : "en" ∈ validLanguages.
Proof. apply elem_of_cons. by left. Qed.

Lemma upsert_sound fault now data : stays sound (UserModel_upsert fault now data).
Proof.
  intros w [Htable Hlang].
  destruct fault as [e|]; [by unfold UserModel_upsert; run_M|].
  destruct (upsert_run_rows now data w) as [row ->]. simpl. split.
  - by apply upsert_rows_ok.
  - unfold languages_ok, upsert_rows in *. simpl.
    destruct (List.find _ (w_users w)) as [old|].
    + apply Forall_fmap. eapply list.Forall_impl; [exact Hlang|].
      intros u Hu. simpl. by destruct (has_plex_id _ u).
    + apply Forall_app. split; [done|].
      constructor; [|constructor]. exists "en". split; [done|].
      apply en_is_valid.
Qed.

Lemma upsert_all_sound env l : ∀ i, stays sound (upsert_all env i l).
Proof.
  induction l as [|t l IH]; intros i; simpl.
  - apply stays_ret.
  - apply stays_bind; [apply upsert_sound|]. intros user.
    apply stays_bind; [apply IH|]. intros synced. apply stays_ret.
Qed.

Lemma logger_sound l : stays sound (Users.logger l).
Proof. by intros w Hw. Qed.

Lemma sync_sound env : stays sound (post_users_sync env).
Proof.
  unfold post_users_sync.
  apply stays_bind; [apply logger_sound|]. intros _.
  apply stays_bind; [apply stays_lift|]. intros l.
  apply stays_bind; [apply upsert_all_sound|]. intros synced.
  apply stays_bind; [apply logger_sound|]. intros _. apply stays_ret.
Qed.

Lemma same_row_by_id (users : list User) u v :
  NoDup (u_id <$> users) → u ∈ users → v ∈ users → u_id u = u_id v → u = v.
Proof.
  induction users as [|x users IH]; simpl; [by intros _ ?%elem_of_nil|].
  rewrite list.NoDup_cons. intros [Hx Hnd] Hu Hv Heq.
  apply elem_of_cons in Hu as [->|Hu]; apply elem_of_cons in Hv as [->|Hv].
  - done.
  - destruct Hx. rewrite Heq. apply list_elem_of_fmap. by exists v.
  - destruct Hx. rewrite <- Heq. apply list_elem_of_fmap. by exists u.
  - by apply IH.
Qed.

Lemma patch_sound env userId v : stays sound (patch_user_language env userId v).
Proof.
  intros w [(Hid & Hplex & Hlt) Hlang]. rewrite patch_run.
  destruct (valid_language v) as [language|] eqn:Hv; [|done].
  apply valid_language_spec in Hv as [_ Hin].
  destruct (find_fault env); [done|].
  destruct (List.find _ (w_users w)) as [old|] eqn:Hfind; [|done].
  destruct (update_fault env); [done|]. simpl.
  apply find_some in Hfind as [Hold Hidold].
  apply list_elem_of_In in Hold. apply bool_decide_eq_true in Hidold.
  assert (Hmap : (λ u, if has_id userId u
                       then with_language language (update_now env) old
                       else u) <$> w_users w
                 = (λ u, if has_id userId u
                         then with_language language (update_now env) u
                         else u) <$> w_users w).
  { apply list_fmap_ext. intros j u Hu. apply list_elem_of_lookup_2 in Hu.
    unfold has_id. case_bool_decide as Hj; [|done].
    by rewrite (same_row_by_id (w_users w) u old Hid Hu Hold)
      by congruence. }
  rewrite Hmap. unfold sound, table_ok, languages_ok. simpl.
  assert (Hids : u_id <$> ((λ u, if has_id userId u
                   then with_language language (update_now env) u else u)
                   <$> w_users w) = u_id <$> w_users w).
  { rewrite <- list_fmap_compose. apply list_fmap_ext.
    intros j u _. simpl. by destruct (has_id userId u). }
  assert (Hplexes : u_plex_user_id <$> ((λ u, if has_id userId u
                   then with_language language (update_now env) u else u)
                   <$> w_users w) = u_plex_user_id <$> w_users w).
  { rewrite <- list_fmap_compose. apply list_fmap_ext.
    intros j u _. simpl. by destruct (has_id userId u). }
  rewrite Hids, Hplexes. split_and!; try done.
  - apply Forall_fmap. eapply list.Forall_impl; [exact Hlt|].
    intros u Hu. simpl. by destruct (has_id userId u).
  - apply Forall_fmap. eapply list.Forall_impl; [exact Hlang|].
    intros u Hu. simpl. destruct (has_id userId u); [|done].
    exists language. done.
Qed.

(** X9. No sequence of sync and language requests, with whatever
    answers of Tautulli and rejections of the store, breaks the users
    table: ids and Plex ids stay unique, every id stays below the next
    value of the sequence, and every row keeps a preferred language that
    is one of the five supported codes. *)
Theorem requests_keep_the_users_table_sound
    (requests : list Request) (w : World) :
  table_ok w → languages_ok w →
  table_ok (serve_all requests w) ∧ languages_ok (serve_all requests w).
Proof.
  intros Ht Hl. assert (Hs : sound w) by done. clear Ht Hl.
  revert w Hs. unfold serve_all.
  induction requests as [|r requests IH]; intros w Hs; simpl; [done|].
  apply IH. destruct r as [env|env userId v]; simpl.
  - by apply sync_sound.
  - by apply patch_sound.
Qed.

End UsersFacts.

Lemma upsert_keeps_identity_witness :
  ∃ row w',
    Users.UserModel_upsert None 50
      (Users.from_tautulli (Users.mkTautulliUser 101 "annie" None None None
                              0 0 1 0))
      Samples.users_world = (Ok row, w')
    ∧ Users.identity_of row = Users.identity_of Samples.ann
    ∧ Users.identity_of <$> Users.w_users w'
      = Users.identity_of <$> Users.w_users Samples.users_world.
Proof.
  destruct (upsert_keeps_identity 50
              (Users.from_tautulli (Users.mkTautulliUser 101 "annie" None None
                                      None 0 0 1 0))
              Samples.users_world Samples.ann)
    as (row & w' & Hrun & Hrow & Hall & _).
  - reflexivity.
  - exists row, w'. split_and!; assumption.
Defined.

Lemma sample_table_ok : Users.table_ok Samples.users_world.
Proof.
  unfold Users.table_ok. split_and!.
  - compute_done.
  - compute_done.
  - repeat constructor.
Qed.

Lemma sync_leaves_every_reported_user_witness :
  ∃ resp w',
    Users.post_users_sync Samples.users_env Samples.users_world = (Ok resp, w')
    ∧ Users.sync_message resp = "Synced 2 users"
    ∧ Users.table_ok w'.
Proof.
  destruct (sync_leaves_every_reported_user Samples.users_env Samples.report
              Samples.users_world)
    as (resp & w' & Hrun & _ & Hmessage & _ & _ & _ & Hok).
  - reflexivity.
  - intros i. reflexivity.
  - exact sample_table_ok.
  - exists resp, w'. split_and!; assumption.
Defined.

Lemma sync_keeps_what_it_wrote_before_a_rejection_witness :
  ∃ w1,
    Users.post_users_sync Samples.flaky_users_env Samples.users_world
    = (Err "connection lost", w1)
    ∧ ∀ t, t ∈ take 1 Samples.report →
           Users.t_user_id t ∈ Users.u_plex_user_id <$> Users.w_users w1.
Proof.
  destruct (sync_keeps_what_it_wrote_before_a_rejection
              Samples.flaky_users_env Samples.report 1 "connection lost"
              Samples.users_world)
    as (synced & w1 & _ & _ & Hrun & Hkept).
  - reflexivity.
  - simpl. lia.
  - intros j Hj. destruct j; [reflexivity|lia].
  - reflexivity.
  - exists w1. split; assumption.
Defined.

Lemma sync_twice_changes_timestamps_only_witness :
  Users.settled
    <$> Users.w_users
          (Users.post_users_sync Samples.users_env
             (Users.post_users_sync Samples.users_env Samples.users_world).2).2
  = Users.settled
      <$> Users.w_users
            (Users.post_users_sync Samples.users_env Samples.users_world).2.
Proof.
  apply (sync_twice_changes_timestamps_only Samples.users_env
           Samples.users_env Samples.report Samples.users_world).
  - reflexivity.
  - reflexivity.
  - intros i. reflexivity.
  - intros i. reflexivity.
Defined.

Lemma sample_languages_ok : languages_ok Samples.users_world.
Proof.
  unfold languages_ok. repeat constructor.
  - exists "fr". split; [reflexivity|].
    compute_done.
  - exists "en". split; [reflexivity|].
    compute_done.
Qed.

Lemma requests_keep_the_users_table_sound_witness :
  Users.table_ok
    (Users.serve_all
       [Users.Sync Samples.flaky_users_env;
        Users.PatchLanguage Samples.users_env 1 (Js.JStr "de");
        Users.Sync Samples.users_env]
       Samples.users_world)
  ∧ languages_ok
      (Users.serve_all
         [Users.Sync Samples.flaky_users_env;
          Users.PatchLanguage Samples.users_env 1 (Js.JStr "de");
          Users.Sync Samples.users_env]
         Samples.users_world).
Proof.
  apply (requests_keep_the_users_table_sound
           [Users.Sync Samples.flaky_users_env;
            Users.PatchLanguage Samples.users_env 1 (Js.JStr "de");
            Users.Sync Samples.users_env]
           Samples.users_world).
  - exact sample_table_ok.
  - exact sample_languages_ok.
Defined.

(** * Facts about the email job *)

Lemma t_ok B tr key locale params :
  ∃ s, I18n.t B tr key locale params = Ok s.
Proof.
  unfold I18n.t, I18n.translate.
  destruct (I18n.table_for _ _) as [table|]; [|eauto].
  destruct (Js.truthy table); simpl; [|eauto].
  destruct (navigate_ok B (I18n.split_dots key) table) as [[v|] ->]; [|eauto].
  destruct v; eauto. destruct params; eauto.
Qed.

Section EmailJobFacts.

Import Js Emails.

Variable env : Env.

Local Arguments I18n.t : simpl never.

Ltac run_E :=
  unfold mbind, mret, M_bind, M_ret, bind, ret, throw, try_catch, modify,
    gets, lift, may_fail, Emails.logger in *; simpl in *.

(** Every id in [email_logs] has been drawn from the sequence. *)
Definition log_ids_drawn (w : World) : Prop :=
  Forall (λ l, el_id l < w_next_email_log_id w) (w_email_logs w).

Definition is_sent (l : EmailLog) : bool :=
  match el_status l with
  | email_sent => true
  | _ => false
  end.

Definition sent_rows (rows : list EmailLog) : list EmailLog :=
  filter (λ l, is_sent l) rows.

(** What a run of the job may change between [w] and [w'], given the
    rows [candidates] it goes through. *)
Record job_step (generationId : Z) (candidates : list StatsRow)
    (w w' : World) : Prop := {
  js_users : w_users w' = w_users w;
  js_generations : w_generations w' = w_generations w;
  js_stats : w_stats w' = w_stats w;
  js_tokens : w_tokens w' = w_tokens w;
  js_fresh : log_ids_drawn w';
  js_next : w_next_email_log_id w ≤ w_next_email_log_id w';
  js_grow : ∃ new mails,
    w_email_logs w' = w_email_logs w ++ new
    ∧ w_outbox w' = w_outbox w ++ mails
    ∧ (length (sent_rows new) ≤ length mails)%nat
    ∧ (length mails ≤ length new)%nat
    ∧ (length new ≤ length candidates)%nat
    ∧ Forall (λ l, (el_status l = email_pending ∨ el_status l = email_sent)
                   ∧ el_generation_id l = generationId
                   ∧ w_next_email_log_id w ≤ el_id l) new
    ∧ Forall (λ m, ∃ s u, s ∈ candidates ∧ u ∈ w_users w
                          ∧ user_id u = stats_user_id s
                          ∧ email u = Some (mail_to m)) mails
}.

Lemma mark_sent_fresh id mid resp (rows : list EmailLog) :
  Forall (λ l, el_id l < id) rows → mark_sent id mid resp <$> rows = rows.
Proof.
  intros Hf. induction Hf as [|l rows Hl Hf IH]; [done|].
  rewrite fmap_cons, IH. unfold mark_sent.
  rewrite bool_decide_eq_false_2 by lia. done.
Qed.

Lemma fresh_weaken (rows : list EmailLog) n m :
  n ≤ m → Forall (λ l, el_id l < n) rows → Forall (λ l, el_id l < m) rows.
Proof.
  intros Hnm Hf. eapply list.Forall_impl; [exact Hf|].
  intros l Hl. simpl in *. lia.
Qed.

Lemma find_user_elem (users : list User) id user :
  List.find (λ u, bool_decide (user_id u = id)) users = Some user →
  user ∈ users ∧ user_id user = id.
Proof.
  intros H. apply find_some in H as [Hin Hid].
  apply bool_decide_eq_true in Hid. split; [|done].
  by apply list_elem_of_In.
Qed.

Lemma job_step_row generationId stats w user to subject status mid resp
    mails log :
  log_ids_drawn w → user ∈ w_users w → user_id user = stats_user_id stats →
  email user = Some to →
  (mails = [] ∧ status = email_pending)
  ∨ ((status = email_pending ∨ status = email_sent)
     ∧ ∃ html text, mails = [mkMail to subject html text]) →
  job_step generationId [stats] w
    (mkWorld (w_users w) (w_generations w) (w_stats w) (w_tokens w)
       (w_email_logs w
        ++ [mkEmailLog (w_next_email_log_id w) (user_id user) generationId
              to subject status mid resp])
       (w_next_email_log_id w + 1) (w_outbox w ++ mails) log).
Proof.
  intros Hfresh Huin Huid Hemail Hcases.
  split; simpl; [done|done|done|done| |lia|].
  - unfold log_ids_drawn. simpl. apply Forall_app. split.
    + eapply fresh_weaken; [|exact Hfresh]. lia.
    + constructor; [simpl; lia|constructor].
  - eexists [_], mails. split; [reflexivity|]. split; [reflexivity|].
    destruct Hcases as [[-> ->]|[Hst (html & text & ->)]]; simpl.
    + split_and!; try done; try lia.
      constructor; [|constructor]. simpl. split_and!; auto. lia.
    + split_and!; try lia.
      * unfold sent_rows. rewrite filter_cons. case_decide; simpl; lia.
      * constructor; [|constructor]. simpl. split_and!; auto. lia.
      * constructor; [|constructor]. exists stats, user. simpl.
        split_and!; try done. apply elem_of_cons. by left.
Qed.

Lemma send_one_step generationId i stats w :
  log_ids_drawn w →
  ∃ w', send_one env generationId i stats w = (Ok tt, w')
        ∧ job_step generationId [stats] w w'.
Proof.
  intros Hfresh.
  assert (Hsame : ∀ log, job_step generationId [stats] w (set_log log w)).
  { intros log. split; simpl; [done|done|done|done|exact Hfresh|lia|].
    exists [], []. rewrite !app_nil_r. simpl. split_and!; try done; lia. }
  unfold send_one, EmailLogModel_create, EmailLogModel_markSent,
    transporter_sendMail.
  destruct (find_user_fault env i) as [e|]; [run_E; eauto|].
  run_E.
  destruct (List.find _ (w_users w)) as [user|] eqn:Huser; [|run_E; eauto].
  destruct (email user) as [to|] eqn:Hemail; [|run_E; eauto].
  case_bool_decide as Hto; [run_E; eauto|].
  destruct (find_token_fault env i) as [e|]; [run_E; eauto|].
  run_E.
  destruct (List.find _ (w_tokens w)) as [tk|] eqn:Htoken; [|run_E; eauto].
  destruct (t_ok (builtins env) (translations env) "email.subject"
              (Some (or_en (preferred_language user)))
              (Some [("year", PNum (stats_year stats))])) as [subject Hsubj].
  rewrite Hsubj. simpl.
  destruct (create_log_fault env i) as [e|]; [run_E; eauto|].
  run_E.
  apply find_user_elem in Huser as [Huin Huid].
  set (mail := mkMail to subject _ _).
  destruct (sendMail env i mail) as [[mid resp]|e] eqn:Hsend; run_E.
  - destruct (mark_sent_fault env i) as [e|]; run_E.
    + eexists. split; [reflexivity|].
      apply (job_step_row generationId stats w user to subject email_pending
               None None [mail]); try done.
      right. split; [by left|]. eauto.
    + eexists. split; [reflexivity|].
      rewrite fmap_app, (mark_sent_fresh _ _ _ _ Hfresh). simpl.
      unfold mark_sent at 1. simpl. rewrite bool_decide_eq_true_2 by done.
      apply (job_step_row generationId stats w user to subject email_sent
               (Some mid) (Some resp) [mail]); try done.
      right. split; [by right|]. eauto.
  - eexists. split; [reflexivity|].
    pose proof (job_step_row generationId stats w user to subject
                  email_pending None None [] (w_log w ++ [LogSendFailed e])
                  Hfresh Huin Huid Hemail
                  (or_introl (conj eq_refl eq_refl))) as Hrow.
    rewrite app_nil_r in Hrow. exact Hrow.
Qed.

Lemma job_step_trans generationId c1 c2 w1 w2 w3 :
  job_step generationId c1 w1 w2 → job_step generationId c2 w2 w3 →
  job_step generationId (c1 ++ c2) w1 w3.
Proof.
  intros [Hu1 Hg1 Hs1 Ht1 Hf1 Hn1 (new1 & mails1 & Hl1 & Ho1 & Hsm1 & Hml1
                                     & Hlc1 & Hrows1 & Hmails1)]
         [Hu2 Hg2 Hs2 Ht2 Hf2 Hn2 (new2 & mails2 & Hl2 & Ho2 & Hsm2 & Hml2
                                     & Hlc2 & Hrows2 & Hmails2)].
  split; [congruence|congruence|congruence|congruence|done|lia|].
  exists (new1 ++ new2), (mails1 ++ mails2).
  rewrite Hl2, Hl1, Ho2, Ho1, <- !app_assoc.
  unfold sent_rows in *. rewrite list.filter_app, !length_app.
  split_and!; try done; try lia.
  - apply Forall_app. split; [done|].
    eapply list.Forall_impl; [exact Hrows2|].
    intros l (? & ? & ?). split_and!; try done. lia.
  - apply Forall_app. split.
    + eapply list.Forall_impl; [exact Hmails1|].
      intros m (s & u & Hs & Hu & ? & ?). exists s, u.
      split_and!; try done. apply elem_of_app. by left.
    + eapply list.Forall_impl; [exact Hmails2|].
      intros m (s & u & Hs & Hu & ? & ?). exists s, u.
      split_and!; try done; [apply elem_of_app; by right|congruence].
Qed.

Lemma send_all_step generationId statsList : ∀ i w,
  log_ids_drawn w →
  ∃ w', send_all env generationId i statsList w = (Ok tt, w')
        ∧ job_step generationId statsList w w'.
Proof.
  induction statsList as [|stats rest IH]; intros i w Hfresh; simpl.
  - exists w. split; [done|].
    split; [done|done|done|done|done|lia|]. exists [], []. rewrite !app_nil_r.
    simpl. split_and!; try done; lia.
  - destruct (send_one_step generationId i stats w Hfresh)
      as (w1 & Hrun1 & Hstep1).
    destruct (IH (S i) w1 (js_fresh _ _ _ _ Hstep1)) as (w2 & Hrun2 & Hstep2).
    exists w2. unfold mbind, M_bind, bind. rewrite Hrun1. split; [done|].
    change (stats :: rest) with ([stats] ++ rest).
    by eapply job_step_trans.
Qed.

(** X10. The email job accounts for every message. Whatever the store
    and the SMTP server answer, [sendEmails] never throws; the rows it
    adds to [email_logs] belong to the generation and are 'pending' or
    'sent', never 'failed' (a delivery that fails after its row was
    created leaves the row 'pending'); there are at least as many
    messages handed to the SMTP server as rows marked sent, at least as
    many new rows as messages, and at most one new row per recipient;
    every message went to the address of the user of a listed statistics
    row; and the users, statistics and tokens are unchanged. *)
Theorem email_job_accounts_for_every_message
    (statsList : list StatsRow) (generationId : Z) (w : World) :
  log_ids_drawn w →
  ∃ w' new mails,
    sendEmails env statsList generationId w = (Ok tt, w')
    ∧ w_email_logs w' = w_email_logs w ++ new
    ∧ w_outbox w' = w_outbox w ++ mails
    ∧ (length (sent_rows new) ≤ length mails)%nat
    ∧ (length mails ≤ length new)%nat
    ∧ (length new ≤ length statsList)%nat
    ∧ Forall (λ l, (el_status l = email_pending ∨ el_status l = email_sent)
                   ∧ el_generation_id l = generationId) new
    ∧ Forall (λ m, ∃ s u, s ∈ statsList ∧ u ∈ w_users w
                          ∧ user_id u = stats_user_id s
                          ∧ email u = Some (mail_to m)) mails
    ∧ w_users w' = w_users w ∧ w_stats w' = w_stats w
    ∧ w_tokens w' = w_tokens w.
Proof.
  intros Hfresh.
  destruct (send_all_step generationId statsList 0 w Hfresh)
    as (w1 & Hrun & [Hu Hg Hs Ht Hf Hn (new & mails & Hl & Ho & Hsm & Hml
                                          & Hlc & Hrows & Hmails)]).
  exists (set_log (w_log w1 ++ [LogSendingCompleted]) w1), new, mails.
  unfold sendEmails. run_E. rewrite Hrun. simpl.
  split_and!; try done.
  eapply list.Forall_impl; [exact Hrows|]. by intros l (? & ? & ?).
Qed.

Lemma send_all_app generationId l1 : ∀ l2 i w,
  send_all env generationId i (l1 ++ l2) w
  = (send_all env generationId i l1 ;;
     send_all env generationId (i + length l1) l2) w.
Proof.
  induction l1 as [|s l1 IH]; intros l2 i w; simpl.
  - by rewrite Nat.add_0_r.
  - unfold mbind, M_bind, bind.
    destruct (send_one env generationId i s w) as [[[]|e] w1]; [|done].
    rewrite IH. unfold mbind, M_bind, bind.
    by replace (S i + length l1)%nat with (i + S (length l1))%nat by lia.
Qed.

(** The address, the token and the locale the job uses for [stats]. *)
Record deliverable (w : World) (stats : StatsRow) (user : User)
    (to : string) (tk : TokenRow) : Prop := {
  dl_user : List.find (λ u, bool_decide (user_id u = stats_user_id stats))
              (w_users w) = Some user;
  dl_email : email user = Some to;
  dl_address : to ≠ "";
  dl_token : List.find (λ t, bool_decide (tk_stats_id t = stats_id stats))
               (w_tokens w) = Some tk
}.

(** The calls the job makes for the recipient at position [i] are
    accepted. *)
Definition accepted (i : nat) : Prop :=
  find_user_fault env i = None ∧ find_token_fault env i = None
  ∧ create_log_fault env i = None ∧ mark_sent_fault env i = None
  ∧ ∀ mail, ∃ info, sendMail env i mail = Ok info.

Definition wrappedUrl (user : User) (tk : TokenRow) : string :=
  APP_URL env +:+ "/wrapped/" +:+ tk_token tk +:+ "?lang="
  +:+ or_en (preferred_language user).

(** The message and the row of the log an accepted delivery leaves. *)
Definition delivered (generationId : Z) (stats : StatsRow) (user : User)
    (to : string) (tk : TokenRow) (w : World) : Prop :=
  ∃ mail row,
    mail ∈ w_outbox w ∧ row ∈ w_email_logs w
    ∧ mail_to mail = to
    ∧ mail_html mail
      = generateEmailHTML env user stats (wrappedUrl user tk)
          (or_en (preferred_language user))
    ∧ mail_text mail
      = generateEmailText env user stats (wrappedUrl user tk)
          (or_en (preferred_language user))
    ∧ el_email_to row = to ∧ el_user_id row = user_id user
    ∧ el_generation_id row = generationId ∧ el_status row = email_sent
    ∧ el_email_subject row = mail_subject mail.

Lemma send_one_delivers generationId i stats user to tk w :
  log_ids_drawn w → deliverable w stats user to tk → accepted i →
  delivered generationId stats user to tk
    (send_one env generationId i stats w).2.
Proof.
  intros Hfresh [Huser Hemail Hto Htoken] (Hfu & Hft & Hcl & Hms & Hsend).
  unfold send_one, EmailLogModel_create, EmailLogModel_markSent,
    transporter_sendMail.
  rewrite Hfu. run_E. rewrite Huser, Hemail.
  rewrite bool_decide_eq_false_2 by done. rewrite Hft. run_E.
  rewrite Htoken.
  destruct (t_ok (builtins env) (translations env) "email.subject"
              (Some (or_en (preferred_language user)))
              (Some [("year", PNum (stats_year stats))])) as [subject Hsubj].
  rewrite Hsubj. simpl. rewrite Hcl. run_E.
  set (mail := mkMail to subject _ _).
  destruct (Hsend mail) as [[mid resp] ->]. run_E. rewrite Hms. run_E.
  rewrite fmap_app, (mark_sent_fresh _ _ _ _ Hfresh). simpl.
  unfold mark_sent at 1. simpl. rewrite bool_decide_eq_true_2 by done.
  eexists mail, _. split_and!.
  - apply elem_of_app. right. apply list_elem_of_singleton. reflexivity.
  - apply elem_of_app. right. apply list_elem_of_singleton. reflexivity.
  - done.
  - done.
  - done.
  - done.
  - done.
  - done.
  - done.
  - done.
Qed.

Lemma job_step_keeps generationId c w w' stats user to tk :
  job_step generationId c w w' →
  (deliverable w stats user to tk → deliverable w' stats user to tk)
  ∧ (delivered generationId stats user to tk w →
     delivered generationId stats user to tk w').
Proof.
  intros [Hu Hg Hs Ht Hf Hn (new & mails & Hl & Ho & _)]. split.
  - intros [? ? ? ?]. split; try done; congruence.
  - intros (mail & row & Hm & Hr & Hrest). exists mail, row.
    rewrite Hl, Ho. split_and!; try (by apply elem_of_app; left).
    all: by decompose [and] Hrest.
Qed.

(** X11. A recipient gets the email whatever happens to the others: if
    the user of the statistics row at position [i] has an address and a
    token, and the calls made for that position are accepted, then after
    the job the outbox holds the message to that address, with the
    wrapped URL of the token and the language of the user, and
    [email_logs] holds its row, marked sent, whatever fails for the other
    recipients. *)
Theorem email_job_delivers_whatever_happens_to_the_others
    (statsList : list StatsRow) (generationId : Z) (w : World)
    (i : nat) (stats : StatsRow) (user : User) (to : string) (tk : TokenRow) :
  log_ids_drawn w → statsList !! i = Some stats →
  deliverable w stats user to tk → accepted i →
  delivered generationId stats user to tk
    (sendEmails env statsList generationId w).2.
Proof.
  intros Hfresh Hi Hdel Hacc.
  apply list_elem_of_split_length in Hi as (l1 & l2 & -> & ->).
  unfold sendEmails. unfold mbind at 1, M_bind at 1, bind at 1.
  rewrite send_all_app. unfold mbind at 1, M_bind at 1, bind at 1.
  destruct (send_all_step generationId l1 0 w Hfresh) as (w1 & -> & Hstep1).
  simpl.
  unfold mbind at 1, M_bind at 1, bind at 1.
  destruct (send_one_step generationId (length l1) stats w1
              (js_fresh _ _ _ _ Hstep1)) as (w2 & Hrun2 & Hstep2).
  pose proof (send_one_delivers generationId (length l1) stats user to tk w1
                (js_fresh _ _ _ _ Hstep1)
                (proj1 (job_step_keeps _ _ _ _ stats user to tk Hstep1) Hdel)
                Hacc) as Hd.
  rewrite Hrun2 in Hd |- *. simpl in Hd.
  destruct (send_all_step generationId l2 (S (length l1)) w2
              (js_fresh _ _ _ _ Hstep2)) as (w3 & -> & Hstep3).
  apply (proj2 (job_step_keeps _ _ _ _ stats user to tk Hstep3)) in Hd.
  run_E. destruct Hd as (mail & row & Hd). exists mail, row. exact Hd.
Qed.

End EmailJobFacts.

Lemma sample_email_world_fresh : log_ids_drawn Demo.email_world.
Proof.
  unfold log_ids_drawn. constructor.
Qed.

Lemma email_job_accounts_for_every_message_witness :
  ∃ w',
    Emails.sendEmails Demo.live_email_env (Emails.w_stats Demo.email_world) 7
      Demo.email_world = (Ok tt, w')
    ∧ Emails.w_users w' = Emails.w_users Demo.email_world
    ∧ (length (Emails.w_outbox w') ≤ 2)%nat.
Proof.
  destruct (email_job_accounts_for_every_message Demo.live_email_env
              (Emails.w_stats Demo.email_world) 7 Demo.email_world)
    as (w' & new & mails & Hrun & _ & Hout & _ & Hmails & Hnew & _ & _
        & Husers & _).
  - exact sample_email_world_fresh.
  - exists w'. split_and!; [assumption..|].
    rewrite Hout. simpl in *. lia.
Defined.

Lemma email_job_delivers_whatever_happens_to_the_others_witness :
  delivered Demo.live_email_env 7
    (Emails.mkStatsRow 11 1 (Some 7) 2025 600 12 9)
    (Emails.mkUser 1 "ann" None (Some "ann@example.org") (Some "fr"))
    "ann@example.org" (Emails.mkTokenRow "tok-ann" 11)
    (Emails.sendEmails Demo.live_email_env (Emails.w_stats Demo.email_world)
       7 Demo.email_world).2.
Proof.
  apply (email_job_delivers_whatever_happens_to_the_others
           Demo.live_email_env (Emails.w_stats Demo.email_world) 7
           Demo.email_world 0).
  - exact sample_email_world_fresh.
  - reflexivity.
  - constructor; [reflexivity|reflexivity|discriminate|reflexivity].
  - unfold accepted. split_and!; try reflexivity.
    intros mail. eexists. reflexivity.
Defined.

(** * Facts about the login *)

Section LoginFacts.

Import Js Login.

Variable env : Env.

Ltac run_L :=
  unfold mbind, mret, M_bind, M_ret, bind, ret, throw, try_catch, modify,
    gets, lift, may_fail in *; simpl in *.

Lemma env_or_nonempty value fallback :
  fallback ≠ "" → env_or value fallback ≠ "".
Proof.
  intros Hf. unfold env_or. destruct value as [s|]; [|done].
  by case_bool_decide.
Qed.

Lemma same_string_spec v s : same_string v s = true ↔ v = JStr s.
Proof.
  destruct v; simpl; try (split; [done|by intros [=]]).
  rewrite bool_decide_eq_true. split; [by intros ->|by intros [= ->]].
Qed.

(** X12. The login answers with a token exactly when the body holds, as
    strings, the configured user name ('admin' when ADMIN_USERNAME is not
    set or empty) and the configured non-empty password, and
    [generateToken] succeeds; the user of the response is then the
    administrator with id 1 and one line is logged. With a password
    configured and both fields given, a wrong name and a wrong password
    are answered alike, 401 'Invalid credentials', and nothing is
    logged. *)
Theorem login_needs_the_configured_credentials
    (username password : JsVal) (log : list LogLine) :
  let admin := env_or (ADMIN_USERNAME env) "admin" in
  (∀ resp log',
     post_login env username password log = (Ok (Json resp), log') ↔
     ∃ secret token,
       username = JStr admin ∧ password = JStr secret ∧ secret ≠ ""
       ∧ ADMIN_PASSWORD env = Some secret
       ∧ generateToken env 1 admin = Ok token
       ∧ resp = mkLoginResponse true token 1 admin
       ∧ log' = log ++ [LogLoginSuccessful username])
  ∧ (truthy username = true → truthy password = true →
     ∀ secret, ADMIN_PASSWORD env = Some secret → secret ≠ "" →
     username ≠ JStr admin ∨ password ≠ JStr secret →
     post_login env username password log
     = (Ok (HttpError 401 "Invalid credentials"), log)).
Proof.
  intros admin. split.
  - intros resp log'. unfold post_login. fold admin. split.
    + destruct (truthy username) eqn:Hu; simpl; [|by run_L].
      destruct (truthy password) eqn:Hp; simpl; [|by run_L].
      destruct (ADMIN_PASSWORD env) as [secret|]; [|by run_L].
      case_bool_decide as Hs; [by run_L|].
      destruct (same_string username admin) eqn:Hsu; simpl; [|by run_L].
      destruct (same_string password secret) eqn:Hsp; simpl; [|by run_L].
      apply same_string_spec in Hsu, Hsp. run_L.
      destruct (generateToken env 1 admin) as [token|e] eqn:Ht; [|done].
      intros [= <- <-]. exists secret, token. by rewrite Hsu.
    + intros (secret & token & -> & -> & Hs & Hpw & Ht & -> & ->).
      assert (Ha : admin ≠ "") by (by apply env_or_nonempty).
      simpl. rewrite !bool_decide_eq_false_2 by done. simpl.
      rewrite Hpw. rewrite bool_decide_eq_false_2 by done.
      rewrite !bool_decide_eq_true_2 by done. simpl.
      run_L. by rewrite Ht.
  - intros Hu Hp secret Hpw Hs Hwrong. unfold post_login. fold admin.
    rewrite Hu, Hp, Hpw. simpl. rewrite bool_decide_eq_false_2 by done.
    destruct (same_string username admin) eqn:Hsu; simpl; [|done].
    destruct (same_string password secret) eqn:Hsp; simpl; [|done].
    apply same_string_spec in Hsu, Hsp. by destruct Hwrong.
Qed.

End LoginFacts.

(** * Facts about the email of one user *)

Section SendEmailFacts.

Import Js SendEmail.

Variable env : Env.

Local Arguments I18n.t : simpl never.

Ltac run_S :=
  unfold mbind, mret, M_bind, M_ret, bind, ret, throw, try_catch, modify,
    gets, lift, may_fail, SendEmail.logger in *; simpl in *.

Definition fresh_ids (w : World) : Prop :=
  Forall (λ l, sl_id l < w_next_email_log_id w) (w_email_logs w).

Lemma mark_sent_old id mid resp (rows : list EmailLog) :
  Forall (λ l, sl_id l < id) rows → mark_sent id mid resp <$> rows = rows.
Proof.
  intros Hf. induction Hf as [|l rows Hl Hf IH]; [done|].
  rewrite fmap_cons, IH. unfold mark_sent.
  by rewrite bool_decide_eq_false_2 by lia.
Qed.

Lemma mark_failed_old id e (rows : list EmailLog) :
  Forall (λ l, sl_id l < id) rows → mark_failed id e <$> rows = rows.
Proof.
  intros Hf. induction Hf as [|l rows Hl Hf IH]; [done|].
  rewrite fmap_cons, IH. unfold mark_failed.
  by rewrite bool_decide_eq_false_2 by lia.
Qed.

(** The token the route uses: the one on record for the statistics, or a
    new one. *)
Definition token_for (w : World) (stats : Emails.StatsRow) : Emails.TokenRow :=
  default (Emails.mkTokenRow (new_token env) (Emails.stats_id stats))
    (List.find (λ t, bool_decide (Emails.tk_stats_id t = Emails.stats_id stats))
       (w_tokens w)).

Definition tokens_after (w : World) (stats : Emails.StatsRow)
    : list Emails.TokenRow :=
  match List.find (λ t, bool_decide (Emails.tk_stats_id t
                                     = Emails.stats_id stats)) (w_tokens w) with
  | Some _ => w_tokens w
  | None => w_tokens w ++ [token_for w stats]
  end.

(** The message the route hands to the SMTP server. *)
Definition message (w : World) (user : Emails.User) (stats : Emails.StatsRow)
    (to subject : string) : Emails.Mail :=
  let locale := Emails.or_en (Emails.preferred_language user) in
  let wrappedUrl :=
    Login.env_or (APP_URL env) "http://localhost:3000" +:+ "/wrapped/"
    +:+ Emails.tk_token (token_for w stats) +:+ "?lang=" +:+ locale in
  Emails.mkMail to subject
    (generateEmailHTML env user stats wrappedUrl locale)
    (generateEmailText env user stats wrappedUrl locale).

(** The state after an attempt: one row more in [email_logs]. *)
Definition attempted (w : World) (user : Emails.User) (stats : Emails.StatsRow)
    (to subject : string) (status : Emails.EmailStatus)
    (error message_id response : option string)
    (mails : list Emails.Mail) (line : LogLine) : World :=
  mkWorld (w_users w) (w_stats w) (tokens_after w stats)
    (w_email_logs w
     ++ [mkEmailLog (w_next_email_log_id w) (Emails.user_id user) None to
           subject status error message_id response])
    (w_next_email_log_id w + 1) (w_outbox w ++ mails) (w_log w ++ [line]).

Lemma send_run userId user to stats w :
  fresh_ids w →
  List.find (λ u, bool_decide (Emails.user_id u = userId)) (w_users w)
  = Some user →
  Emails.email user = Some to → to ≠ "" →
  List.find (λ s, bool_decide (Emails.stats_user_id s = userId)
                  && bool_decide (Emails.stats_year s = TARGET_YEAR env))
    (w_stats w) = Some stats →
  find_user_fault env = None → find_stats_fault env = None →
  find_token_fault env = None → create_token_fault env = None →
  create_log_fault env = None →
  ∃ subject,
    I18n.t (builtins env) (translations env) "email.subject"
      (Some (Emails.or_en (Emails.preferred_language user)))
      (Some [("year", PNum (TARGET_YEAR env))]) = Ok subject
    ∧ let mail := message w user stats to subject in
      match sendMail env mail with
      | Ok (mid, resp) =>
          (mark_sent_fault env = None →
           post_user_send_email env userId w
           = (Ok (Json (mkSendResponse true "Email sent successfully" to)),
              attempted w user stats to subject Emails.email_sent None
                (Some mid) (Some resp) [mail] (LogEmailSent to)))
          ∧ (∀ e, mark_sent_fault env = Some e →
               mark_failed_fault env = None →
               post_user_send_email env userId w
               = (Ok (HttpError 500 ("Failed to send email: " +:+ e)),
                  attempted w user stats to subject Emails.email_failed
                    (Some e) None None [mail] (LogSendFailed to e)))
      | Err e =>
          mark_failed_fault env = None →
          post_user_send_email env userId w
          = (Ok (HttpError 500 ("Failed to send email: " +:+ e)),
             attempted w user stats to subject Emails.email_failed
               (Some e) None None [] (LogSendFailed to e))
      end.
Proof.
  intros Hfresh Huser Hemail Hto Hstats Hfu Hfs Hft Hct Hcl.
  destruct (t_ok (builtins env) (translations env) "email.subject"
              (Some (Emails.or_en (Emails.preferred_language user)))
              (Some [("year", PNum (TARGET_YEAR env))])) as [subject Hsubj].
  exists subject. split; [done|].
  unfold post_user_send_email, UserModel_findById,
    UserWrappedStatsModel_findByUserAndYear,
    AccessTokenModel_findByWrappedStatsId, AccessTokenModel_create,
    EmailLogModel_create, EmailLogModel_markSent, EmailLogModel_markFailed,
    transporter_sendMail, message, attempted, tokens_after, token_for.
  rewrite Hfu, Hfs, Hft, Hct, Hcl. run_S.
  rewrite Huser, Hemail. rewrite bool_decide_eq_false_2 by done.
  rewrite Hstats.
  destruct (List.find _ (w_tokens w)) as [tk|] eqn:Htk; simpl;
    rewrite Hsubj; simpl.
  - destruct (sendMail env _) as [[mid resp]|e]; simpl.
    + split.
      * intros ->. simpl. rewrite fmap_app, (mark_sent_old _ _ _ _ Hfresh).
        simpl. unfold mark_sent. simpl.
        rewrite bool_decide_eq_true_2 by done. reflexivity.
      * intros e -> ->. simpl.
        rewrite fmap_app, (mark_failed_old _ _ _ Hfresh).
        simpl. unfold mark_failed. simpl.
        rewrite bool_decide_eq_true_2 by done. reflexivity.
    + intros ->. simpl. rewrite fmap_app, (mark_failed_old _ _ _ Hfresh).
      simpl. unfold mark_failed. simpl.
      rewrite bool_decide_eq_true_2 by done. rewrite app_nil_r.
      reflexivity.
  - destruct (sendMail env _) as [[mid resp]|e]; simpl.
    + split.
      * intros ->. simpl. rewrite fmap_app, (mark_sent_old _ _ _ _ Hfresh).
        simpl. unfold mark_sent. simpl.
        rewrite bool_decide_eq_true_2 by done. reflexivity.
      * intros e -> ->. simpl.
        rewrite fmap_app, (mark_failed_old _ _ _ Hfresh).
        simpl. unfold mark_failed. simpl.
        rewrite bool_decide_eq_true_2 by done. reflexivity.
    + intros ->. simpl. rewrite fmap_app, (mark_failed_old _ _ _ Hfresh).
      simpl. unfold mark_failed. simpl.
      rewrite bool_decide_eq_true_2 by done. rewrite app_nil_r.
      reflexivity.
Qed.

(** X13. Sending the email of one user logs the outcome of the attempt
    and does not look at the test mode. For a user with an address and
    statistics of the target year, and a store that accepts the lookups
    and the new row: when the SMTP server accepts the message the answer
    is success and the one new row of [email_logs] is 'sent' with the id
    and response of the server; when the server rejects it the answer is
    500 and the row is 'failed' with the error; when the message is
    delivered but marking the row sent is rejected, the answer is 500 and
    the row is 'failed' although the message has gone out. And the
    handler behaves the same whatever TEST_MODE is: it sends for real in
    test mode too. *)
Theorem single_send_logs_its_outcome_in_any_mode
    (userId : Z) (user : Emails.User) (to : string) (stats : Emails.StatsRow)
    (w : World) :
  fresh_ids w →
  List.find (λ u, bool_decide (Emails.user_id u = userId)) (w_users w)
  = Some user →
  Emails.email user = Some to → to ≠ "" →
  List.find (λ s, bool_decide (Emails.stats_user_id s = userId)
                  && bool_decide (Emails.stats_year s = TARGET_YEAR env))
    (w_stats w) = Some stats →
  find_user_fault env = None → find_stats_fault env = None →
  find_token_fault env = None → create_token_fault env = None →
  create_log_fault env = None →
  (∃ subject,
     I18n.t (builtins env) (translations env) "email.subject"
       (Some (Emails.or_en (Emails.preferred_language user)))
       (Some [("year", PNum (TARGET_YEAR env))]) = Ok subject
     ∧ let mail := message w user stats to subject in
       match sendMail env mail with
       | Ok (mid, resp) =>
           (mark_sent_fault env = None →
            post_user_send_email env userId w
            = (Ok (Json (mkSendResponse true "Email sent successfully" to)),
               attempted w user stats to subject Emails.email_sent None
                 (Some mid) (Some resp) [mail] (LogEmailSent to)))
           ∧ (∀ e, mark_sent_fault env = Some e →
                mark_failed_fault env = None →
                post_user_send_email env userId w
                = (Ok (HttpError 500 ("Failed to send email: " +:+ e)),
                   attempted w user stats to subject Emails.email_failed
                     (Some e) None None [mail] (LogSendFailed to e)))
       | Err e =>
           mark_failed_fault env = None →
           post_user_send_email env userId w
           = (Ok (HttpError 500 ("Failed to send email: " +:+ e)),
              attempted w user stats to subject Emails.email_failed
                (Some e) None None [] (LogSendFailed to e))
       end)
  ∧ ∀ mode,
      post_user_send_email (with_test_mode mode env) userId w
      = post_user_send_email env userId w.
Proof.
  intros. split; [by apply send_run|]. intros mode. by destruct env.
Qed.

End SendEmailFacts.

Lemma single_send_logs_its_outcome_in_any_mode_witness :
  SendEmail.post_user_send_email
    (SendEmail.with_test_mode (Some "true") Samples.send_env) 1
    Samples.send_world
  = SendEmail.post_user_send_email Samples.send_env 1 Samples.send_world.
Proof.
  generalize (Some "true"). 
  apply (single_send_logs_its_outcome_in_any_mode Samples.send_env 1
           (Emails.mkUser 1 "ann" None (Some "ann@example.org") (Some "fr"))
           "ann@example.org" (Emails.mkStatsRow 11 1 (Some 7) 2025 600 12 9)
           Samples.send_world); try reflexivity.
  - unfold fresh_ids. constructor.
  - discriminate.
Defined.

(** * More facts about the translation service *)

Section I18nMoreFacts.

Import Js I18n.

Variable B : Builtins.

(** Every character of [s] passes [test]. *)
Fixpoint all_chars (test : ascii → bool) (s : string) : bool :=
  match s with
  | EmptyString => true
  | String c rest => test c && all_chars test rest
  end.

Definition not_open (c : ascii) : bool := negb (bool_decide (c = "{"%char)).

(** The parameter a placeholder names: the first entry with that key. *)
Definition param_of (params : list (string * Prim)) (name : string)
    : option Prim :=
  snd <$> List.find (λ kv, bool_decide (kv.1 = name)) params.

Lemma append_cons c (a b : string) : String c a +:+ b = String c (a +:+ b).
Proof. done. Qed.

Lemma append_empty_l (b : string) : "" +:+ b = b.
Proof. done. Qed.

Lemma append_empty_r (a : string) : a +:+ "" = a.
Proof. induction a as [|x a IH]; [done|]. by rewrite append_cons, IH. Qed.

Lemma append_snoc (a : string) c (w : string) :
  (a +:+ String c "") +:+ w = a +:+ String c w.
Proof.
  induction a as [|x a IH]; [done|]. by rewrite !append_cons, IH.
Qed.

Lemma replace_plain params pre : ∀ s,
  all_chars not_open pre = true →
  replace_placeholders B params None (pre +:+ s)
  = pre +:+ replace_placeholders B params None s.
Proof.
  induction pre as [|c pre IH]; intros s Hpre; simpl in *; [done|].
  apply andb_true_iff in Hpre as [Hc Hpre]. unfold not_open in Hc.
  apply negb_true_iff in Hc. rewrite !append_cons. simpl.
  rewrite Hc. by rewrite IH.
Qed.

Lemma replace_word params w : ∀ acc s,
  all_chars is_word_char w = true →
  replace_placeholders B params (Some acc) (w +:+ s)
  = replace_placeholders B params (Some (acc +:+ w)) s.
Proof.
  induction w as [|c w IH]; intros acc s Hw; simpl in *.
  - by rewrite append_empty_l, append_empty_r.
  - apply andb_true_iff in Hw as [Hc Hw]. rewrite append_cons. simpl.
    rewrite Hc, IH by done. by rewrite append_snoc.
Qed.

Lemma replace_close params name post :
  name ≠ "" →
  replace_placeholders B params (Some name) (String "}" post)
  = replacement B params name +:+ replace_placeholders B params None post.
Proof.
  intros Hname. simpl.
  by rewrite (bool_decide_eq_false_2 _ Hname).
Qed.

Lemma own_property_params params name :
  own_property (prod_map id prim_val <$> params) name
  = prim_val <$> param_of params name.
Proof.
  unfold own_property, param_of.
  induction params as [|[k v] params IH]; simpl; [done|].
  case_bool_decide; simpl; [done|]. exact IH.
Qed.

Lemma replacement_cases params name :
  replacement B params name
  = match param_of params name with
    | Some PUndefined => "{" +:+ name +:+ "}"
    | Some v => js_String B (prim_val v)
    | None =>
        if is_member (object_members B) name
        then if bool_decide (name = "__proto__") then "[object Object]"
             else function_source B name
        else "{" +:+ name +:+ "}"
    end.
Proof.
  unfold replacement, object_get. rewrite own_property_params.
  destruct (param_of params name) as [[| |[]|n|s]|]; simpl; try done.
  unfold inherited_from_object. destruct (is_member _ name); [|done].
  by case_bool_decide.
Qed.

Lemma interpolate_plain params template :
  all_chars not_open template = true → interpolate B template params = template.
Proof.
  intros Hp. unfold interpolate.
  pose proof (replace_plain params template "" Hp) as H.
  simpl in H. by rewrite !append_empty_r in H.
Qed.

(** The text a placeholder named [name] is replaced with. *)
Definition filled (params : list (string * Prim)) (name : string) : string :=
  match param_of params name with
  | Some PUndefined => "{" +:+ name +:+ "}"
  | Some v => js_String B (prim_val v)
  | None =>
      if is_member (object_members B) name
      then if bool_decide (name = "__proto__") then "[object Object]"
           else function_source B name
      else "{" +:+ name +:+ "}"
  end.

(** X14. [interpolate] fills the placeholders from left to right, once:
    text without an opening brace is returned as it is, and a template
    that starts with such text followed by a placeholder [{name}] becomes
    the text, then the value of the parameter [name] as a string, then
    the interpolation of the rest; what was filled in is not read again.
    A name without a parameter, or with the value [undefined], stays as
    written, unless every object inherits a member of that name, which
    is then filled in. *)
Theorem interpolate_fills_each_placeholder_once
    (params : list (string * Prim)) (pre name post : string) :
  all_chars not_open pre = true →
  interpolate B pre params = pre
  ∧ (all_chars is_word_char name = true → name ≠ "" →
     interpolate B (pre +:+ "{" +:+ name +:+ "}" +:+ post) params
     = pre +:+ filled params name +:+ interpolate B post params).
Proof.
  intros Hpre. split; [by apply interpolate_plain|].
  intros Hname Hne. unfold interpolate, filled.
  rewrite replace_plain by done. f_equal.
  change ("{" +:+ name +:+ "}" +:+ post)
    with (String "{" (name +:+ String "}" post)).
  change (replace_placeholders B params None
            (String "{" (name +:+ String "}" post)))
    with (replace_placeholders B params (Some "") (name +:+ String "}" post)).
  rewrite replace_word, append_empty_l by done.
  rewrite replace_close by done. by rewrite replacement_cases.
Qed.

(** X15. The fallback to the default locale is per locale, not per key:
    the translation of a key in a locale whose table is loaded (to a
    value JavaScript takes for true) depends on that table alone, so the
    tables of the other locales, the default one included, make no
    difference, and a key that the table of the locale
    does not resolve to a string is answered with the key itself even if
    the default locale has it. *)
Theorem a_loaded_locale_is_never_helped_by_the_default
    (translations translations' : gmap string JsVal) (key locale : string)
    (params : option (list (string * Prim))) (table : JsVal) :
  translations !! locale = Some table → translations' !! locale = Some table →
  truthy table = true →
  translate B translations key (Some locale) params
  = translate B translations' key (Some locale) params
  ∧ ((∀ template, ¬ resolves B (split_dots key) table (JStr template)) →
     translate B translations key (Some locale) params = Ok key).
Proof.
  intros H1 H2 Ht. unfold translate, table_for. simpl.
  rewrite H1, H2, Ht. simpl. rewrite Ht. simpl. split; [done|].
  intros Hno.
  destruct (navigate B (split_dots key) table) as [[v|]|e] eqn:Hnav.
  - destruct v as [| | | |template| | | | |]; try done.
    destruct (Hno template). by apply navigate_resolves.
  - done.
  - destruct (navigate_ok B (split_dots key) table) as [r Hr]. congruence.
Qed.

(** X16. [getValidLocale] always returns a supported locale: a supported
    locale is returned as it is, anything else (no locale, the empty
    string, an unsupported code) gives the default locale; the result
    passes [isLocaleSupported], and applying the function twice is the
    same as applying it once. *)
Theorem getValidLocale_is_supported (locale : option string) :
  getValidLocale locale ∈ supportedLocales
  ∧ isLocaleSupported (getValidLocale locale) = true
  ∧ getValidLocale (Some (getValidLocale locale)) = getValidLocale locale
  ∧ (∀ l, locale = Some l →
       (l ∈ supportedLocales → getValidLocale locale = l)
       ∧ (l ∉ supportedLocales → getValidLocale locale = defaultLocale)).
Proof.
  assert (Hd : defaultLocale ∈ supportedLocales).
  { apply elem_of_cons. by left. }
  assert (Hempty : "" ∉ supportedLocales).
  { intros H. apply list_elem_of_In in H. simpl in H. intuition discriminate. }
  assert (Hin : getValidLocale locale ∈ supportedLocales).
  { unfold getValidLocale, isLocaleSupported. destruct locale as [l|]; [|done].
    repeat case_bool_decide; simpl; done. }
  split_and!.
  - done.
  - unfold isLocaleSupported. by rewrite bool_decide_eq_true_2.
  - unfold getValidLocale at 1, isLocaleSupported.
    rewrite (bool_decide_eq_true_2 _ Hin).
    rewrite bool_decide_eq_false_2; [done|]. by intros Heq; rewrite Heq in Hin.
  - intros l ->. unfold getValidLocale, isLocaleSupported. split.
    + intros Hl. rewrite (bool_decide_eq_true_2 _ Hl).
      rewrite bool_decide_eq_false_2; [done|]. by intros ->.
    + intros Hl. rewrite (bool_decide_eq_false_2 _ Hl).
      by rewrite andb_false_r.
Qed.

(** The table the file of a locale gives, if the file is there and
    parses. *)
Definition from_file (read_file : string → option string)
    (parse : string → result JsVal) (l : string) : option JsVal :=
  match read_file l with
  | Some content =>
      match parse content with
      | Ok table => Some table
      | Err _ => None
      end
  | None => None
  end.

Lemma load_fold (read_file : string → option string)
    (parse : string → result JsVal) (ls : list string) :
  ∀ (m : gmap string JsVal) (l : string),
  foldl (λ m locale,
           match read_file locale with
           | Some content =>
               match parse content with
               | Ok table => <[locale := table]> m
               | Err _ => m
               end
           | None => m
           end) m ls !! l
  = if bool_decide (l ∈ ls)
    then match from_file read_file parse l with
         | Some table => Some table
         | None => m !! l
         end
    else m !! l.
Proof.
  induction ls as [|x ls IH]; intros m l; simpl; [done|].
  rewrite IH. unfold from_file.
  destruct (decide (x = l)) as [->|Hx].
  - rewrite (bool_decide_eq_true_2 (l ∈ l :: ls))
      by (apply elem_of_cons; by left).
    destruct (read_file l) as [c|]; simpl.
    + destruct (parse c) as [table|e]; simpl.
      * rewrite lookup_insert_eq. by case_bool_decide.
      * by case_bool_decide.
    + by case_bool_decide.
  - assert (Hm : (match read_file x with
                  | Some content =>
                      match parse content with
                      | Ok table => <[x := table]> m
                      | Err _ => m
                      end
                  | None => m
                  end) !! l = m !! l).
    { destruct (read_file x) as [c|]; [|done].
      destruct (parse c); [|done]. by rewrite lookup_insert_ne. }
    rewrite Hm. case_bool_decide as Hl.
    + rewrite bool_decide_eq_true_2; [done|]. apply elem_of_cons. by right.
    + rewrite bool_decide_eq_false_2; [done|].
      rewrite elem_of_cons. by intros [?|?].
Qed.

(** X17. [loadTranslations] loads exactly the files that are there and
    parse: after it, a locale has a table if and only if it is one of
    the supported locales, its file exists and the file parses, and the
    table is what the file parses to; a file that is missing or broken
    does not stop the others from loading. When neither the file of the
    locale nor that of the default locale is there, every translation is
    the key itself. *)
Theorem loadTranslations_keeps_what_parses
    (read_file : string → option string) (parse : string → result JsVal)
    (l : string) :
  loadTranslations read_file parse !! l
  = (if bool_decide (l ∈ supportedLocales)
     then from_file read_file parse l else None)
  ∧ (read_file l = None → read_file defaultLocale = None →
     ∀ key params,
       translate B (loadTranslations read_file parse) key (Some l) params
       = Ok key).
Proof.
  assert (Hload : ∀ l,
    loadTranslations read_file parse !! l
    = (if bool_decide (l ∈ supportedLocales)
       then from_file read_file parse l else None)).
  { intros l'. unfold loadTranslations. rewrite load_fold.
    rewrite lookup_empty. case_bool_decide; [|done].
    by destruct (from_file _ _ l'). }
  split; [apply Hload|].
  intros Hl Hd key params. unfold translate, table_for. simpl.
  rewrite !Hload. unfold from_file. rewrite Hl, Hd.
  by repeat case_bool_decide.
Qed.

End I18nMoreFacts.

Lemma interpolate_fills_each_placeholder_once_witness :
  I18n.interpolate Demo.builtins
    ("Your " +:+ "{" +:+ "year" +:+ "}" +:+ " Unwrapped, {name}")
    [("year", Js.PNum 2025)]
  = "Your " +:+ filled Demo.builtins [("year", Js.PNum 2025)] "year"
    +:+ I18n.interpolate Demo.builtins " Unwrapped, {name}"
          [("year", Js.PNum 2025)].
Proof.
  destruct (interpolate_fills_each_placeholder_once Demo.builtins
              [("year", Js.PNum 2025)] "Your " "year" " Unwrapped, {name}")
    as [_ Hfill].
  - reflexivity.
  - apply Hfill; [reflexivity|discriminate].
Defined.

Lemma a_loaded_locale_is_never_helped_by_the_default_witness :
  I18n.translate Demo.builtins (<["fr" := Js.JObj []]> Demo.translations)
    "email.subject" (Some "fr") None
  = I18n.translate Demo.builtins {["fr" := Js.JObj []]}
      "email.subject" (Some "fr") None
  ∧ I18n.translate Demo.builtins (<["fr" := Js.JObj []]> Demo.translations)
      "email.subject" (Some "fr") None
    = Ok "email.subject".
Proof.
  destruct (a_loaded_locale_is_never_helped_by_the_default Demo.builtins
              (<["fr" := Js.JObj []]> Demo.translations)
              {["fr" := Js.JObj []]} "email.subject" "fr" None (Js.JObj []))
    as [Hsame Hkey].
  - vm_compute. reflexivity.
  - vm_compute. reflexivity.
  - reflexivity.
  - split; [exact Hsame|]. apply Hkey. intros template Hres.
    apply navigate_resolves in Hres. vm_compute in Hres. discriminate.
Defined.

(** * Facts about the frontend and the start of the server *)

Section SwitcherFacts.

Import Locale Switcher.

Variable locales : list string.
Variable defaultLocale : string.

Lemma get_after_set name value (searchParams : list (string * string)) :
  searchParams_get (searchParams_set name value searchParams) name
  = Some value.
Proof.
  unfold searchParams_get.
  induction searchParams as [|[k v] rest IH]; simpl.
  - by rewrite bool_decide_eq_true_2.
  - case_bool_decide as Hk; simpl.
    + by rewrite bool_decide_eq_true_2.
    + by rewrite bool_decide_eq_false_2.
Qed.

Lemma get_filter_other name other (searchParams : list (string * string)) :
  other ≠ name →
  searchParams_get (filter (λ kv, kv.1 ≠ name) searchParams) other
  = searchParams_get searchParams other.
Proof.
  intros Hne. unfold searchParams_get.
  induction searchParams as [|[k v] rest IH]; simpl; [done|].
  rewrite filter_cons. simpl. destruct (decide (k = name)) as [->|Hk].
  - rewrite decide_False by (intros H; by apply H).
    rewrite bool_decide_eq_false_2 by done. exact IH.
  - rewrite decide_True by done. simpl.
    case_bool_decide; [done|]. exact IH.
Qed.

Lemma get_other_after_set name value other
    (searchParams : list (string * string)) :
  other ≠ name →
  searchParams_get (searchParams_set name value searchParams) other
  = searchParams_get searchParams other.
Proof.
  intros Hne.
  induction searchParams as [|[k v] rest IH]; simpl.
  - unfold searchParams_get. simpl. by rewrite bool_decide_eq_false_2.
  - case_bool_decide as Hk.
    + subst k. pose proof (get_filter_other name other rest Hne) as Hf.
      unfold searchParams_get in *. simpl.
      rewrite !bool_decide_eq_false_2 by done. exact Hf.
    + unfold searchParams_get in *. simpl.
      case_bool_decide; [done|]. exact IH.
Qed.

(** X18. After the language switcher has handled the choice of a
    supported locale, both readers of the locale agree on it: for the
    query the router is sent to, [determineLocale] and the [validLocale]
    of the provider give the chosen locale, and every other query
    parameter is what it was. In a browser the choice is also stored, so
    that on a later URL without [lang] [determineLocale] still gives the
    chosen locale, while the provider, which reads the URL only, gives
    the default one. *)
Theorem switching_the_language_reaches_both_readers
    (newLocale : string) (window : option Window)
    (searchParams : list (string * string)) :
  newLocale ∈ locales → newLocale ≠ "" →
  let window' := (handleLocaleChange newLocale window searchParams).1 in
  let searchParams' := (handleLocaleChange newLocale window searchParams).2 in
  determineLocale locales defaultLocale window' searchParams' = newLocale
  ∧ validLocale locales defaultLocale searchParams' = newLocale
  ∧ (∀ name, name ≠ "lang" →
       searchParams_get searchParams' name
       = searchParams_get searchParams name)
  ∧ (is_Some window →
     getLocaleFromStorage locales window' = Some newLocale
     ∧ ∀ later, searchParams_get later "lang" = None →
         determineLocale locales defaultLocale window' later = newLocale
         ∧ validLocale locales defaultLocale later = defaultLocale).
Proof.
  intros Hin Hne window' searchParams'. subst window' searchParams'. simpl.
  assert (Hurl : getLocaleFromURL locales
                   (searchParams_set "lang" newLocale searchParams)
                 = Some newLocale).
  { unfold getLocaleFromURL, includes. rewrite get_after_set.
    rewrite (bool_decide_eq_false_2 _ Hne).
    by rewrite (bool_decide_eq_true_2 _ Hin). }
  split_and!.
  - unfold determineLocale. rewrite Hurl. unfold or_else at 1.
    by rewrite (bool_decide_eq_false_2 _ Hne).
  - unfold validLocale, includes. rewrite get_after_set.
    rewrite (bool_decide_eq_false_2 _ Hne).
    by rewrite (bool_decide_eq_true_2 _ Hin).
  - intros name Hname. by apply get_other_after_set.
  - intros [win ->]. simpl.
    assert (Hst : getLocaleFromStorage locales
                    (Some (mkWindow (Some newLocale) (navigator_language win)))
                  = Some newLocale).
    { unfold getLocaleFromStorage, includes. simpl.
      rewrite (bool_decide_eq_false_2 _ Hne).
      by rewrite (bool_decide_eq_true_2 _ Hin). }
    split; [done|]. intros later Hlater. split.
    + unfold determineLocale, getLocaleFromURL. rewrite Hlater, Hst.
      unfold or_else at 1 2. by rewrite (bool_decide_eq_false_2 _ Hne).
    + unfold validLocale. by rewrite Hlater.
Qed.

Lemma or_else_some l b : l ≠ "" → or_else (Some l) b = Some l.
Proof. intros Hl. unfold or_else. by rewrite (bool_decide_eq_false_2 _ Hl). Qed.

Lemma validLocale_url (searchParams : list (string * string)) :
  validLocale locales defaultLocale searchParams
  = default defaultLocale (getLocaleFromURL locales searchParams).
Proof.
  unfold validLocale, getLocaleFromURL.
  destruct (searchParams_get searchParams "lang") as [l|]; [|done].
  by destruct (negb (bool_decide (l = "")) && includes locales l).
Qed.

Lemma url_locale_truthy (searchParams : list (string * string)) l :
  getLocaleFromURL locales searchParams = Some l → l ≠ "" ∧ l ∈ locales.
Proof.
  unfold getLocaleFromURL, includes.
  destruct (searchParams_get searchParams "lang") as [l'|]; [|done].
  case_bool_decide as Hl; simpl; [done|].
  case_bool_decide as Hin; [|done]. by intros [= <-].
Qed.

(** X19. The locale of [LocaleProvider] is the locale [determineLocale]
    chooses where there is no window: the [lang] parameter when it is a
    supported locale, in which case both functions return it whatever
    the storage and the browser say, and the default locale otherwise. *)
Theorem the_provider_reads_the_url_only
    (window : option Window) (searchParams : list (string * string)) :
  defaultLocale ≠ "" →
  validLocale locales defaultLocale searchParams
  = determineLocale locales defaultLocale None searchParams
  ∧ (getLocaleFromURL locales searchParams = None →
     validLocale locales defaultLocale searchParams = defaultLocale)
  ∧ (∀ l, getLocaleFromURL locales searchParams = Some l →
       validLocale locales defaultLocale searchParams = l
       ∧ determineLocale locales defaultLocale window searchParams = l).
Proof.
  intros Hd. rewrite validLocale_url. unfold determineLocale.
  destruct (getLocaleFromURL locales searchParams) as [l|] eqn:Hurl.
  - destruct (url_locale_truthy _ _ Hurl) as [Hl _].
    rewrite !(or_else_some l) by done. split_and!; try done.
    by intros ? [= <-].
  - simpl. rewrite (bool_decide_eq_false_2 _ Hd). split_and!; done.
Qed.

End SwitcherFacts.

Section ApiClientFacts.

Import ApiClient.

(** X20. The token of the API client survives a reload until logout:
    after [setToken] with a non-empty token in a browser, the client and
    a client constructed anew both hold the token, and requests carry it
    as 'Authorization: Bearer token'; after [logout] neither holds a
    token, the storage is what it was without the entry, and requests
    carry no 'Authorization' header of the client's. On the server, where
    there is no window, a new client never holds a token. *)
Theorem the_token_survives_a_reload_until_logout
    (c : Client) (storage : Storage) (t url : string)
    (headers : gmap string string) :
  t ≠ "" →
  let c1 := (setToken (Some t) c (Some storage)).1 in
  let w1 := (setToken (Some t) c (Some storage)).2 in
  let c2 := (logout c1 w1).1 in
  let w2 := (logout c1 w1).2 in
  getToken c1 = Some t
  ∧ getToken (construct url w1) = Some t
  ∧ request_headers c1 headers !! "Authorization" = Some ("Bearer " +:+ t)
  ∧ getToken c2 = None
  ∧ getToken (construct url w2) = None
  ∧ w2 = Some (delete "auth_token" storage)
  ∧ request_headers c2 headers !! "Authorization"
    = headers !! "Authorization"
  ∧ getToken (construct url None) = None.
Proof.
  intros Ht. simpl. rewrite (bool_decide_eq_false_2 _ Ht).
  unfold request_headers, getToken, construct, Storage in *. simpl.
  rewrite (bool_decide_eq_false_2 _ Ht). split_and!; try done.
  - apply lookup_insert_eq.
  - apply lookup_insert_eq.
  - apply lookup_delete_eq.
  - f_equal. apply delete_insert_eq.
  - rewrite lookup_union. rewrite lookup_singleton_ne by done.
    by destruct (headers !! "Authorization").
Qed.

End ApiClientFacts.

Section ServerFacts.

Import Server Text.

Fixpoint has_char (c : ascii) (s : string) : bool :=
  match s with
  | EmptyString => false
  | String c' rest => bool_decide (c' = c) || has_char c rest
  end.

Lemma split_at_cons sep s : ∃ h t, split_at sep s = h :: t.
Proof.
  induction s as [|c rest (h & t & IH)]; simpl; [by eexists _, _|].
  case_bool_decide; [by eexists _, _|]. rewrite IH. by eexists _, _.
Qed.

Lemma join_with_cons sep h h' t :
  join_with sep (h :: h' :: t) = h +:+ String sep (join_with sep (h' :: t)).
Proof. done. Qed.

Lemma join_with_head sep c h t :
  join_with sep (String c h :: t) = String c (join_with sep (h :: t)).
Proof. destruct t as [|h' t]; done. Qed.

Lemma join_split sep s : join_with sep (split_at sep s) = s.
Proof.
  induction s as [|c rest IH]; simpl; [done|].
  destruct (split_at_cons sep rest) as (h & t & Hs). rewrite Hs in *.
  case_bool_decide as Hc.
  - subst c. rewrite join_with_cons. by rewrite IH.
  - rewrite join_with_head. by rewrite IH.
Qed.

Lemma split_has_no_sep sep s :
  Forall (λ part, has_char sep part = false) (split_at sep s).
Proof.
  induction s as [|c rest IH]; simpl; [by constructor|].
  case_bool_decide as Hc; [by constructor|].
  destruct (split_at sep rest) as [|h t]; [by repeat constructor; simpl;
    rewrite bool_decide_eq_false_2|].
  inversion IH; subst. constructor; [|done].
  simpl. by rewrite bool_decide_eq_false_2.
Qed.

(** X21. The allowed origins are the comma-separated entries of
    CORS_ORIGINS, as written: the list is never empty, joining it with
    commas gives the variable back (nothing is trimmed or dropped), no
    entry contains a comma, and it is 'http://localhost:3000' alone only
    when the variable is not set; a variable that is set but empty gives
    the one origin [''], not the default. *)
Theorem cors_origins_are_the_listed_ones (env : Env) :
  corsOrigins env ≠ []
  ∧ (CORS_ORIGINS env = None → corsOrigins env = ["http://localhost:3000"])
  ∧ (∀ origins, CORS_ORIGINS env = Some origins →
       join_with "," (corsOrigins env) = origins
       ∧ Forall (λ origin, has_char "," origin = false) (corsOrigins env)
       ∧ (origins = "" → corsOrigins env = [""])).
Proof.
  unfold corsOrigins. destruct (CORS_ORIGINS env) as [s|]; split_and!;
    try done.
  - by destruct (split_at_cons "," s) as (h & t & ->).
  - intros ? [= <-]. split_and!.
    + apply join_split.
    + apply split_has_no_sep.
    + by intros ->.
Qed.

(** What a start needs. *)
Definition can_start (env : Env) : Prop :=
  testConnection env = Ok true
  ∧ createRedisClient env = Ok tt
  ∧ listen env = Ok tt.

Local Ltac not_in :=
  let H := fresh in
  intros H;
  repeat (apply elem_of_cons in H as [H|H]; [discriminate H|]);
  by apply elem_of_nil in H.

(** X22. [startServer] never throws, and it ends listening exactly when
    the database answers the test with true, Redis connects and
    [app.listen] succeeds: then the last thing it does is listen, and it
    neither logs an error nor exits, whatever Tautulli and Overseerr
    answer or throw. In every other case the last thing it does is
    [process.exit(1)], and it never listens. *)
Theorem the_server_listens_iff_database_and_redis_answer
    (env : Env) (trace : list Event) :
  ∃ events,
    startServer env trace = (Ok tt, trace ++ events)
    ∧ (can_start env →
       list.last events = Some Listening
       ∧ (∀ code, Exit code ∉ events)
       ∧ (∀ message, Error message ∉ events))
    ∧ (¬ can_start env →
       list.last events = Some (Exit 1)
       ∧ Listening ∉ events).
Proof.
  unfold can_start.
  destruct env as [cors [[]|] [[]|] [[[] ?]|] [[]|] [[[] ?]|] [[]|]];
    unfold startServer, try_catch, emit, report, modify, lift, throw;
    simpl; unfold mbind, M_bind, bind; simpl; rewrite <- ?app_assoc; simpl;
    (eexists; split; [reflexivity|]);
    (split;
     [intros (? & ? & ?);
      first [discriminate
            |split_and!; [reflexivity | intros ?; not_in | intros ?; not_in]]
     |intros Hno;
      first [exfalso; apply Hno; by split_and!
            |split; [reflexivity | not_in]]]).
Qed.

End ServerFacts.

Lemma switching_the_language_reaches_both_readers_witness :
  Locale.determineLocale Demo.locales "en"
    (Switcher.handleLocaleChange "fr" (Some (Locale.mkWindow None "de-DE"))
       [("ref", "mail"); ("lang", "es")]).1
    (Switcher.handleLocaleChange "fr" (Some (Locale.mkWindow None "de-DE"))
       [("ref", "mail"); ("lang", "es")]).2
  = "fr"
  ∧ Switcher.validLocale Demo.locales "en"
      (Switcher.handleLocaleChange "fr" (Some (Locale.mkWindow None "de-DE"))
         [("ref", "mail"); ("lang", "es")]).2
    = "fr".
Proof.
  destruct (switching_the_language_reaches_both_readers Demo.locales "en" "fr"
              (Some (Locale.mkWindow None "de-DE"))
              [("ref", "mail"); ("lang", "es")])
    as (Hdetermine & Hvalid & _).
  - compute_done.
  - discriminate.
  - split; assumption.
Defined.

Lemma the_provider_reads_the_url_only_witness :
  Switcher.validLocale Demo.locales "en" [("lang", "xx")]
  = Locale.determineLocale Demo.locales "en" None [("lang", "xx")].
Proof.
  destruct (the_provider_reads_the_url_only Demo.locales "en"
              (Some (Locale.mkWindow (Some "de") "fr-FR")) [("lang", "xx")])
    as [Hsame _].
  - discriminate.
  - exact Hsame.
Defined.

Lemma the_token_survives_a_reload_until_logout_witness :
  ApiClient.getToken
    (ApiClient.construct "http://localhost:3001"
       (ApiClient.setToken (Some "abc")
          (ApiClient.construct "http://localhost:3001" (Some ∅))
          (Some ∅)).2)
  = Some "abc".
Proof.
  destruct (the_token_survives_a_reload_until_logout
              (ApiClient.construct "http://localhost:3001" (Some ∅)) ∅ "abc"
              "http://localhost:3001" ∅) as (_ & Hreload & _).
  - discriminate.
  - exact Hreload.
Defined.

(** * Facts about the logs, the dashboard and the formats *)

Section LogsFacts.

Import Js Logs Text.

Variable B : Builtins.
Variable parse : string → option JsVal.

(** [log.level === level], for an entry that has properties. *)
Definition has_level (level : string) (log : JsVal) : bool :=
  match get_property B log "level" with
  | Ok v => Login.same_string v level
  | Err _ => false
  end.

(** The entries of a file a request with this level asks for, oldest
    first. *)
Definition wanted (levelQuery : option string) (log : JsVal) : bool :=
  match levelQuery with
  | Some level => bool_decide (level = "") || has_level level log
  | None => true
  end.

Definition found (levelQuery : option string) (fileContent : string)
    : list JsVal :=
  filter (λ log, wanted levelQuery log)
    (entries_of parse (lines_of fileContent)).

Lemma limit_of_nonzero query fallback :
  fallback ≠ 0 → limit_of query fallback ≠ 0.
Proof.
  intros Hf. unfold limit_of, number_or.
  destruct (query ≫= parseInt) as [v|]; [|done]. by case_bool_decide.
Qed.

Lemma filter_true {A} (l : list A) : filter (λ _, true) l = l.
Proof.
  induction l as [|x l IH]; [done|].
  rewrite filter_cons, decide_True by done. by rewrite IH.
Qed.

(** What [JSON.parse] never returns. *)
Definition parses_to_json : Prop := ∀ line, parse line ≠ Some JUndefined.

Lemma get_property_throws (log : JsVal) k e :
  get_property B log k = Err e → log = JUndefined ∨ log = JNull.
Proof.
  destruct log; simpl; intros Hget; try tauto;
    repeat case_match; discriminate.
Qed.

Lemma filter_level_ok level (logs : list JsVal) :
  Forall (λ log, log ≠ JUndefined ∧ log ≠ JNull) logs →
  filter_level B level logs = Ok (filter (λ log, has_level level log) logs).
Proof.
  intros Hlogs. induction Hlogs as [|log rest [Hu Hn] _ IH]; [done|].
  simpl. rewrite IH, filter_cons.
  destruct (get_property B log "level") as [v|e] eqn:Hget.
  - case_decide as Hl; unfold has_level in Hl; rewrite Hget in Hl;
      by destruct (Login.same_string v level).
  - by destruct (get_property_throws _ _ _ Hget).
Qed.

Lemma entries_have_properties (lines : list string) :
  parses_to_json →
  Forall (λ log, log ≠ JUndefined ∧ log ≠ JNull) (entries_of parse lines).
Proof.
  intros Hjson. apply list.Forall_forall. intros log Hin.
  unfold entries_of in Hin. apply list_elem_of_filter in Hin as [Hnn Hin].
  apply list_elem_of_omap in Hin as (line & _ & Hp). split.
  - intros ->. by apply (Hjson line).
  - intros ->. done.
Qed.

Lemma found_spec levelQuery fileContent :
  parses_to_json →
  (let logs := entries_of parse (lines_of fileContent) in
   match levelQuery with
   | Some level =>
       if bool_decide (level = "") then Ok logs
       else filter_level B level logs
   | None => Ok logs
   end) = Ok (found levelQuery fileContent).
Proof.
  intros Hjson. unfold found, wanted. destruct levelQuery as [level|]; simpl.
  - case_bool_decide; simpl.
    + f_equal. symmetry.
      apply (filter_true (entries_of parse (lines_of fileContent))).
    + by apply filter_level_ok, entries_have_properties.
  - f_equal. symmetry.
    apply (filter_true (entries_of parse (lines_of fileContent))).
Qed.

Lemma slice_to_positive {A} (n : Z) (l : list A) :
  0 < n → slice_to n (reverse l)
          = reverse (drop (length l - Z.to_nat n) l).
Proof.
  intros Hn. unfold slice_to. rewrite length_reverse.
  replace (n <? 0) with false by (symmetry; apply Z.ltb_ge; lia).
  rewrite <- take_reverse.
  destruct (Z.le_gt_cases n (Z.of_nat (length l))) as [Hle|Hgt].
  - by rewrite Z.min_l by done.
  - rewrite Z.min_r by lia. rewrite Nat2Z.id.
    rewrite (take_ge (reverse l) (length l))
      by (rewrite length_reverse; lia).
    rewrite (take_ge (reverse l) (Z.to_nat n)).
    2:{ rewrite length_reverse. lia. }
    done.
Qed.

Lemma slice_to_negative {A} (n : Z) (l : list A) :
  n < 0 → slice_to n (reverse l) = reverse (drop (Z.to_nat (- n)) l).
Proof.
  intros Hn. unfold slice_to. rewrite length_reverse.
  replace (n <? 0) with true by (symmetry; apply Z.ltb_lt; lia).
  rewrite take_reverse. f_equal.
  destruct (Z.le_gt_cases 0 (Z.of_nat (length l) + n)) as [Hle|Hgt].
  - f_equal. lia.
  - rewrite Z.max_r by lia. rewrite !drop_ge; [done|lia|simpl; lia].
Qed.

Lemma length_omap_le {A C} (f : A → option C) (l : list A) :
  (length (omap f l) ≤ length l)%nat.
Proof.
  induction l as [|x l IH]; csimpl; [done|]. destruct (f x); csimpl; lia.
Qed.

Lemma slice_to_length {A} (n : Z) (l : list A) :
  (length (slice_to n l) ≤ length l)%nat.
Proof. unfold slice_to. rewrite length_take. lia. Qed.

(** X23. The application log route returns the newest entries first.
    [JSON.parse] never returns [undefined]; so when the file can be read
    the route does not fail, and with a positive limit the answer lists
    the last [limit] wanted entries of the file (all of them when there
    are fewer), newest first; the wanted entries are the non-empty lines
    that parse to something other than [null] and, when a level is
    asked for, have that level. The limit is 100 when none is given, and
    never 0; with a negative limit [-k] the answer leaves out the [k]
    oldest wanted entries. [total] counts the non-empty lines, parsed or
    not, so the answer never lists more than [total] entries. *)
Theorem application_logs_are_the_newest_wanted_entries
    (today fileContent : string) (limitQuery levelQuery : option string) :
  parses_to_json →
  let response :=
    get_logs_application B parse today (Ok fileContent) limitQuery
      levelQuery in
  let limit := limit_of limitQuery 100 in
  let entries := found levelQuery fileContent in
  limit ≠ 0
  ∧ (limitQuery = None → limit = 100)
  ∧ (0 < limit →
     logs response
     = reverse (drop (length entries - Z.to_nat limit) entries))
  ∧ (limit < 0 →
     logs response = reverse (drop (Z.to_nat (- limit)) entries))
  ∧ (∀ log, log ∈ logs response →
       log ≠ JNull
       ∧ wanted levelQuery log = true
       ∧ ∃ line, line ∈ lines_of fileContent ∧ line ≠ ""
                 ∧ parse line = Some log)
  ∧ (∃ n, total response = Some n
          ∧ n = length (lines_of fileContent)
          ∧ (length (logs response) ≤ n)%nat)
  ∧ error response = None.
Proof.
  intros Hjson response limit entries.
  assert (Hresponse : response
            = mkLogsResponse (slice_to limit (reverse entries))
                (Some ("combined-" +:+ today +:+ ".log"))
                (Some (length (lines_of fileContent))) None None).
  { subst response limit entries. unfold get_logs_application.
    pose proof (found_spec levelQuery fileContent Hjson) as Hf.
    simpl in Hf. by rewrite Hf. }
  assert (Hlogs : logs response = slice_to limit (reverse entries))
    by (by rewrite Hresponse).
  assert (Hsub : ∀ log, log ∈ entries →
            log ≠ JNull ∧ wanted levelQuery log = true
            ∧ ∃ line, line ∈ lines_of fileContent ∧ line ≠ ""
                      ∧ parse line = Some log).
  { intros log Hin. subst entries. unfold found in Hin.
    apply list_elem_of_filter in Hin as [Hw Hin]. unfold entries_of in Hin.
    apply list_elem_of_filter in Hin as [Hnn Hin].
    apply list_elem_of_omap in Hin as (line & Hline & Hp).
    split_and!.
    - intros ->. done.
    - by destruct (wanted levelQuery log).
    - exists line. split_and!; try done.
      unfold lines_of in Hline.
      by apply list_elem_of_filter in Hline as [? _]. }
  split_and!.
  - by apply limit_of_nonzero.
  - by intros ->.
  - intros Hpos. rewrite Hlogs. by apply slice_to_positive.
  - intros Hneg. rewrite Hlogs. by apply slice_to_negative.
  - intros log Hin. apply Hsub. rewrite Hlogs in Hin.
    unfold slice_to in Hin. apply elem_of_take in Hin as (i & Hi & _).
    apply elem_of_reverse. eapply list_elem_of_lookup_2. exact Hi.
  - exists (length (lines_of fileContent)). rewrite Hresponse.
    split_and!; [done..|]. simpl.
    etrans; [apply slice_to_length|]. rewrite length_reverse.
    subst entries. unfold found, entries_of.
    etrans; [apply length_filter|]. etrans; [apply length_filter|].
    apply length_omap_le.
  - by rewrite Hresponse.
Qed.

(** X24. The limit the client puts into the query of [getEmails] is the
    limit the route reads back: for a limit other than 0 that JavaScript
    represents exactly, the route serves that limit; for no limit or the
    limit 0 the client sends no query and the route serves 100. *)
Theorem the_limit_a_client_asks_for_is_the_limit_served (limit : option Z) :
  (∀ n, limit = Some n → Z.abs n ≤ 2 ^ 53) →
  get_emails_limit (ApiClient.emails_query limit)
  = match limit with
    | Some n => if bool_decide (n = 0) then 100 else n
    | None => 100
    end.
Proof.
  intros _. unfold get_emails_limit, ApiClient.emails_query.
  destruct limit as [n|]; [|done]. case_bool_decide as Hn; [done|].
  unfold limit_of, query_limit.
  change (strip_prefix "?limit=" ("?limit=" +:+ pretty n))
    with (Some (pretty n)).
  simpl. rewrite parseInt_pretty. unfold number_or.
  by rewrite bool_decide_eq_false_2.
Qed.

Definition other_status (l : Logged) : bool :=
  negb (is_status Emails.email_sent l)
  && negb (is_status Emails.email_failed l).

Lemma length_filter_cons {A} (p : A → bool) (x : A) (l : list A) :
  length (filter (λ y, p y) (x :: l))
  = ((if p x then 1 else 0) + length (filter (λ y, p y) l))%nat.
Proof.
  rewrite filter_cons. case_decide as Hp; destruct (p x); done.
Qed.

Lemma three_way (l : list Logged) :
  length l
  = (length (filter (λ x, is_status Emails.email_sent x) l)
     + length (filter (λ x, is_status Emails.email_failed x) l)
     + length (filter (λ x, other_status x) l))%nat.
Proof.
  induction l as [|x l IH]; [done|].
  rewrite (length_filter_cons (is_status Emails.email_sent)).
  rewrite (length_filter_cons (is_status Emails.email_failed)).
  rewrite (length_filter_cons other_status).
  rewrite length_cons.
  generalize dependent (length (filter (λ x, is_status Emails.email_sent x) l)).
  generalize dependent
    (length (filter (λ x, is_status Emails.email_failed x) l)).
  generalize dependent (length (filter (λ x, other_status x) l)).
  intros a b c ->. unfold other_status, is_status.
  destruct (lg_status x); simpl; lia.
Qed.

Local Arguments is_status : simpl never.

(** X25. The three email figures of the dashboard are numbers and add up
    to the rows of the last thirty days: [totalSent] and [totalFailed]
    count the recent rows with status 'sent' and 'failed', and
    [totalPending] counts all the other recent rows, so it includes the
    rows that bounced, were opened or were clicked. *)
Theorem dashboard_email_figures_add_up (now : Z) (rows : list Logged) :
  let recent := filter (λ l, now - thirty_days < lg_created_at l) rows in
  let stats := emailStats (count_email_logs now rows) in
  let count (p : Logged → bool) := Z.of_nat (length (filter (λ l, p l) recent)) in
  totalSent stats = Some (count (is_status Emails.email_sent))
  ∧ totalFailed stats = Some (count (is_status Emails.email_failed))
  ∧ totalPending stats = Some (count other_status)
  ∧ count (is_status Emails.email_sent)
    + count (is_status Emails.email_failed) + count other_status
    = Z.of_nat (length recent).
Proof.
  intros recent stats count. subst stats. unfold emailStats, count_email_logs.
  fold recent. simpl. rewrite !pretty_nat_Z, !parseInt_pretty. simpl.
  pose proof (three_way recent) as H3. subst count. simpl.
  split_and!; try done.
  - f_equal. lia.
  - lia.
Qed.

End LogsFacts.

Section PageFacts.

Import Js Page.

Variable t : string → list (string * Prim) → string.

(** X26. For an hour of the day from 0 to 23, [formatTime] shows the
    hour of the twelve-hour clock: a number from 1 to 12 that is the hour
    modulo 12, with the 'am' message before noon and the 'pm' message
    from noon on. *)
Theorem formatTime_is_the_twelve_hour_clock (hour : Z) :
  0 ≤ hour ≤ 23 →
  ∃ shown,
    formatTime t hour
    = t (if hour <? 12 then "time.hour.am" else "time.hour.pm")
        [("hour", PNum shown)]
    ∧ 1 ≤ shown ≤ 12
    ∧ shown mod 12 = hour mod 12.
Proof.
  intros Hh. unfold formatTime.
  destruct (hour =? 0) eqn:H0.
  - apply Z.eqb_eq in H0. subst hour. by exists 12.
  - apply Z.eqb_neq in H0. destruct (hour <? 12) eqn:H12.
    + apply Z.ltb_lt in H12. exists hour. split_and!; [done|lia|lia|done].
    + apply Z.ltb_ge in H12. destruct (hour =? 12) eqn:He.
      * apply Z.eqb_eq in He. subst hour. by exists 12.
      * apply Z.eqb_neq in He. exists (hour - 12).
        split_and!; [done|lia|lia|].
        rewrite <- (Z.mod_add (hour - 12) 1 12) by lia. f_equal. lia.
Qed.

(** X27. [formatHours] shows a number of minutes as whole days and hours
    and loses less than an hour: the days and the hours shown (fewer than
    24) amount to the minutes rounded down to the hour. Below one day the
    hours alone are shown, a whole number of days is shown without
    hours, and otherwise both are shown. *)
Theorem formatHours_loses_less_than_an_hour (minutes : Z) :
  0 ≤ minutes →
  ∃ days hours,
    0 ≤ days ∧ 0 ≤ hours < 24
    ∧ 0 ≤ minutes - 60 * (24 * days + hours) < 60
    ∧ formatHours t minutes
      = if bool_decide (days = 0)
        then t "time.duration.hours" [("hours", PNum hours)]
        else if bool_decide (hours = 0)
             then t "time.duration.days" [("days", PNum days)]
             else t "time.duration.daysHours"
                    [("days", PNum days); ("hours", PNum hours)].
Proof.
  intros Hm. unfold formatHours.
  exists (minutes / 60 / 24), (minutes / 60 mod 24).
  pose proof (Z.div_pos minutes 60 Hm ltac:(lia)) as Hh.
  pose proof (Z.div_pos (minutes / 60) 24 Hh ltac:(lia)) as Hd.
  pose proof (Z.mod_pos_bound (minutes / 60) 24 ltac:(lia)) as Hr.
  pose proof (Z.div_mod (minutes / 60) 24 ltac:(lia)) as Hdm.
  pose proof (Z.div_mod minutes 60 ltac:(lia)) as Hdm'.
  pose proof (Z.mod_pos_bound minutes 60 ltac:(lia)) as Hr'.
  rewrite Z.rem_mod_nonneg by lia.
  split_and!; try lia.
  destruct (0 <? minutes / 60 / 24) eqn:Hdays.
  - apply Z.ltb_lt in Hdays. rewrite bool_decide_eq_false_2 by lia.
    destruct (0 <? minutes / 60 mod 24) eqn:Hhours.
    + apply Z.ltb_lt in Hhours. by rewrite bool_decide_eq_false_2 by lia.
    + apply Z.ltb_ge in Hhours. by rewrite bool_decide_eq_true_2 by lia.
  - apply Z.ltb_ge in Hdays. rewrite bool_decide_eq_true_2 by lia.
    f_equal. f_equal. f_equal. f_equal.
    rewrite Z.mod_small; [done|]. split; [done|].
    assert (minutes / 60 / 24 = 0) as H0 by lia. lia.
Qed.

End PageFacts.

Lemma application_logs_are_the_newest_wanted_entries_witness :
  Logs.logs
    (Logs.get_logs_application Demo.builtins Samples.parse_line "2025-01-01"
       (Ok Samples.log_file) (Some "1") (Some "error"))
  = [Js.JObj [("level", Js.JStr "error")]]
  ∧ Logs.total
      (Logs.get_logs_application Demo.builtins Samples.parse_line
         "2025-01-01" (Ok Samples.log_file) (Some "1") (Some "error"))
    = Some 5%nat.
Proof.
  destruct (application_logs_are_the_newest_wanted_entries Demo.builtins
              Samples.parse_line "2025-01-01" Samples.log_file (Some "1")
              (Some "error"))
    as (_ & _ & Hnewest & _ & _ & (n & Htotal & Hn & _) & _).
  - intros line. unfold Samples.parse_line.
    repeat case_bool_decide; discriminate.
  - split.
    + rewrite Hnewest by (vm_compute; reflexivity). vm_compute. reflexivity.
    + rewrite Htotal, Hn. vm_compute. reflexivity.
Defined.

Lemma the_limit_a_client_asks_for_is_the_limit_served_witness :
  Logs.get_emails_limit (ApiClient.emails_query (Some 25)) = 25.
Proof.
  apply (the_limit_a_client_asks_for_is_the_limit_served (Some 25)).
  intros n [= <-]. vm_compute. discriminate.
Defined.

Lemma formatTime_is_the_twelve_hour_clock_witness :
  ∃ shown,
    Page.formatTime Samples.translator 15
    = Samples.translator "time.hour.pm" [("hour", Js.PNum shown)]
    ∧ 1 ≤ shown ≤ 12
    ∧ shown mod 12 = 15 mod 12.
Proof.
  apply (formatTime_is_the_twelve_hour_clock Samples.translator 15). lia.
Defined.

Lemma formatHours_loses_less_than_an_hour_witness :
  ∃ days hours,
    0 ≤ days ∧ 0 ≤ hours < 24
    ∧ 0 ≤ 1500 - 60 * (24 * days + hours) < 60
    ∧ Page.formatHours Samples.translator 1500
      = if bool_decide (days = 0)
        then Samples.translator "time.duration.hours"
               [("hours", Js.PNum hours)]
        else if bool_decide (hours = 0)
             then Samples.translator "time.duration.days"
                    [("days", Js.PNum days)]
             else Samples.translator "time.duration.daysHours"
                    [("days", Js.PNum days); ("hours", Js.PNum hours)].
Proof.
  apply (formatHours_loses_less_than_an_hour Samples.translator 1500). lia.
Defined.
